(** * Dependency resolver of gulp-boilerplate ([src/lib/dependencies.js])

    A shallow embedding of the module that computes, for a source file, the
    set of files it transitively depends on, of the filter of the build
    script that uses it ([src/index.js]) and of the script
    [src/dependency-test.js], followed by the properties of the embedding
    that the specification states and by further properties of the code.

    Strings are sequences of code units in the range U+0000..U+00FF
    ([ascii]); the dictionaries of the source are [gmap]s and the result
    [Set] is a [gset]. *)

From Stdlib Require Import Ascii String List ZArith Lia.
From stdpp Require Import gmap gmultiset strings list pretty.

Open Scope string_scope.
Open Scope list_scope.

(** ** Regular expressions

    The fragment of ECMAScript regular expressions used by the module: the
    backtracking matcher in continuation-passing style, [exec] on a global
    (flag [g]) pattern, and [String.prototype.replace] with a pattern. Every
    quantifier of the source but one applies to a character class; the
    exception, [(?:meta\.)?], is an optional group. *)
Module Regex.

Definition dq : ascii := "034"%char.
Definition sq : ascii := "039"%char.
Definition cr : ascii := "013"%char.
Definition lf : ascii := "010"%char.

(** [\s] on code units below 256: TAB, LF, VT, FF, CR, SP and NBSP. *)
Definition is_space (c : ascii) : bool :=
  let n := nat_of_ascii c in
  (Nat.leb 9 n && Nat.leb n 13) || Nat.eqb n 32 || Nat.eqb n 160.

(** [\w] is [[A-Za-z0-9_]]. *)
Definition is_word (c : ascii) : bool :=
  let n := nat_of_ascii c in
  (Nat.leb 48 n && Nat.leb n 57) || (Nat.leb 65 n && Nat.leb n 90)
  || Nat.eqb n 95 || (Nat.leb 97 n && Nat.leb n 122).

Inductive citem :=
| CChar (c : ascii)
| CRange (lo hi : ascii)
| CSpace
| CNotSpace
| CWord.

Definition item_matches (c : ascii) (it : citem) : bool :=
  match it with
  | CChar c' => Ascii.eqb c' c
  | CRange lo hi =>
      Nat.leb (nat_of_ascii lo) (nat_of_ascii c)
      && Nat.leb (nat_of_ascii c) (nat_of_ascii hi)
  | CSpace => is_space c
  | CNotSpace => negb (is_space c)
  | CWord => is_word c
  end.

(** [[items]] when [neg] is false, [[^items]] when it is true. *)
Definition in_class (neg : bool) (items : list citem) (c : ascii) : bool :=
  xorb neg (existsb (item_matches c) items).

Inductive regex :=
| Eps
| Chr (c : ascii)
| Class (neg : bool) (items : list citem)
| Bol                                  (* ^ without the m flag *)
| Eol                                  (* $ without the m flag *)
| Seq (r1 r2 : regex)
| Alt (r1 r2 : regex)
| Grp (n : nat) (r : regex)            (* n-th capturing group *)
| Opt (r : regex)                      (* (?:r)? *)
| Rep (greedy : bool) (min : nat) (neg : bool) (items : list citem).

Declare Scope regex_scope.
Delimit Scope regex_scope with re.
Bind Scope regex_scope with regex.
Notation "r1 ⋅ r2" := (Seq r1 r2) (at level 40, left associativity) : regex_scope.
Notation "r1 ∣ r2" := (Alt r1 r2) (at level 50, left associativity) : regex_scope.

(** A literal run of characters. *)
Fixpoint lit (s : string) : regex :=
  match s with
  | EmptyString => Eps
  | String c EmptyString => Chr c
  | String c s' => Seq (Chr c) (lit s')
  end.

(** Number of capturing groups, the [length - 1] of a match array. *)
Fixpoint ngroups (r : regex) : nat :=
  match r with
  | Seq r1 r2 | Alt r1 r2 => ngroups r1 + ngroups r2
  | Grp _ r1 => S (ngroups r1)
  | Opt r1 => ngroups r1
  | _ => 0
  end.

Abbreviation caps := (gmap nat (list ascii)).

(** A continuation receives the rest of the input, the index reached and
    the captures so far; it answers with the end of the whole match. *)
Definition cont := list ascii -> nat -> caps -> option (nat * caps).

Fixpoint rep_greedy (p : ascii -> bool) (min : nat) (k : cont)
    (rest : list ascii) (i : nat) (cs : caps) : option (nat * caps) :=
  let stop := match min with 0 => k rest i cs | S _ => None end in
  match rest with
  | c :: rest' =>
      if p c then
        match rep_greedy p (pred min) k rest' (S i) cs with
        | Some res => Some res
        | None => stop
        end
      else stop
  | [] => stop
  end.

Fixpoint rep_lazy (p : ascii -> bool) (min : nat) (k : cont)
    (rest : list ascii) (i : nat) (cs : caps) : option (nat * caps) :=
  let more :=
    match rest with
    | c :: rest' => if p c then rep_lazy p (pred min) k rest' (S i) cs else None
    | [] => None
    end in
  match min with
  | 0 => match k rest i cs with Some res => Some res | None => more end
  | S _ => more
  end.

Fixpoint matcher (r : regex) (k : cont) (rest : list ascii) (i : nat)
    (cs : caps) : option (nat * caps) :=
  match r with
  | Eps => k rest i cs
  | Chr c =>
      match rest with
      | c' :: rest' => if Ascii.eqb c c' then k rest' (S i) cs else None
      | [] => None
      end
  | Class neg items =>
      match rest with
      | c' :: rest' => if in_class neg items c' then k rest' (S i) cs else None
      | [] => None
      end
  | Bol => match i with 0 => k rest i cs | S _ => None end
  | Eol => match rest with [] => k rest i cs | _ :: _ => None end
  | Seq r1 r2 => matcher r1 (matcher r2 k) rest i cs
  | Alt r1 r2 =>
      match matcher r1 k rest i cs with
      | Some res => Some res
      | None => matcher r2 k rest i cs
      end
  | Grp n r1 =>
      matcher r1 (fun rest' i' cs' => k rest' i' (<[n := take (i' - i) rest]> cs'))
        rest i cs
  | Opt r1 =>
      match matcher r1 k rest i cs with
      | Some res => Some res
      | None => k rest i cs
      end
  | Rep greedy min neg items =>
      (if greedy then rep_greedy else rep_lazy) (in_class neg items) min k rest i cs
  end.

Definition accept : cont := fun _ j cs => Some (j, cs).

(** The match array without its element 0: the captures 1..n, [None] for
    a group that took no part in the match. *)
Definition groups (r : regex) (cs : caps) : list (option string) :=
  map (fun n => string_of_list_ascii <$> cs !! n) (seq 1 (ngroups r)).

Record match_result := MatchResult {
  m_start : nat;
  m_end : nat;
  m_groups : list (option string)
}.

(** Leftmost match starting at index [i] or later; [rest] is the input
    from index [i] on. *)
Fixpoint search (r : regex) (rest : list ascii) (i : nat) : option match_result :=
  match matcher r accept rest i ∅ with
  | Some (j, cs) => Some (MatchResult i j (groups r cs))
  | None =>
      match rest with
      | [] => None
      | _ :: rest' => search r rest' (S i)
      end
  end.

(** [r.exec(input)] for a pattern with the [g] flag whose [lastIndex] is
    [lastIndex]; the new [lastIndex] is [m_end] of the result, and 0 when
    there is none. *)
Definition exec (r : regex) (input : string) (lastIndex : nat) : option match_result :=
  let s := list_ascii_of_string input in
  if Nat.ltb (length s) lastIndex then None
  else search r (drop lastIndex s) lastIndex.

(** Replacement templates: literal text and [$n]. *)
Inductive rpiece := RLit (s : string) | RGroup (n : nat).

Definition expand (gs : list (option string)) (p : rpiece) : string :=
  match p with
  | RLit s => s
  | RGroup n => default "" (mjoin (gs !! (n - 1)))
  end.

(** [input.replace(r, template)] for a pattern without the [g] flag: the
    first match is replaced, an input without a match is returned as is. *)
Definition replace (r : regex) (template : list rpiece) (input : string) : string :=
  let s := list_ascii_of_string input in
  match search r s 0 with
  | None => input
  | Some mr =>
      string_of_list_ascii (take (m_start mr) s)
      +:+ fold_right (fun p acc => expand (m_groups mr) p +:+ acc) "" template
      +:+ string_of_list_ascii (drop (m_end mr) s)
  end.

End Regex.

(** ** Paths

    The functions of Node's [path] module (POSIX flavour) that the source
    calls: [extname], [dirname], [resolve] and [join]. [extname] and
    [dirname] follow the library's right-to-left scans; normalisation works
    on the segments between separators. *)
Module Path.

Definition slash : ascii := "/"%char.
Definition dot : ascii := "."%char.

Record ext_state := ExtState {
  startDot : Z;
  startPart : Z;
  end_ : Z;
  matchedSlash : bool;
  preDotState : Z
}.

(** The scan of [extname] over the indices [i - 1], ..., 0. *)
Fixpoint extname_loop (path : list ascii) (i : nat) (st : ext_state) : ext_state :=
  match i with
  | 0 => st
  | S i' =>
      let code := nth i' path "000"%char in
      if Ascii.eqb code slash then
        if negb (matchedSlash st)
        then ExtState (startDot st) (Z.of_nat i' + 1) (end_ st) (matchedSlash st)
               (preDotState st)
        else extname_loop path i' st
      else
        let st1 :=
          if (end_ st =? -1)%Z
          then ExtState (startDot st) (startPart st) (Z.of_nat i' + 1) false
                 (preDotState st)
          else st in
        let st2 :=
          if Ascii.eqb code dot then
            if (startDot st1 =? -1)%Z
            then ExtState (Z.of_nat i') (startPart st1) (end_ st1) (matchedSlash st1)
                   (preDotState st1)
            else if negb (preDotState st1 =? 1)%Z
            then ExtState (startDot st1) (startPart st1) (end_ st1) (matchedSlash st1) 1
            else st1
          else if negb (startDot st1 =? -1)%Z
          then ExtState (startDot st1) (startPart st1) (end_ st1) (matchedSlash st1) (-1)
          else st1 in
        extname_loop path i' st2
  end.

Definition slice (path : list ascii) (from to : Z) : list ascii :=
  take (Z.to_nat to - Z.to_nat from) (drop (Z.to_nat from) path).

Definition extname (path : string) : string :=
  let p := list_ascii_of_string path in
  let st := extname_loop p (length p) (ExtState (-1) 0 (-1) true 0) in
  if (startDot st =? -1)%Z || (end_ st =? -1)%Z || (preDotState st =? 0)%Z
     || ((preDotState st =? 1)%Z && (startDot st =? end_ st - 1)%Z
         && (startDot st =? startPart st + 1)%Z)
  then ""
  else string_of_list_ascii (slice p (startDot st) (end_ st)).

(** The scan of [dirname] over the indices [i - 1], ..., 1; the answer is
    the value of [end], -1 as [None]. *)
Fixpoint dirname_loop (path : list ascii) (i : nat) (matchedSlash : bool) : option nat :=
  match i with
  | 0 | 1 => None
  | S i' =>
      if Ascii.eqb (nth i' path "000"%char) slash then
        if negb matchedSlash then Some i' else dirname_loop path i' matchedSlash
      else dirname_loop path i' false
  end.

Definition is_absolute (path : string) : bool :=
  match path with
  | String c _ => Ascii.eqb c slash
  | EmptyString => false
  end.

Definition dirname (path : string) : string :=
  let p := list_ascii_of_string path in
  match p with
  | [] => "."
  | _ =>
      let hasRoot := is_absolute path in
      match dirname_loop p (length p) true with
      | None => if hasRoot then "/" else "."
      | Some e =>
          if hasRoot && Nat.eqb e 1 then "//"
          else string_of_list_ascii (take e p)
      end
  end.

(** The segments of a path: the runs between separators, empty ones
    included. *)
Fixpoint split (p : list ascii) : list (list ascii) :=
  match p with
  | [] => [[]]
  | c :: p' =>
      if Ascii.eqb c slash then [] :: split p'
      else match split p' with
           | seg :: segs => (c :: seg) :: segs
           | [] => [[c]]
           end
  end.

Definition dotdot : list ascii := [dot; dot].

(** One step of normalisation; [stack] holds the segments kept so far,
    the last one first. *)
Definition push_segment (allowAboveRoot : bool) (stack : list (list ascii))
    (seg : list ascii) : list (list ascii) :=
  if bool_decide (seg = []) || bool_decide (seg = [dot]) then stack
  else if bool_decide (seg = dotdot) then
    match stack with
    | top :: below =>
        if bool_decide (top = dotdot)
        then if allowAboveRoot then seg :: stack else stack
        else below
    | [] => if allowAboveRoot then [seg] else []
    end
  else seg :: stack.

Fixpoint unsplit (segs : list (list ascii)) : list ascii :=
  match segs with
  | [] => []
  | [seg] => seg
  | seg :: segs' => seg ++ slash :: unsplit segs'
  end.

Definition normalizeString (path : list ascii) (allowAboveRoot : bool) : list ascii :=
  unsplit (rev (fold_left (push_segment allowAboveRoot) (split path) [])).

(** [path.resolve(...args)] with [cwd] the working directory of the
    process: the arguments are taken from the right until the path is
    absolute, the working directory last. *)
Definition resolve_step (acc : string * bool) (path : string) : string * bool :=
  let '(resolvedPath, resolvedAbsolute) := acc in
  if resolvedAbsolute then acc
  else if bool_decide (path = "") then acc
  else (path +:+ "/" +:+ resolvedPath, is_absolute path).

Definition resolve (cwd : string) (args : list string) : string :=
  let '(resolvedPath, resolvedAbsolute) :=
    fold_left resolve_step (rev args ++ [cwd]) ("", false) in
  let normalized :=
    string_of_list_ascii
      (normalizeString (list_ascii_of_string resolvedPath) (negb resolvedAbsolute)) in
  if resolvedAbsolute then "/" +:+ normalized
  else if bool_decide (normalized = "") then "." else normalized.

Definition ends_with_slash (path : string) : bool :=
  match rev (list_ascii_of_string path) with
  | c :: _ => Ascii.eqb c slash
  | [] => false
  end.

Definition normalize (path : string) : string :=
  if bool_decide (path = "") then "."
  else
    let isAbsolute := is_absolute path in
    let trailingSeparator := ends_with_slash path in
    let p := string_of_list_ascii
               (normalizeString (list_ascii_of_string path) (negb isAbsolute)) in
    if bool_decide (p = "") then
      if isAbsolute then "/" else if trailingSeparator then "./" else "."
    else
      let p' := if trailingSeparator then p +:+ "/" else p in
      if isAbsolute then "/" +:+ p' else p'.

Definition join_step (joined : option string) (arg : string) : option string :=
  if bool_decide (arg = "") then joined
  else match joined with
       | None => Some arg
       | Some j => Some (j +:+ "/" +:+ arg)
       end.

Definition join (args : list string) : string :=
  match fold_left join_step args None with
  | None => "."
  | Some joined => normalize joined
  end.

End Path.

(** ** File system

    What [fs.existsSync], [fs.statSync] and [fs.readFileSync] report for a
    path, and the working directory against which [path.resolve] completes
    a relative path. Paths are looked up as the program spells them: two
    spellings of the path of one file are two keys of [files]. *)
Module Fs.

Inductive node :=
| File (content : string) (mtimeMs : N) (readable : bool)
| Directory (mtimeMs : N).

Record env := Env {
  files : gmap string node;
  cwd : string
}.

Inductive exn :=
| ENOENT (path : string)       (* no such file or directory *)
| EISDIR (path : string)       (* illegal operation on a directory *)
| EACCES (path : string)       (* permission denied *)
| RangeError                   (* maximum call stack size exceeded *)
| TypeError                    (* a call of what is not a function *)
| Thrown (what : string).      (* what a function of a configuration throws *)

Record stats := Stats {
  isFile : bool;
  mtimeMs : N
}.

Definition lookup (e : env) (path : string) : option node :=
  if bool_decide (path = "") then None else files e !! path.

Definition existsSync (e : env) (path : string) : bool :=
  match lookup e path with Some _ => true | None => false end.

Definition statSync (e : env) (path : string) : exn + stats :=
  match lookup e path with
  | Some (File _ m _) => inr (Stats true m)
  | Some (Directory m) => inr (Stats false m)
  | None => inl (ENOENT path)
  end.

Definition readFileSync (e : env) (path : string) : exn + string :=
  match lookup e path with
  | Some (File content _ true) => inr content
  | Some (File _ _ false) => inl (EACCES path)
  | Some (Directory _) => inl (EISDIR path)
  | None => inl (ENOENT path)
  end.

End Fs.

(** ** The module [lib/dependencies.js] *)

Import Regex.

(** A parser of a search configuration is a function or a pattern; a
    function answers with a string or with a falsy value ([None]). The
    functions of this part are those of the module with a configuration
    like the default one: its parser functions and its resolver steps
    return, and its patterns have the [g] flag. [Custom], further down,
    has them for any configuration. *)
Inductive parser :=
| ParserFn (f : string -> option string)
| ParserRe (r : regex).

(** An entry of a search configuration; a field that the entry leaves out
    is the empty list, which is the default of the destructuring in
    [getDependencies]. *)
Record languageConfig := LanguageConfig {
  parsers : list parser;
  resolvers : list (string -> string)
}.

Definition quoted (inner : ascii -> regex) : regex :=
  (Chr dq ⋅ inner dq ⋅ Chr dq ∣ Chr sq ⋅ inner sq ⋅ Chr sq)%re.

(** The first pattern of [jsSearchConfig] (line 7): at the start of the
    input or after a CR or LF, [import] or [export], white space, as few
    characters as possible, then group 1, a literal in double or in single
    quotes that starts with a dot and has one more character at least,
    then a semicolon. *)
Definition jsImportPattern : regex :=
  ((Bol ∣ Class false [CChar cr; CChar lf])
   ⋅ (lit "import" ∣ lit "export")
   ⋅ Rep true 1 false [CSpace]
   ⋅ Rep false 0 false [CSpace; CNotSpace]
   ⋅ Grp 1 (quoted (fun q => Chr "." ⋅ Rep true 1 true [CChar q]))
   ⋅ Chr ";")%re.

(** The second pattern of [jsSearchConfig] (line 9): a non-empty run
    without a double quote between double quotes (group 1), or the same
    with single quotes (group 2). *)
Definition unwrapQuotesPattern : regex :=
  (Chr dq ⋅ Grp 1 (Rep true 1 true [CChar dq]) ⋅ Chr dq
   ∣ Chr sq ⋅ Grp 2 (Rep true 1 true [CChar sq]) ⋅ Chr sq)%re.

Definition jsSearchConfig : languageConfig := {|
  parsers := [ParserRe jsImportPattern; ParserRe unwrapQuotesPattern];
  resolvers := [fun filename => filename +:+ ".js";
                fun filename => filename +:+ ".mjs"]
|}.

(** The first pattern of the [.scss] entry (line 25), three alternatives
    with a quoted literal each: [@use] or [@forward] at the start of the
    input or after a CR or LF (group 1); [@import], at the start of the
    input or after a character other than a slash, closed by a semicolon
    (group 2); [@include load-css], with or without [meta.], at the start
    of the input or after a character other than a slash (group 3). *)
Definition scssImportPattern : regex :=
  ((Bol ∣ Class false [CChar cr; CChar lf])
     ⋅ Chr "@" ⋅ (lit "use" ∣ lit "forward")
     ⋅ Rep true 1 false [CSpace]
     ⋅ Grp 1 (quoted (fun q => Rep true 1 true [CChar q]))
   ∣ (Bol ∣ Class true [CChar "/"])
     ⋅ lit "@import"
     ⋅ Rep true 1 false [CSpace]
     ⋅ Grp 2 (quoted (fun q => Rep true 1 true [CChar q]))
     ⋅ Chr ";"
   ∣ (Bol ∣ Class true [CChar "/"])
     ⋅ lit "@include"
     ⋅ Rep true 1 false [CSpace]
     ⋅ Opt (lit "meta.")
     ⋅ lit "load-css("
     ⋅ Rep true 0 false [CSpace]
     ⋅ Grp 3 (quoted (fun q => Rep true 1 true [CChar q]))
     ⋅ Rep true 0 false [CSpace]
     ⋅ Chr ")")%re.

(** The second pattern of the [.scss] entry (line 27): a literal in double
    quotes (group 1) or in single quotes (group 2), or [url] with an
    argument in double quotes (group 3), in single quotes (group 4) or
    bare (group 5). *)
Definition scssUnwrapPattern : regex :=
  (Chr dq ⋅ Grp 1 (Rep true 1 true [CChar dq]) ⋅ Chr dq
   ∣ Chr sq ⋅ Grp 2 (Rep true 1 true [CChar sq]) ⋅ Chr sq
   ∣ lit "url("
     ⋅ (Chr dq ⋅ Grp 3 (Rep true 1 true [CChar dq]) ⋅ Chr dq
        ∣ Chr sq ⋅ Grp 4 (Rep true 1 true [CChar sq]) ⋅ Chr sq
        ∣ Grp 5 (Rep true 1 true [CChar ")"]))
     ⋅ Chr ")")%re.

(** The pattern of the resolver for SASS partials (line 33): a non-empty
    run of word characters and hyphens (group 1) that ends the input. *)
Definition partialPattern : regex :=
  (Grp 1 (Rep true 1 false [CWord; CChar "-"]) ⋅ Eol)%re.

Definition scssSearchConfig : languageConfig := {|
  parsers := [ParserRe scssImportPattern; ParserRe scssUnwrapPattern];
  resolvers := [fun filename => filename +:+ ".scss";
                fun filename =>
                  Regex.replace partialPattern [RLit "_"; RGroup 1; RLit ".scss"] filename;
                fun filename => Path.join [filename; "_index.scss"]]
|}.

Definition defaultSearchConfig : gmap string languageConfig :=
  <[".js" := jsSearchConfig]> (<[".mjs" := jsSearchConfig]> (<[".scss" := scssSearchConfig]> ∅)).

(** The two tables of the module, shared by every function the factory
    returns, with three logs that record the calls of [getDependencies],
    of [fs.readFileSync] and of [resolveDependencyReference], the most
    recent first. The logs are instrumentation: no function reads them. *)
Record state := State {
  dependencyCache : gmap string (list string);
  resolverCache : gmap string string;
  callLog : list string;
  readLog : list string;
  resolveLog : list string
}.

Definition initial : state := State ∅ ∅ [] [] [].

(** How a call ends. [Diverges] is the [do]-[while] loop of
    [findDependencyReferences] that never ends, or a function of a
    configuration that does not return. *)
Inductive outcome (A : Type) :=
| Returns (a : A)
| Throws (e : Fs.exn)
| Diverges.
Arguments Returns {A} a.
Arguments Throws {A} e.
Arguments Diverges {A}.

(** JavaScript truthiness of a string. *)
Definition truthy (s : string) : bool := negb (bool_decide (s = "")).

Definition truthyGroup (g : option string) : option string :=
  match g with
  | Some s => if truthy s then Some s else None
  | None => None
  end.

(** The loop [do { match = parser.exec( input ); ... } while ( match )] on
    one input, from the given [lastIndex]. An [exec] that leaves
    [lastIndex] where it was finds the same match for ever: [None]. As
    [lastIndex] grows otherwise, [fuel] the length of the input is never
    used up. *)
Fixpoint execLoop (fuel : nat) (r : regex) (input : string) (lastIndex : nat)
    : option (list string) :=
  match Regex.exec r input lastIndex with
  | None => Some []
  | Some m =>
      if Nat.leb (m_end m) lastIndex then None
      else match fuel with
           | 0 => None
           | S fuel' =>
               (fun later => omap truthyGroup (m_groups m) ++ later)
                 <$> execLoop fuel' r input (m_end m)
           end
  end.

Definition findDependencyReferences (inputs : list string) (p : parser)
    : option (list string) :=
  match p with
  | ParserFn f => Some (omap (fun input => truthyGroup (f input)) inputs)
  | ParserRe r =>
      mjoin <$> mapM (fun input => execLoop (String.length input) r input 0) inputs
  end.

Definition isRegularFile (e : Fs.env) (path : string) : bool :=
  Fs.existsSync e path
  && match Fs.statSync e path with
     | inr s => Fs.isFile s
     | inl _ => false
     end.

Fixpoint tryResolvers (e : Fs.env) (input : string) (rs : list (string -> string))
    : option string :=
  match rs with
  | [] => None
  | resolver :: rs' =>
      let resolvedPath := resolver input in
      if isRegularFile e resolvedPath then Some resolvedPath
      else tryResolvers e input rs'
  end.

Definition resolveDependencyReference (e : Fs.env) (input : string)
    (rs : list (string -> string)) : option string :=
  if isRegularFile e input then Some input else tryResolvers e input rs.

(** The passes of the parsers over the list that starts as the content. *)
Definition extract (ps : list parser) (content : string) : option (list string) :=
  fold_left (fun deps p => deps ≫= fun inputs => findDependencyReferences inputs p)
    ps (Some [content]).

Definition cacheKey (filename : string) (s : Fs.stats) : string :=
  filename +:+ "@" +:+ pretty (Fs.mtimeMs s).

Definition logCall (filename : string) (st : state) : state :=
  State (dependencyCache st) (resolverCache st) (filename :: callLog st) (readLog st)
    (resolveLog st).

Definition logRead (filename : string) (st : state) : state :=
  State (dependencyCache st) (resolverCache st) (callLog st) (filename :: readLog st)
    (resolveLog st).

Definition logResolve (depPath : string) (st : state) : state :=
  State (dependencyCache st) (resolverCache st) (callLog st) (readLog st)
    (depPath :: resolveLog st).

Definition setDependencies (key : string) (deps : list string) (st : state) : state :=
  State (<[key := deps]> (dependencyCache st)) (resolverCache st) (callLog st)
    (readLog st) (resolveLog st).

Definition setResolved (depPath dependency : string) (st : state) : state :=
  State (dependencyCache st) (<[depPath := dependency]> (resolverCache st)) (callLog st)
    (readLog st) (resolveLog st).

(** Lines 106-123: the references of the file, from the table or from its
    content. *)
Definition references (e : Fs.env) (ps : list parser) (filename : string) (st : state)
    : outcome (list string) * state :=
  match Fs.statSync e filename with
  | inl err => (Throws err, st)
  | inr s =>
      match dependencyCache st !! cacheKey filename s with
      | Some dependencies => (Returns dependencies, st)
      | None =>
          match Fs.readFileSync e filename with
          | inl err => (Throws err, logRead filename st)
          | inr content =>
              match extract ps content with
              | None => (Diverges, logRead filename st)
              | Some dependencies =>
                  (Returns dependencies,
                   setDependencies (cacheKey filename s) dependencies
                     (logRead filename st))
              end
          end
      end
  end.

(** Lines 130-141: the file a candidate stands for, from the table or from
    the resolvers; [None] is the [continue] of the loop. *)
Definition dependencyOf (e : Fs.env) (rs : list (string -> string)) (depPath : string)
    (st : state) : option string * state :=
  match resolverCache st !! depPath with
  | Some dependency =>
      if truthy dependency then (Some dependency, st)
      else
        match resolveDependencyReference e depPath rs with
        | Some dependency' =>
            if truthy dependency'
            then (Some dependency', setResolved depPath dependency' (logResolve depPath st))
            else (None, logResolve depPath st)
        | None => (None, logResolve depPath st)
        end
  | None =>
      match resolveDependencyReference e depPath rs with
      | Some dependency =>
          if truthy dependency
          then (Some dependency, setResolved depPath dependency (logResolve depPath st))
          else (None, logResolve depPath st)
      | None => (None, logResolve depPath st)
      end
  end.

(** Lines 127-146: the loop over the references; [recur] is the recursive
    call of [getDependencies]. *)
Fixpoint forEachDependency (recur : string -> state -> outcome (gset string) * state)
    (e : Fs.env) (directory : string) (rs : list (string -> string))
    (dependencies : list string) (results : gset string) (st : state)
    : outcome (gset string) * state :=
  match dependencies with
  | [] => (Returns results, st)
  | dep :: rest =>
      let depPath := Path.resolve (Fs.cwd e) [directory; dep] in
      match dependencyOf e rs depPath st with
      | (None, st1) => forEachDependency recur e directory rs rest results st1
      | (Some dependency, st1) =>
          match recur dependency st1 with
          | (Returns children, st2) =>
              forEachDependency recur e directory rs rest
                (results ∪ {[dependency]} ∪ children) st2
          | (Throws err, st2) => (Throws err, st2)
          | (Diverges, st2) => (Diverges, st2)
          end
      end
  end.

(** [getDependencies( filename )] of the function the factory returns for
    [searchConfig]; [depth] is the number of nested calls the stack has
    room for, and a call that needs more throws [RangeError]. *)
Fixpoint getDependencies (searchConfig : gmap string languageConfig) (e : Fs.env)
    (depth : nat) (filename : string) (st : state) : outcome (gset string) * state :=
  match depth with
  | 0 => (Throws Fs.RangeError, st)
  | S depth' =>
      let ext := Path.extname filename in
      let directory := Path.dirname filename in
      let c := default (LanguageConfig [] []) (searchConfig !! ext) in
      match references e (parsers c) filename (logCall filename st) with
      | (Returns dependencies, st1) =>
          forEachDependency (getDependencies searchConfig e depth') e directory
            (resolvers c) dependencies ∅ st1
      | (Throws err, st1) => (Throws err, st1)
      | (Diverges, st1) => (Diverges, st1)
      end
  end.

(** [module.exports]: the factory; without an argument the function works
    on [defaultSearchConfig]. *)
Definition module_exports (searchConfig : option (gmap string languageConfig))
    : Fs.env -> nat -> string -> state -> outcome (gset string) * state :=
  getDependencies (default defaultSearchConfig searchConfig).

(** ** The module with any configuration

    The functions above are those of the module with a configuration
    whose parser functions and resolver steps return and whose patterns
    have the [g] flag, as in the default configuration. Nothing in the
    module checks a configuration or catches an error. [Custom] has the
    functions again for a configuration in which a parser function or a
    resolver step may raise an error or not return, a pattern may lack the
    [g] flag, and a parser may be a value that is neither a function nor
    has a method [exec]. What a parser function returns is a string or a
    falsy value, and what a resolver step returns is a string. The tables
    and the logs are the same. *)
Module Custom.

Inductive parser :=
| ParserFn (f : string -> outcome (option string))
| ParserRe (global : bool) (r : regex)
| ParserOther.

Record languageConfig := LanguageConfig {
  parsers : list parser;
  resolvers : list (string -> outcome string)
}.

(** What follows an outcome happens when it is a value. *)
Definition andThen {A B : Type} (o : outcome A) (k : A -> outcome B) : outcome B :=
  match o with
  | Returns a => k a
  | Throws err => Throws err
  | Diverges => Diverges
  end.

(** A loop [for ( const input of inputs )] whose body adds to the
    results. *)
Fixpoint forInputs (body : string -> outcome (list string)) (inputs : list string)
    : outcome (list string) :=
  match inputs with
  | [] => Returns []
  | input :: rest =>
      andThen (body input) (fun found =>
      andThen (forInputs body rest) (fun later => Returns (found ++ later)))
  end.

(** The loop [do { match = parser.exec( input ); ... } while ( match )] on
    one input. With the [g] flag [exec] starts at [lastIndex] and moves
    it, as in [execLoop]. Without the flag [exec] starts at the beginning
    of the input every time and leaves [lastIndex] alone: when there is a
    match, the loop finds it again for ever and adds its groups to the
    results each time. *)
Definition execAll (global : bool) (r : regex) (input : string) : outcome (list string) :=
  if global then
    match execLoop (String.length input) r input 0 with
    | Some found => Returns found
    | None => Diverges
    end
  else
    match Regex.exec r input 0 with
    | Some _ => Diverges
    | None => Returns []
    end.

Definition findDependencyReferences (inputs : list string) (p : parser)
    : outcome (list string) :=
  match p with
  | ParserFn f =>
      forInputs (fun input =>
                   andThen (f input) (fun m =>
                   Returns (match truthyGroup m with Some s => [s] | None => [] end)))
        inputs
  | ParserRe global r => forInputs (execAll global r) inputs
  | ParserOther => forInputs (fun _ => Throws Fs.TypeError) inputs
  end.

Fixpoint tryResolvers (e : Fs.env) (input : string) (rs : list (string -> outcome string))
    : outcome (option string) :=
  match rs with
  | [] => Returns None
  | resolver :: rs' =>
      andThen (resolver input) (fun resolvedPath =>
      if isRegularFile e resolvedPath then Returns (Some resolvedPath)
      else tryResolvers e input rs')
  end.

Definition resolveDependencyReference (e : Fs.env) (input : string)
    (rs : list (string -> outcome string)) : outcome (option string) :=
  if isRegularFile e input then Returns (Some input) else tryResolvers e input rs.

Definition extract (ps : list parser) (content : string) : outcome (list string) :=
  fold_left (fun deps p => andThen deps (fun inputs => findDependencyReferences inputs p))
    ps (Returns [content]).

Definition references (e : Fs.env) (ps : list parser) (filename : string) (st : state)
    : outcome (list string) * state :=
  match Fs.statSync e filename with
  | inl err => (Throws err, st)
  | inr s =>
      match dependencyCache st !! cacheKey filename s with
      | Some dependencies => (Returns dependencies, st)
      | None =>
          match Fs.readFileSync e filename with
          | inl err => (Throws err, logRead filename st)
          | inr content =>
              match extract ps content with
              | Returns dependencies =>
                  (Returns dependencies,
                   setDependencies (cacheKey filename s) dependencies
                     (logRead filename st))
              | Throws err => (Throws err, logRead filename st)
              | Diverges => (Diverges, logRead filename st)
              end
          end
      end
  end.

(** Lines 130-141; [Returns None] is the [continue] of the loop. *)
Definition dependencyOf (e : Fs.env) (rs : list (string -> outcome string))
    (depPath : string) (st : state) : outcome (option string) * state :=
  let resolved :=
    match resolveDependencyReference e depPath rs with
    | Returns (Some dependency) =>
        if truthy dependency
        then (Returns (Some dependency),
              setResolved depPath dependency (logResolve depPath st))
        else (Returns None, logResolve depPath st)
    | Returns None => (Returns None, logResolve depPath st)
    | Throws err => (Throws err, logResolve depPath st)
    | Diverges => (Diverges, logResolve depPath st)
    end in
  match resolverCache st !! depPath with
  | Some dependency => if truthy dependency then (Returns (Some dependency), st) else resolved
  | None => resolved
  end.

Fixpoint forEachDependency (recur : string -> state -> outcome (gset string) * state)
    (e : Fs.env) (directory : string) (rs : list (string -> outcome string))
    (dependencies : list string) (results : gset string) (st : state)
    : outcome (gset string) * state :=
  match dependencies with
  | [] => (Returns results, st)
  | dep :: rest =>
      let depPath := Path.resolve (Fs.cwd e) [directory; dep] in
      match dependencyOf e rs depPath st with
      | (Returns None, st1) => forEachDependency recur e directory rs rest results st1
      | (Returns (Some dependency), st1) =>
          match recur dependency st1 with
          | (Returns children, st2) =>
              forEachDependency recur e directory rs rest
                (results ∪ {[dependency]} ∪ children) st2
          | (Throws err, st2) => (Throws err, st2)
          | (Diverges, st2) => (Diverges, st2)
          end
      | (Throws err, st1) => (Throws err, st1)
      | (Diverges, st1) => (Diverges, st1)
      end
  end.

Definition configFor (searchConfig : gmap string languageConfig) (filename : string)
    : languageConfig :=
  default (LanguageConfig [] []) (searchConfig !! Path.extname filename).

Fixpoint getDependencies (searchConfig : gmap string languageConfig) (e : Fs.env)
    (depth : nat) (filename : string) (st : state) : outcome (gset string) * state :=
  match depth with
  | 0 => (Throws Fs.RangeError, st)
  | S depth' =>
      let directory := Path.dirname filename in
      let c := configFor searchConfig filename in
      match references e (parsers c) filename (logCall filename st) with
      | (Returns dependencies, st1) =>
          forEachDependency (getDependencies searchConfig e depth') e directory
            (resolvers c) dependencies ∅ st1
      | (Throws err, st1) => (Throws err, st1)
      | (Diverges, st1) => (Diverges, st1)
      end
  end.

End Custom.

(** A configuration of the module above as one of [Custom]. *)
Definition embedParser (p : parser) : Custom.parser :=
  match p with
  | ParserFn f => Custom.ParserFn (fun input => Returns (f input))
  | ParserRe r => Custom.ParserRe true r
  end.

Definition embedLanguage (c : languageConfig) : Custom.languageConfig :=
  Custom.LanguageConfig (map embedParser (parsers c))
    (map (fun (step : string -> string) input => Returns (step input)) (resolvers c)).

Definition embed (searchConfig : gmap string languageConfig)
    : gmap string Custom.languageConfig :=
  embedLanguage <$> searchConfig.

(** An answer of the functions above as an outcome. *)
Definition ofOption {A : Type} (o : option A) : outcome A :=
  match o with
  | Some a => Returns a
  | None => Diverges
  end.

(** ** Definitions used by the statements *)

(** The entry of the search configuration that [getDependencies] works
    with for a file: the one of its extension, or an entry without parsers
    and resolvers. *)
Definition configFor (searchConfig : gmap string languageConfig) (filename : string)
    : languageConfig :=
  default (LanguageConfig [] []) (searchConfig !! Path.extname filename).

(** The references that [getDependencies] works with for a file: those of
    the extraction table when it has an entry for the file and its
    modification time, those extracted from the content otherwise; [None]
    when the call ends before it has them. *)
Definition referencesOf (searchConfig : gmap string languageConfig) (e : Fs.env)
    (filename : string) (st : state) : option (list string) :=
  match Fs.statSync e filename with
  | inr s =>
      match dependencyCache st !! cacheKey filename s with
      | Some dependencies => Some dependencies
      | None =>
          match Fs.readFileSync e filename with
          | inr content => extract (parsers (configFor searchConfig filename)) content
          | inl _ => None
          end
      end
  | inl _ => None
  end.

(** The candidate path of a reference [dep] found in [filename]. *)
Definition candidate (e : Fs.env) (filename dep : string) : string :=
  Path.resolve (Fs.cwd e) [Path.dirname filename; dep].

(** A regular file exists at [path]: the file system has a file there,
    not a directory and not nothing. *)
Definition regularFileAt (e : Fs.env) (path : string) : Prop :=
  exists content mtimeMs readable,
    Fs.lookup e path = Some (Fs.File content mtimeMs readable).

Definition regularFile (e : Fs.env) (path : string) : bool :=
  match Fs.lookup e path with
  | Some (Fs.File _ _ _) => true
  | Some (Fs.Directory _) | None => false
  end.

(** The resolver of section 4.3 in the words of the specification: of the
    candidate followed by the results of the steps, in pipeline order, the
    first one at which a regular file exists. *)
Definition resolveSpec (e : Fs.env) (candidateBasePath : string)
    (pipeline : list (string -> string)) : option string :=
  find (regularFile e)
    (candidateBasePath :: map (fun step => step candidateBasePath) pipeline).

(** One call of a function made by the factory, and the state of the
    module after a sequence of calls that began with empty tables. *)
Record call := Call {
  c_config : gmap string languageConfig;
  c_env : Fs.env;
  c_depth : nat;
  c_file : string
}.

Definition perform (c : call) (st : state) : outcome (gset string) * state :=
  getDependencies (c_config c) (c_env c) (c_depth c) (c_file c) st.

Definition after (history : list call) : state :=
  fold_left (fun st c => snd (perform c st)) history initial.

(** *** The resolution table *)

(** The resolver answered [v] for the candidate [k] during one of the
    calls: [k] was the candidate of a reference of a file [f], and the
    pipeline was the one of the configuration for [f]. *)
Definition resolvedIn (history : list call) (k v : string) : Prop :=
  exists c f dep,
    c ∈ history
    /\ k = candidate (c_env c) f dep
    /\ resolveDependencyReference (c_env c) k (resolvers (configFor (c_config c) f)) = Some v.

(** How often the resolver was asked about the candidate [k]. *)
Definition asked (k : string) (st : state) : nat :=
  length (filter (fun x => x = k) (resolveLog st)).

(** No pipeline of the configuration finds a file for the candidate. *)
Definition failsEverywhere (cfg : gmap string languageConfig) (e : Fs.env) (k : string)
    : Prop :=
  forall f, resolveDependencyReference e k (resolvers (configFor cfg f)) = None.

(** The table has no entry for [k], and the resolver was asked about [k]
    at least [n] times. *)
Definition unresolved (k : string) (n : nat) (st : state) : Prop :=
  resolverCache st !! k = None /\ n <= asked k st.

(** *** File trees and configurations of the worked examples *)

(** A readable regular file. *)
Definition file (content : string) (mtimeMs : N) : Fs.node := Fs.File content mtimeMs true.

(** [main.js] imports [./util] and [./missing]; [util.js] imports
    [helpers.mjs]. *)
Definition projectEnv : Fs.env :=
  Fs.Env
    (<["/p/main.js" := file "import x from './util';
import z from './missing';" 10]>
       (<["/p/util.js" := file "import y from './helpers.mjs';" 11]>
          (<["/p/helpers.mjs" := file "" 12]> ∅)))
    "/".

(** A call on [main.js] with room for five nested calls. *)
Definition projectCall : call := Call defaultSearchConfig projectEnv 5 "/p/main.js".

(** Every resolver step of the configuration answers an absolute path
    with an absolute path. *)
Definition preservesAbsolute (cfg : gmap string languageConfig) : Prop :=
  forall ext lc r input,
    cfg !! ext = Some lc -> In r (resolvers lc) ->
    Path.is_absolute input = true -> Path.is_absolute (r input) = true.

(** The environment and configuration of a call are as a Node process
    has them: the working directory is absolute; and the resolver steps
    keep paths absolute. *)
Definition keepsAbsolute (c : call) : Prop :=
  Path.is_absolute (Fs.cwd (c_env c)) = true /\ preservesAbsolute (c_config c).

(** A custom resolver may answer with a relative path. *)
Definition vendorConfig : gmap string languageConfig :=
  <[".js" := LanguageConfig [ParserRe unwrapQuotesPattern] [fun _ => "vendor.js"]]> ∅.

(** [a.js] imports [./x]; the only other file has a relative name. *)
Definition vendorEnv : Fs.env :=
  Fs.Env (<["/p/a.js" := file "import './x';" 10]> (<["vendor.js" := file "" 11]> ∅)) "/p".

(** [link.txt] holds the name of the file next to it, and nothing else. *)
Definition linkEnv : Fs.env :=
  Fs.Env (<["/p/link.txt" := file "a.js" 10]> (<["/p/a.js" := file "" 11]> ∅)) "/".

(** [a.js] imports [b.js], which exists and cannot be read. *)
Definition unreadableEnv : Fs.env :=
  Fs.Env (<["/p/a.js" := file "import './b';" 10]>
            (<["/p/b.js" := Fs.File "" 11 false]> ∅)) "/".

(** A configuration whose only parser unwraps quoted literals and that has
    no resolver step. *)
Definition quotesConfig : gmap string languageConfig :=
  <[".js" := LanguageConfig [ParserRe unwrapQuotesPattern] []]> ∅.

(** [a.js] imports [b.js]. *)
Definition pairEnv : Fs.env :=
  Fs.Env (<["/p/a.js" := file "import x from './b';" 10]> (<["/p/b.js" := file "" 11]> ∅))
    "/".

(** [a.js] imports [b.js], and [c.js] is next to them; [b.js] has no
    reference at first, and imports [c.js] once it has been edited. *)
Definition editedEnv (edited : bool) : Fs.env :=
  Fs.Env (<["/p/a.js" := file "import './b';" 10]>
            (<["/p/b.js" := if edited then file "import './c';" 21 else file "" 11]>
               (<["/p/c.js" := file "" 12]> ∅))) "/".

(** The call on [a.js] before and after the edit of [b.js]. *)
Definition editedCall (edited : bool) : call :=
  Call defaultSearchConfig (editedEnv edited) 5 "/p/a.js".

(** *** Keys of the extraction table *)

(** The text has no at sign, like the decimal numeral of a modification
    time. *)
Definition digits (s : string) : Prop :=
  forall c, In c (list_ascii_of_string s) -> c <> "@"%char.

(** In state [st] the first reference of [f] stands for the file [g]:
    the loop of a call on [f] begins with the nested call on [g]. *)
Definition firstDependency (cfg : gmap string languageConfig) (e : Fs.env) (st : state)
    (f g : string) : Prop :=
  exists d rest,
    referencesOf cfg e f st = Some (d :: rest)
    /\ fst (dependencyOf e (resolvers (configFor cfg f)) (candidate e f d) st) = Some g.

(** [a.js] imports [b.js], and [b.js] imports [a.js]. *)
Definition cycleEnv : Fs.env :=
  Fs.Env (<["/p/a.js" := file "import './b';" 10]>
            (<["/p/b.js" := file "import './a';" 11]> ∅)) "/".

(** *** Patterns *)

(** A continuation that accepts at the end of the input only. *)
Definition atEnd (k : cont) : Prop :=
  forall c rest i cs, k (c :: rest) i cs = None.

(** The class of the pattern for SASS partials: word characters and
    the hyphen. *)
Definition wordish (c : ascii) : bool := in_class false [CWord; CChar "-"] c.

(** Every pipeline of the configuration that finds a file for the
    candidate [k] finds [target]. *)
Definition agreedOn (cfg : gmap string languageConfig) (e : Fs.env) (k target : string)
    : Prop :=
  forall f v, resolveDependencyReference e k (resolvers (configFor cfg f)) = Some v ->
              v = target.

(** The resolution table holds nothing but [target] for the candidate. *)
Definition onlyCached (k target : string) (st : state) : Prop :=
  forall w, resolverCache st !! k = Some w -> w = target \/ truthy w = false.

(** Next to [theme.scss] there are [_foo.scss] and a file named [foo]. *)
Definition exactEnv : Fs.env :=
  Fs.Env (<["/p/theme.scss" := file "@use 'foo';" 10]>
            (<["/p/_foo.scss" := file "" 11]> (<["/p/foo" := file "" 12]> ∅))) "/".

(** Next to [theme.scss] there is [_foo.scss] only. *)
Definition partialEnv : Fs.env :=
  Fs.Env (<["/p/theme.scss" := file "@use 'foo';" 10]> (<["/p/_foo.scss" := file "" 11]> ∅))
    "/".

(** The least number of characters that a match of the pattern takes. *)
Fixpoint minlen (r : regex) : nat :=
  match r with
  | Eps | Bol | Eol | Opt _ => 0
  | Chr _ | Class _ _ => 1
  | Seq r1 r2 => minlen r1 + minlen r2
  | Alt r1 r2 => Nat.min (minlen r1) (minlen r2)
  | Grp _ r1 => minlen r1
  | Rep _ min _ _ => min
  end.

(** The characters that a match of the pattern may take. *)
Fixpoint consumes (r : regex) (c : ascii) : bool :=
  match r with
  | Chr c' => Ascii.eqb c' c
  | Class neg items | Rep _ _ neg items => in_class neg items c
  | Seq r1 r2 | Alt r1 r2 => consumes r1 c || consumes r2 c
  | Grp _ r1 | Opt r1 => consumes r1 c
  | Eps | Bol | Eol => false
  end.

(** Not a quote character. *)
Definition nq (c : ascii) : bool := negb (Ascii.eqb dq c) && negb (Ascii.eqb sq c).

(** The double or the single quote character. *)
Definition quoteChar (double : bool) : ascii := if double then dq else sq.

(** The literal: a dot and [body] between two quote characters. *)
Definition literalChars (double : bool) (body : list ascii) : list ascii :=
  quoteChar double :: "."%char :: body ++ [quoteChar double].

(** The class of the lazy star: white space or not, that is, any
    character. *)
Definition anyChar : ascii -> bool := in_class false [CSpace; CNotSpace].

(** The pattern up to the white space after the keyword. *)
Definition headPattern : regex :=
  ((Bol ∣ Class false [CChar cr; CChar lf])
   ⋅ (lit "import" ∣ lit "export")
   ⋅ Rep true 1 false [CSpace])%re.

(** The group of the pattern: the quoted literal that starts with a
    dot. *)
Definition literalGroup : regex :=
  Grp 1 (quoted (fun q => Chr "." ⋅ Rep true 1 true [CChar q]))%re.

(** What follows the lazy star: the literal and the semicolon. *)
Definition literalThenSemicolon : cont := matcher literalGroup (matcher (Chr ";") accept).

(** The characters of the keyword, and those of a statement: keyword,
    a white space character, clause, literal, semicolon. *)
Definition keywordChars (exported : bool) : list ascii :=
  list_ascii_of_string (if exported then "export" else "import").

Definition statementChars (exported : bool) (w : ascii) (clause : list ascii)
    (double : bool) (body : list ascii) : list ascii :=
  keywordChars exported ++ w :: clause ++ literalChars double body ++ [";"%char].

(** The position [i] after the text [gap] is the start of the content or
    follows a line break. *)
Definition lineStart (gap : list ascii) (i : nat) : Prop :=
  (gap = [] /\ i = 0) \/ (exists g c, gap = g ++ [c] /\ (c = cr \/ c = lf)).

(** *** Import statements *)

(** An [import] or [export] statement of the shape the first pattern is
    written for: the keyword, a white space character, a clause, a literal
    that starts with a dot, a semicolon. *)
Record importStatement := ImportStatement {
  exported : bool;
  space : ascii;
  clause : string;
  double : bool;
  target : string
}.

(** The quoted literal of a statement, the reference that it holds, and
    the text of the statement. *)
Definition literal (s : importStatement) : string :=
  String (quoteChar (double s)) ("." +:+ target s +:+ String (quoteChar (double s)) "").

Definition reference (s : importStatement) : string := "." +:+ target s.

Definition statementText (s : importStatement) : string :=
  (if exported s then "export" else "import")
  +:+ String (space s) (clause s +:+ literal s +:+ ";").

(** No character of the text is a quote character. *)
Definition quoteFree (s : string) : Prop :=
  Forall (fun c => nq c = true) (list_ascii_of_string s).

(** The character after the keyword is white space; the clause and the
    reference have no quote character; and the reference has a character
    after its dot. *)
Definition wellFormedStatement (s : importStatement) : Prop :=
  is_space (space s) = true /\ quoteFree (clause s) /\ quoteFree (target s)
  /\ target s <> "".

(** The text before a statement ends a line, or is empty at the start of
    the content. *)
Definition startsLine (first : bool) (gap : string) : Prop :=
  (first = true /\ gap = "")
  \/ (exists g c, gap = g +:+ String c "" /\ (c = cr \/ c = lf)).

(** A run of statements, each with the text before it. *)
Fixpoint blockText (block : list (string * importStatement)) : string :=
  match block with
  | [] => ""
  | (gap, s) :: rest => gap +:+ statementText s +:+ blockText rest
  end.

(** Each statement of the run is well formed and starts a line, and the
    text before it has no quote character. *)
Fixpoint wellFormedBlock (first : bool) (block : list (string * importStatement)) : Prop :=
  match block with
  | [] => True
  | (gap, s) :: rest =>
      quoteFree gap /\ startsLine first gap /\ wellFormedStatement s
      /\ wellFormedBlock false rest
  end.

(** An [import] statement after a space. *)
Definition indentedStatement : importStatement :=
  ImportStatement false " " "x from " false "/a".

(** [main.js] holds that statement, after a space or at the start of the
    line, and [a.js] is next to it. *)
Definition indentedEnv (indented : bool) : Fs.env :=
  Fs.Env (<["/p/main.js" := file ((if indented then " " else "")
                                  +:+ statementText indentedStatement) 10]>
            (<["/p/a.js" := file "" 11]> ∅)) "/".

(** Two statements, the second after a comment. *)
Definition sampleBlock : list (string * importStatement) :=
  [("", ImportStatement false " " "x from " false "/util");
   ("
// helpers
", ImportStatement true " " "* from " true "/helpers.mjs")].

(** *** Tables, references and calls over time *)

(** Every value of the resolution table is truthy, as every value that
    [getDependencies] writes is. *)
Definition truthyTable (st : state) : Prop :=
  forall k v, resolverCache st !! k = Some v -> truthy v = true.

(** The tables of [st'] hold the entries of [st]. *)
Definition extends (st st' : state) : Prop :=
  (forall k d, dependencyCache st !! k = Some d -> dependencyCache st' !! k = Some d)
  /\ (forall k v, resolverCache st !! k = Some v -> resolverCache st' !! k = Some v).

(** The extraction table holds the references [deps] for the file [g]
    as it is now. *)
Definition cachedReferences (e : Fs.env) (st : state) (g : string) (deps : list string)
    : Prop :=
  exists s, Fs.statSync e g = inr s /\ dependencyCache st !! cacheKey g s = Some deps.

(** By the tables alone, the reference [dep] of [g] stands for [v]. *)
Definition edgeVia (e : Fs.env) (st : state) (g dep v : string) : Prop :=
  exists deps, cachedReferences e st g deps /\ dep ∈ deps
               /\ resolverCache st !! candidate e g dep = Some v.

(** Every reference of [g] is in the resolution table or has no file. *)
Definition saturated (cfg : gmap string languageConfig) (e : Fs.env) (st : state)
    (g : string) : Prop :=
  exists deps, cachedReferences e st g deps
    /\ forall dep, dep ∈ deps -> resolverCache st !! candidate e g dep = None ->
         resolveDependencyReference e (candidate e g dep) (resolvers (configFor cfg g)) = None.

(** [w] is reached from [g] along the references that the tables
    resolve. *)
Inductive reaches (e : Fs.env) (st : state) : string -> string -> Prop :=
| reaches_edge g dep v : edgeVia e st g dep v -> reaches e st g v
| reaches_step g dep v w : edgeVia e st g dep v -> reaches e st v w -> reaches e st g w.

(** The tables have grown from those of [st0] and hold truthy values. *)
Definition grown (st0 st : state) : Prop := extends st0 st /\ truthyTable st.

(** The state [st'] and the set [X] after a call on [f] that began in
    [st]: the new values of the resolution table are in [X]; [f] and the
    members of [X] are saturated; what the table of [st] held for their
    references is in [X]; and every member of [X] is reached from [f]. *)
Definition summary (cfg : gmap string languageConfig) (e : Fs.env)
    (st : state) (f : string) (X : gset string) (st' : state) : Prop :=
  (forall k v, resolverCache st' !! k = Some v -> resolverCache st !! k = Some v \/ v ∈ X)
  /\ (forall g, g = f \/ g ∈ X -> saturated cfg e st' g)
  /\ (forall g deps dep v,
        g = f \/ g ∈ X -> cachedReferences e st' g deps -> dep ∈ deps ->
        resolverCache st !! candidate e g dep = Some v -> v ∈ X)
  /\ (forall v, v ∈ X -> reaches e st' f v).

(** The same for the results [R] that the loop has so far. *)
Definition partialSummary (cfg : gmap string languageConfig) (e : Fs.env)
    (st0 : state) (f : string) (R : gset string) (st : state) : Prop :=
  (forall k v, resolverCache st !! k = Some v -> resolverCache st0 !! k = Some v \/ v ∈ R)
  /\ (forall g, g ∈ R -> saturated cfg e st g)
  /\ (forall g deps dep v,
        g ∈ R -> cachedReferences e st g deps -> dep ∈ deps ->
        resolverCache st0 !! candidate e g dep = Some v -> v ∈ R)
  /\ (forall v, v ∈ R -> reaches e st f v).

(** What the loop has established for a reference of [f] it has gone
    through. *)
Definition settled (cfg : gmap string languageConfig) (e : Fs.env)
    (st0 : state) (f : string) (R : gset string) (st : state) (dep : string) : Prop :=
  (resolverCache st !! candidate e f dep = None ->
   resolveDependencyReference e (candidate e f dep) (resolvers (configFor cfg f)) = None)
  /\ (forall v, resolverCache st0 !! candidate e f dep = Some v -> v ∈ R).

(** The position, counted from the oldest call, of the latest call on
    [g] in a log of calls; 0 when there is none. *)
Fixpoint stamp (log : list string) (g : string) : nat :=
  match log with
  | [] => 0
  | x :: l => if decide (x = g) then S (length l) else stamp l g
  end.

(** The stamp of [g] in the log of calls of a state, and the number of
    calls so far. *)
Definition stampOf (st : state) (g : string) : nat := stamp (callLog st) g.

Definition now (st : state) : nat := length (callLog st).

(** The log of calls of [st'] is the one of [st] with later calls. *)
Definition later (st st' : state) : Prop := exists l, callLog st' = l ++ callLog st.

(** Along every reference that the tables resolve, from a file called
    after [base], the target was called after the file; but for the
    references in [pending] of the files not called since [ref]. *)
Definition ordered (e : Fs.env) (st : state) (base : nat)
    (pending : string -> string -> Prop) (ref : state) : Prop :=
  forall g dep v,
    edgeVia e st g dep v -> base < stampOf st g ->
    stampOf st g < stampOf st v \/ (pending g dep /\ stampOf st g = stampOf ref g).

(** The same during the loop of the call on [f] that began in [st0],
    with the references of [f] still to go. *)
Definition orderedLoop (e : Fs.env) (st0 : state) (f : string) (base : nat)
    (pending : string -> string -> Prop) (rest : list string) (st : state) : Prop :=
  forall g dep v,
    edgeVia e st g dep v -> base < stampOf st g ->
    stampOf st g < stampOf st v
    \/ (pending g dep /\ stampOf st g = stampOf st0 g)
    \/ (g = f /\ dep ∈ rest /\ stampOf st f = S (now st0)).

(** The tables and the log of reads are those of [st1]. *)
Definition sameTables (st1 st : state) : Prop :=
  dependencyCache st = dependencyCache st1
  /\ resolverCache st = resolverCache st1
  /\ readLog st = readLog st1.

(** How many calls ago the latest call on [g] was. *)
Definition rank (st1 : state) (g : string) : nat := now st1 - stampOf st1 g.

(** [a.js] imports [./x] and [t.scss] uses [x]: the two references have
    the candidate [/p/x], for which only the pipeline of [.scss] finds a
    file. *)
Definition sharedEnv : Fs.env :=
  Fs.Env (<["/p/a.js" := file "import './x';" 10]>
            (<["/p/t.scss" := file "@use 'x';" 11]>
               (<["/p/_x.scss" := file "" 12]> ∅))) "/".

(** The calls on [a.js] and on [t.scss]. *)
Definition sharedCall (f : string) : call := Call defaultSearchConfig sharedEnv 5 f.

(** [main.js] imports [./late], which is not there at first. *)
Definition lateEnv (created : bool) : Fs.env :=
  Fs.Env (<["/p/main.js" := file "import './late';" 10]>
            (if created then <["/p/late.js" := file "" 20]> ∅ else ∅)) "/".

Definition lateCall (created : bool) : call :=
  Call defaultSearchConfig (lateEnv created) 5 "/p/main.js".

(** *** Where an error comes from *)

(** The parser raises [err] on the inputs: a parser function raises it on
    one of them, having returned on those before; what is not a parser
    raises a [TypeError] on the first input. A pattern raises nothing. *)
Definition parserRaises (p : Custom.parser) (inputs : list string) (err : Fs.exn) : Prop :=
  match p with
  | Custom.ParserFn f =>
      exists before input after,
        inputs = before ++ input :: after
        /\ (forall i, i ∈ before -> exists m, f i = Returns m)
        /\ f input = Throws err
  | Custom.ParserRe _ _ => False
  | Custom.ParserOther => inputs <> [] /\ err = Fs.TypeError
  end.

(** A parser of the pipeline raises [err]: the parsers before it have
    passed their results on. *)
Definition extractionRaises (ps : list Custom.parser) (content : string) (err : Fs.exn)
    : Prop :=
  exists before p after inputs,
    ps = before ++ p :: after
    /\ Custom.extract before content = Returns inputs
    /\ parserRaises p inputs err.

(** A resolver step raises [err] on the candidate [k]: no regular file is
    at [k], and the steps before it have returned paths at which there is
    none either. *)
Definition resolverRaises (e : Fs.env) (rs : list (string -> outcome string)) (k : string)
    (err : Fs.exn) : Prop :=
  ~ regularFileAt e k
  /\ exists before step after,
       rs = before ++ step :: after
       /\ (forall s, s ∈ before -> exists p, s k = Returns p /\ ~ regularFileAt e p)
       /\ step k = Throws err.

(** The loop of lines 127-146 in a call on [f] gets through the
    references [before] and arrives at the next one with the results [R]
    in state [st1]. *)
Definition arrives (cfg : gmap string Custom.languageConfig) (e : Fs.env) (depth : nat)
    (f : string) (before : list string) (st : state) (R : gset string) (st1 : state)
    : Prop :=
  Custom.forEachDependency (Custom.getDependencies cfg e depth) e (Path.dirname f)
    (Custom.resolvers (Custom.configFor cfg f)) before ∅ st = (Returns R, st1).

(** The origins of an error [err] of the call on [f] with room for
    [S depth] calls on the stack: [fs.statSync] on [f]; [fs.readFileSync]
    on [f], when the extraction table has no entry for it; a parser, in
    the same case; and, at a reference [dep] of [f] that the loop arrives
    at, a resolver step, when the resolution table has no truthy entry
    for the candidate, or the nested call on the file that [dep] stands
    for. *)
Inductive raises (cfg : gmap string Custom.languageConfig) (e : Fs.env) (depth : nat)
    (f : string) (st : state) (err : Fs.exn) : Prop :=
| raises_stat :
    Fs.statSync e f = inl err -> raises cfg e depth f st err
| raises_read s :
    Fs.statSync e f = inr s ->
    dependencyCache st !! cacheKey f s = None ->
    Fs.readFileSync e f = inl err ->
    raises cfg e depth f st err
| raises_parser s content :
    Fs.statSync e f = inr s ->
    dependencyCache st !! cacheKey f s = None ->
    Fs.readFileSync e f = inr content ->
    extractionRaises (Custom.parsers (Custom.configFor cfg f)) content err ->
    raises cfg e depth f st err
| raises_resolver deps st0 before dep after R st1 :
    Custom.references e (Custom.parsers (Custom.configFor cfg f)) f (logCall f st)
    = (Returns deps, st0) ->
    deps = before ++ dep :: after ->
    arrives cfg e depth f before st0 R st1 ->
    (forall w, resolverCache st1 !! candidate e f dep = Some w -> truthy w = false) ->
    resolverRaises e (Custom.resolvers (Custom.configFor cfg f)) (candidate e f dep) err ->
    raises cfg e depth f st err
| raises_nested deps st0 before dep after R st1 g st2 :
    Custom.references e (Custom.parsers (Custom.configFor cfg f)) f (logCall f st)
    = (Returns deps, st0) ->
    deps = before ++ dep :: after ->
    arrives cfg e depth f before st0 R st1 ->
    Custom.dependencyOf e (Custom.resolvers (Custom.configFor cfg f)) (candidate e f dep) st1
    = (Returns (Some g), st2) ->
    fst (Custom.getDependencies cfg e depth g st2) = Throws err ->
    raises cfg e depth f st err.

(** A parser function that raises an error on a content with a pragma,
    and a resolver step that raises one on every candidate. *)
Definition strictConfig : gmap string Custom.languageConfig :=
  <[".js" := Custom.LanguageConfig
               [Custom.ParserFn (fun input =>
                   if bool_decide (input = "#!") then Throws (Fs.Thrown "pragma")
                   else Returns (Some input))]
               [fun _ => Throws (Fs.Thrown "resolver")]]> ∅.

(** [a.js] names [b.js]; [b.js] holds the pragma; [c.js] names a file
    that is not there. *)
Definition strictEnv : Fs.env :=
  Fs.Env (<["/p/a.js" := file "b.js" 10]>
            (<["/p/b.js" := file "#!" 11]>
               (<["/p/c.js" := file "d.js" 12]> ∅))) "/".

(** ** Definitions used by the further properties *)

(** The extraction table got [deps] under [key] in one of the calls: the
    key is made of a file and its modification time in the file system of
    that call, and [deps] is what the parsers of the call's configuration
    extract from the content the file had there. *)
Definition extractedIn (history : list call) (key : string) (deps : list string) : Prop :=
  exists c f s content,
    c ∈ history
    /\ Fs.statSync (c_env c) f = inr s /\ key = cacheKey f s
    /\ Fs.readFileSync (c_env c) f = inr content
    /\ extract (parsers (configFor (c_config c) f)) content = Some deps.

(** A parser whose loop ends on every input: a function, or a pattern
    every match of which takes a character at least. *)
Definition productive (p : parser) : Prop :=
  match p with
  | ParserFn _ => True
  | ParserRe r => 1 <= minlen r
  end.

(** Every parser of the configuration is productive. *)
Definition productiveConfig (cfg : gmap string languageConfig) : Prop :=
  forall ext lc, cfg !! ext = Some lc -> Forall productive (parsers lc).

(** How often [fs.readFileSync] was called on [f]. *)
Definition reads (f : string) (st : state) : nat :=
  length (filter (fun x => x = f) (readLog st)).

(** The extraction table has the references of [f] under its present
    modification time. *)
Definition cachedNow (e : Fs.env) (st : state) (f : string) : Prop :=
  exists s, Fs.statSync e f = inr s /\ is_Some (dependencyCache st !! cacheKey f s).

(** A readable file was read once at most, and if it was read the
    extraction table has its references. *)
Definition readOnce (e : Fs.env) (st : state) : Prop :=
  forall f content, Fs.readFileSync e f = inr content ->
    reads f st <= 1 /\ (reads f st = 1 -> cachedNow e st f).

(** *** Loops that end *)

(** A parser with which the loops of [findDependencyReferences] end on
    every input: a function that returns or raises an error on every
    input; a pattern with the [g] flag every match of which takes a
    character at least; what is not a parser, which raises an error. *)
Definition ends (p : Custom.parser) : Prop :=
  match p with
  | Custom.ParserFn f => forall input, f input <> Diverges
  | Custom.ParserRe global r => global = true /\ 1 <= minlen r
  | Custom.ParserOther => True
  end.

(** Such are all parsers of the configuration, and its resolver steps
    return or raise an error on every candidate. *)
Definition endingConfig (cfg : gmap string Custom.languageConfig) : Prop :=
  forall ext lc,
    cfg !! ext = Some lc ->
    Forall ends (Custom.parsers lc)
    /\ Forall (fun step : string -> outcome string => forall input, step input <> Diverges)
         (Custom.resolvers lc).

(** A quoted literal: a non-empty [body] without the quote character
    between two copies of it; when [dotted], the body is a dot and one
    character more at least. *)
Definition quotedLiteral (dotted : bool) (l : list ascii) : Prop :=
  exists double body,
    l = quoteChar double :: body ++ [quoteChar double]
    /\ body <> []
    /\ Forall (fun c => c <> quoteChar double) body
    /\ (dotted = true -> exists rest, body = "."%char :: rest /\ rest <> []).

(** The text without its first and its last character. *)
Definition unquote (s : string) : string :=
  string_of_list_ascii (removelast (tl (list_ascii_of_string s))).

(** A reference that starts with a dot and has one more character. *)
Definition relativeReference (s : string) : Prop :=
  exists t, s = "." +:+ t /\ t <> "".

(** Every match of [r] takes a run of characters that satisfies [P], and
    leaves the captures as they are. *)
Definition takes (P : list ascii -> Prop) (r : regex) : Prop :=
  forall k rest i cs res,
    matcher r k rest i cs = Some res ->
    exists n, n <= length rest /\ P (take n rest)
              /\ k (drop n rest) (i + n) cs = Some res.

(** Every capturing group of the pattern captures a run that satisfies
    [P]. *)
Fixpoint capturesOnly (P : list ascii -> Prop) (r : regex) : Prop :=
  match r with
  | Grp _ r1 => takes P r1
  | Seq r1 r2 | Alt r1 r2 => capturesOnly P r1 /\ capturesOnly P r2
  | Opt r1 => capturesOnly P r1
  | _ => True
  end.

Definition capsAll (P : list ascii -> Prop) (cs : caps) : Prop :=
  forall n l, cs !! n = Some l -> P l.

(** The input begins with the characters [s]. *)
Fixpoint startsWith (s rest : list ascii) : bool :=
  match s, rest with
  | [], _ => true
  | c :: s', c' :: rest' => Ascii.eqb c c' && startsWith s' rest'
  | _ :: _, [] => false
  end.

Definition startsWithKeyword (rest : list ascii) : bool :=
  startsWith (list_ascii_of_string "import") rest
  || startsWith (list_ascii_of_string "export") rest.

Definition isLineBreak (c : ascii) : bool := Ascii.eqb c cr || Ascii.eqb c lf.

(** Some line of the text begins with [import] or [export]; [atStart]
    tells whether the text itself begins a line. *)
Fixpoint keywordAtLineStart (atStart : bool) (rest : list ascii) : bool :=
  (atStart && startsWithKeyword rest)
  || match rest with
     | [] => false
     | c :: rest' => keywordAtLineStart (isLineBreak c) rest'
     end.

(** A [@use] or [@forward] rule up to its literal: the keyword, white
    space, and the quoted name of the module. *)
Record useRule := UseRule {
  forwarded : bool;
  blank : string;
  doubleQuoted : bool;
  moduleName : string
}.

Definition ruleLiteral (r : useRule) : string :=
  String (quoteChar (doubleQuoted r))
    (moduleName r +:+ String (quoteChar (doubleQuoted r)) "").

Definition ruleText (r : useRule) : string :=
  "@" +:+ (if forwarded r then "forward" else "use") +:+ blank r +:+ ruleLiteral r.

(** White space, one character at least, after the keyword; a name that
    is not empty and does not hold the quote character around it. *)
Definition wellFormedRule (r : useRule) : Prop :=
  blank r <> ""
  /\ Forall (fun c => is_space c = true) (list_ascii_of_string (blank r))
  /\ moduleName r <> ""
  /\ Forall (fun c => c <> quoteChar (doubleQuoted r)) (list_ascii_of_string (moduleName r)).

(** The text has no at sign. *)
Definition atFree (s : string) : Prop :=
  Forall (fun c => c <> "@"%char) (list_ascii_of_string s).

(** A run of rules, each with the text before it. *)
Fixpoint rulesText (block : list (string * useRule)) : string :=
  match block with
  | [] => ""
  | (gap, r) :: rest => gap +:+ ruleText r +:+ rulesText rest
  end.

(** Each rule of the run is well formed and starts a line, and the text
    before it has no at sign. *)
Fixpoint wellFormedRules (first : bool) (block : list (string * useRule)) : Prop :=
  match block with
  | [] => True
  | (gap, r) :: rest =>
      atFree gap /\ startsLine first gap /\ wellFormedRule r /\ wellFormedRules false rest
  end.

(** The characters of a rule. *)
Definition ruleChars (fwd : bool) (sp : list ascii) (double : bool) (body : list ascii)
    : list ascii :=
  "@"%char :: list_ascii_of_string (if fwd then "forward" else "use")
    ++ sp ++ quoteChar double :: body ++ [quoteChar double].

(** [@use] or [@forward] at the start of a line, white space, and the
    literal: the first alternative of the pattern. *)
Definition usePattern : regex :=
  ((Bol ∣ Class false [CChar cr; CChar lf])
   ⋅ Chr "@" ⋅ (lit "use" ∣ lit "forward")
   ⋅ Rep true 1 false [CSpace]
   ⋅ Grp 1 (quoted (fun q => Rep true 1 true [CChar q])))%re.

(** A segment that normalisation keeps: it is not empty, neither [.] nor
    [..], and has no separator. *)
Definition plain (seg : list ascii) : Prop :=
  seg <> [] /\ seg <> [Path.dot] /\ seg <> Path.dotdot
  /\ Forall (fun c => c <> Path.slash) seg.

(** The index file of the directory [k]. *)
Definition indexPath (k : string) : string :=
  if bool_decide (k = "/") then "/_index.scss" else k +:+ "/_index.scss".

(** Next to [theme.scss] is the directory [lib] with its index file. *)
Definition indexEnv : Fs.env :=
  Fs.Env (<["/p/theme.scss" := file "@use 'lib';" 10]>
            (<["/p/lib" := Fs.Directory 11]>
               (<["/p/lib/_index.scss" := file "" 12]> ∅))) "/".

(** The log of reads of [st'] is the one of [st] with later reads. *)
Definition readsAfter (st st' : state) : Prop :=
  exists l, readLog st' = l ++ readLog st.

(** The call on [b.js] before and after its edit. *)
Definition touchedCall (edited : bool) : call :=
  Call defaultSearchConfig (editedEnv edited) 5 "/p/b.js".

(** The file system alone makes [v] a dependency of [g]: a reference
    that the parsers extract from the content of [g] stands, by the
    resolvers of [g], for the file [v]. *)
Definition fsEdge (cfg : gmap string languageConfig) (e : Fs.env) (g v : string) : Prop :=
  exists deps dep,
    referencesOf cfg e g initial = Some deps /\ dep ∈ deps
    /\ resolveDependencyReference e (candidate e g dep) (resolvers (configFor cfg g)) = Some v.

(** [w] is a dependency of [g], or of one of its dependencies, and so
    on. *)
Inductive fsReaches (cfg : gmap string languageConfig) (e : Fs.env)
    : string -> string -> Prop :=
| fsReaches_edge g v : fsEdge cfg e g v -> fsReaches cfg e g v
| fsReaches_step g v w : fsEdge cfg e g v -> fsReaches cfg e v w -> fsReaches cfg e g w.

(** The resolver answered [v] for the candidate [k] of a reference of one
    of the files [G]. *)
Definition resolvedFor (cfg : gmap string languageConfig) (e : Fs.env)
    (G : string -> Prop) (k v : string) : Prop :=
  exists g dep,
    G g /\ k = candidate e g dep
    /\ resolveDependencyReference e k (resolvers (configFor cfg g)) = Some v.

(** The tables agree with the file system: what the extraction table
    holds for a file at its present modification time is what the parsers
    extract from its content, and what the resolution table holds for a
    candidate is the answer of the resolvers [rs]. *)
Definition agreesWith (cfg : gmap string languageConfig) (e : Fs.env)
    (rs : list (string -> string)) (st : state) : Prop :=
  (forall g s deps,
      Fs.statSync e g = inr s -> dependencyCache st !! cacheKey g s = Some deps ->
      referencesOf cfg e g initial = Some deps)
  /\ (forall k v, resolverCache st !! k = Some v ->
        truthy v = true /\ resolveDependencyReference e k rs = Some v).

(** The root [f] and its transitive dependencies in the file system. *)
Definition under (cfg : gmap string languageConfig) (e : Fs.env) (f g : string) : Prop :=
  g = f \/ fsReaches cfg e f g.

(** The files under [f] are of one language, can be read and parsed, and
    form no cycle: along every dependency [rank] goes down. *)
Definition acyclicProject (cfg : gmap string languageConfig) (e : Fs.env)
    (rs : list (string -> string)) (rank : string -> nat) (f : string) : Prop :=
  forall g, under cfg e f g ->
    resolvers (configFor cfg g) = rs
    /\ is_Some (referencesOf cfg e g initial)
    /\ forall v, fsEdge cfg e g v -> rank v < rank g.

(** The longest chain of dependencies below a file of [pairEnv]. *)
Definition pairRank (g : string) : nat := if decide (g = "/p/a.js") then 1 else 0.

(** ** The build script [index.js]

    The filter of the compile tasks, [checkDependencies], with what it
    uses. Times are in milliseconds. The filter does not look at the
    number [stats.mtimeMs] that [getDependencies] puts into the keys of
    the extraction table: it looks at [stats.mtime.getTime()], the
    modification time as a [Date], which is a whole number of
    milliseconds. The functions below take it as [getTime], a function of
    the result of [fs.statSync] that the development leaves open. *)

(** [sinceLastTask( task ).since], that is [lastRun( task ) ||
    sinceWatching]: [lastRun] is the time of the last run of the task,
    [None] for the [undefined] before the first run; [sinceWatching] is
    the variable of the module, 0 until a watcher starts. *)
Definition sinceLastTask (lastRun : option N) (sinceWatching : N) : N :=
  match lastRun with
  | Some t => if (t =? 0)%N then sinceWatching else t
  | None => sinceWatching
  end.

(** The fields of a file of the stream that the filter reads. *)
Record vinyl := Vinyl {
  v_path : string;
  v_base : string
}.

(** [s.substr( start )]. *)
Definition substr (start : nat) (s : string) : string :=
  string_of_list_ascii (drop start (list_ascii_of_string s)).

(** The line that [console.info] prints for the changed file [p]. *)
Definition changeMessage (file : vinyl) (p : string) : string :=
  "Change detected to " +:+ substr (String.length (v_base file)) p.

(** Lines 83-90: the loop over the dependencies. The loop of the source
    goes through the [Set] in the order of insertion, which a [gset] does
    not keep: the caller passes the members in the order of [elements],
    and [console] holds the lines printed without their order. When
    [fs.statSync] fails for more than one member, the error of the source
    is that of the first in the order of insertion. *)
Fixpoint checkEach (getTime : Fs.stats -> N) (since : N) (e : Fs.env) (file : vinyl)
    (dependencies : list string) (hasChanges : bool) (console : gmultiset string)
    : outcome bool * gmultiset string :=
  match dependencies with
  | [] => (Returns hasChanges, console)
  | dep :: rest =>
      match Fs.statSync e dep with
      | inl err => (Throws err, console)
      | inr stats =>
          if (since <? getTime stats)%N
          then checkEach getTime since e file rest true
                 ({[+ changeMessage file dep +]} ⊎ console)
          else checkEach getTime since e file rest hasChanges console
      end
  end.

(** Lines 66-93: the function that [checkDependencies] hands to the
    filter; the file is kept when the answer is [true]. [getDependencies]
    is the function that the factory makes without an argument. *)
Definition dependenciesChanged (getTime : Fs.stats -> N) (since : N) (e : Fs.env)
    (depth : nat) (file : vinyl) (st : state) (console : gmultiset string)
    : outcome bool * state * gmultiset string :=
  if (since =? 0)%N then (Returns true, st, console)
  else
    match Fs.statSync e (v_path file) with
    | inl err => (Throws err, st, console)
    | inr stats =>
        if (since <? getTime stats)%N
        then (Returns true, st, {[+ changeMessage file (v_path file) +]} ⊎ console)
        else
          match module_exports None e depth (v_path file) st with
          | (Returns dependencies, st1) =>
              let '(o, console1) :=
                checkEach getTime since e file (elements dependencies) false console in
              (o, st1, console1)
          | (Throws err, st1) => (Throws err, st1, console)
          | (Diverges, st1) => (Diverges, st1, console)
          end
    end.

(** [checkDependencies( task )]. *)
Definition checkDependencies (getTime : Fs.stats -> N) (lastRun : option N)
    (sinceWatching : N)
    : Fs.env -> nat -> vinyl -> state -> gmultiset string
      -> outcome bool * state * gmultiset string :=
  dependenciesChanged getTime (sinceLastTask lastRun sinceWatching).

(** The [Date] of the last modification of the file at [p] is later than
    [since]. *)
Definition modifiedSince (getTime : Fs.stats -> N) (e : Fs.env) (since : N) (p : string)
    : Prop :=
  exists stats, Fs.statSync e p = inr stats /\ (since < getTime stats)%N.

(** On a file system that keeps whole milliseconds, the [Date] is the
    number of the key. *)
Definition wholeMilliseconds : Fs.stats -> N := Fs.mtimeMs.

(** ** The script [dependency-test.js] *)

(** What the script prints: the set, with [console.log], or the request
    for an argument, with [console.warn]. *)
Inductive printed :=
| Log (dependencies : gset string)
| Warn (message : string).

(** The script, run in a new process, where the tables of the module are
    empty; [argv2] is [process.argv[2]]. *)
Definition dependency_test (argv2 : option string) (e : Fs.env) (depth : nat)
    : outcome printed :=
  match argv2 with
  | Some file =>
      if truthy file then
        match fst (module_exports None e depth (Path.resolve (Fs.cwd e) [file]) initial) with
        | Returns dependencies => Returns (Log dependencies)
        | Throws err => Throws err
        | Diverges => Diverges
        end
      else Returns (Warn "Please specify a file to scan")
  | None => Returns (Warn "Please specify a file to scan")
  end.

(** ** The configuration helpers of [index.js] *)

(** The object that [getGlobs] makes. *)
Record styleGlobs := StyleGlobs {
  styles_input : list string;
  styles_watch : list string;
  styles_output : string
}.

Record scriptGlobs := ScriptGlobs {
  scripts_input : list string;
  scripts_lint : list string;
  scripts_watch : list string;
  scripts_output : string
}.

Record globs := Globs {
  styles : styleGlobs;
  scripts : scriptGlobs
}.

(** The values of a configuration object: [undefined], [null], the
    booleans, strings, the object of [getGlobs], and any other value (a
    number, an array, another object), of which the model keeps what the
    helpers look at: whether it is truthy, and the string that a template
    literal makes of it. *)
Inductive value :=
| VUndefined
| VNull
| VBool (b : bool)
| VStr (s : string)
| VGlobs (g : globs)
| VOther (isTruthy : bool) (asString : string).

(** JavaScript truthiness. *)
Definition truthyValue (v : value) : bool :=
  match v with
  | VUndefined | VNull => false
  | VBool b => b
  | VStr s => truthy s
  | VGlobs _ => true
  | VOther isTruthy _ => isTruthy
  end.

(** The conversion to a string of a template literal. *)
Definition toString (v : value) : string :=
  match v with
  | VUndefined => "undefined"
  | VNull => "null"
  | VBool b => if b then "true" else "false"
  | VStr s => s
  | VGlobs _ => "[object Object]"
  | VOther _ s => s
  end.

(** [getGlobs( subdirs = '' )] (lines 100-145). *)
Definition getGlobs (subdirs : value) : globs :=
  let subdirs := match subdirs with VUndefined => VStr "" | _ => subdirs end in
  let prefix := if truthyValue subdirs then "./" +:+ toString subdirs else "." in
  {| styles := {|
       styles_input := [prefix +:+ "/**/css/*.scss";
                        prefix +:+ "/**/scss/*.scss";
                        "!./**/_*.scss"];
       styles_watch := [prefix +:+ "/**/*.scss"];
       styles_output := "./" |};
     scripts := {|
       scripts_input := [prefix +:+ "/**/js/*.js";
                         prefix +:+ "/**/js/{src,lib}/*.js";
                         "!" +:+ prefix +:+ "/**/*.min.js";
                         "!" +:+ prefix +:+ "/**/node_modules/**/*.js"];
       scripts_lint := [prefix +:+ "/**/*.js";
                        "!" +:+ prefix +:+ "/**/*.min.js";
                        "!" +:+ prefix +:+ "/**/{vendor,node_modules}/**/*.js"];
       scripts_watch := [prefix +:+ "/**/*.json";
                         prefix +:+ "/**/*.js";
                         "!" +:+ prefix +:+ "/**/*.min.js";
                         "!" +:+ prefix +:+ "/**/{vendor,node_modules}/**/*.js"];
       scripts_output := "./" |} |}.

(** The value of a property of an object, [undefined] when the object
    does not have it. *)
Definition prop (o : gmap string value) (key : string) : value :=
  default VUndefined (o !! key).

(** [parseDefaults( config, defaults )] (lines 147-155): the properties
    of [config] over those of [defaults], and the globs of [getGlobs] for
    [paths] when that is not truthy. *)
Definition parseDefaults (config defaults : gmap string value) : gmap string value :=
  let parsedConfig := config ∪ defaults in
  if truthyValue (prop parsedConfig "paths") then parsedConfig
  else <["paths" := VGlobs (getGlobs (prop parsedConfig "subdirs"))]> parsedConfig.

(** ** Basic facts *)

Lemma getDependencies_S cfg e depth filename st :
  getDependencies cfg e (S depth) filename st =
  match references e (parsers (configFor cfg filename)) filename (logCall filename st) with
  | (Returns dependencies, st1) =>
      forEachDependency (getDependencies cfg e depth) e (Path.dirname filename)
        (resolvers (configFor cfg filename)) dependencies ∅ st1
  | (Throws err, st1) => (Throws err, st1)
  | (Diverges, st1) => (Diverges, st1)
  end.
Proof. reflexivity. Qed.

Lemma references_Returns cfg e f st deps :
  fst (references e (parsers (configFor cfg f)) f st) = Returns deps
  <-> referencesOf cfg e f st = Some deps.
Proof.
  unfold references, referencesOf.
  destruct (Fs.statSync e f) as [err|s]; simpl; [done|].
  destruct (dependencyCache st !! cacheKey f s); simpl; [split; congruence|].
  destruct (Fs.readFileSync e f) as [err|content]; simpl; [done|].
  destruct (extract _ content); simpl; split; congruence.
Qed.

Lemma isRegularFile_lookup e p :
  isRegularFile e p = true <-> exists content m r, Fs.lookup e p = Some (Fs.File content m r).
Proof.
  unfold isRegularFile, Fs.existsSync, Fs.statSync.
  destruct (Fs.lookup e p) as [[c m r|m]|]; simpl; split; intros H;
    try discriminate; eauto; destruct H as (? & ? & ? & ?); discriminate.
Qed.

Lemma isRegularFile_nonempty e p : isRegularFile e p = true -> p <> "".
Proof.
  intros H%isRegularFile_lookup. destruct H as (c & m & r & H).
  unfold Fs.lookup in H. case_bool_decide; congruence.
Qed.

Lemma isRegularFile_truthy e p : isRegularFile e p = true -> truthy p = true.
Proof.
  intros H%isRegularFile_nonempty. unfold truthy. by rewrite bool_decide_eq_false_2.
Qed.

Lemma tryResolvers_find e input rs :
  tryResolvers e input rs = find (isRegularFile e) (map (fun r => r input) rs).
Proof.
  induction rs as [|r rs IH]; simpl; [done|].
  destruct (isRegularFile e (r input)); [done|apply IH].
Qed.

Lemma resolveDependencyReference_regular e input rs p :
  resolveDependencyReference e input rs = Some p -> isRegularFile e p = true.
Proof.
  unfold resolveDependencyReference.
  destruct (isRegularFile e input) eqn:Hin.
  - intros [= <-]. done.
  - rewrite tryResolvers_find. intros H. by apply find_some in H as [_ H].
Qed.

Lemma resolveDependencyReference_truthy e input rs p :
  resolveDependencyReference e input rs = Some p -> truthy p = true.
Proof. intros H. eapply isRegularFile_truthy, resolveDependencyReference_regular, H. Qed.

(** ** C4: the resolver *)

Lemma regularFile_spec e p : regularFile e p = true <-> regularFileAt e p.
Proof.
  unfold regularFile, regularFileAt.
  destruct (Fs.lookup e p) as [[c m r|m]|]; split; intros H;
    try discriminate; eauto; destruct H as (? & ? & ? & ?); discriminate.
Qed.

Lemma isRegularFile_regularFile e p : isRegularFile e p = regularFile e p.
Proof.
  unfold isRegularFile, regularFile, Fs.existsSync, Fs.statSync.
  by destruct (Fs.lookup e p) as [[c m r|m]|].
Qed.

Lemma regularFile_false e p : regularFile e p = false <-> ~ regularFileAt e p.
Proof.
  rewrite <- regularFile_spec. destruct (regularFile e p); split; done.
Qed.

Lemma tryResolvers_first e input before step after :
  (forall s, s ∈ before -> ~ regularFileAt e (s input)) ->
  regularFileAt e (step input) ->
  tryResolvers e input (before ++ step :: after) = Some (step input).
Proof.
  intros Hbefore Hstep. induction before as [|s before IH]; simpl.
  - apply regularFile_spec in Hstep. by rewrite isRegularFile_regularFile, Hstep.
  - assert (Hs : ~ regularFileAt e (s input)) by (apply Hbefore; left).
    apply regularFile_false in Hs. rewrite isRegularFile_regularFile, Hs.
    apply IH. intros s' Hs'. apply Hbefore. by right.
Qed.

Lemma tryResolvers_Some e input rs p :
  tryResolvers e input rs = Some p ->
  exists before step after,
    rs = before ++ step :: after /\ p = step input
    /\ (forall s, s ∈ before -> ~ regularFileAt e (s input))
    /\ regularFileAt e (step input).
Proof.
  induction rs as [|s rs IH]; simpl; [done|].
  rewrite isRegularFile_regularFile.
  destruct (regularFile e (s input)) eqn:Hs.
  - intros [= <-]. exists [], s, rs. split; [done|]. split; [done|].
    split; [by intros ? ?%elem_of_nil|by apply regularFile_spec].
  - intros (before & step & after & -> & -> & Hb & Hst)%IH.
    exists (s :: before), step, after. split; [done|]. split; [done|]. split; [|done].
    intros s' [->|Hs']%elem_of_cons; [by apply regularFile_false|by apply Hb].
Qed.

Lemma tryResolvers_None e input rs :
  tryResolvers e input rs = None <->
  forall step, step ∈ rs -> ~ regularFileAt e (step input).
Proof.
  induction rs as [|s rs IH]; simpl.
  - split; [by intros _ ? ?%elem_of_nil|done].
  - rewrite isRegularFile_regularFile.
    destruct (regularFile e (s input)) eqn:Hs.
    + split; [done|]. intros H. exfalso. apply (H s); [left|by apply regularFile_spec].
    + rewrite IH. split.
      * intros H step [->|Hin]%elem_of_cons; [by apply regularFile_false|by apply H].
      * intros H step Hin. apply H. by right.
Qed.

(** C4. [resolveDependencyReference] refines the resolver of the
    specification. When the file system has a regular file at the
    candidate, the answer is the candidate itself. Otherwise it is the
    result of the first resolver step, in pipeline order and each step
    applied to the original candidate, at whose result the file system has
    a regular file. Whatever is answered is the candidate or such a result,
    and a regular file is there; the path of a directory is never the
    answer; and the answer is absent exactly when the file system has a
    regular file neither at the candidate nor at the result of any step. *)
Theorem resolveDependencyReference_spec e input rs :
  resolveDependencyReference e input rs = resolveSpec e input rs
  /\ (regularFileAt e input -> resolveDependencyReference e input rs = Some input)
  /\ (forall before step after,
      rs = before ++ step :: after ->
      ~ regularFileAt e input ->
      (forall s, s ∈ before -> ~ regularFileAt e (s input)) ->
      regularFileAt e (step input) ->
      resolveDependencyReference e input rs = Some (step input))
  /\ (forall p, resolveDependencyReference e input rs = Some p ->
      regularFileAt e p
      /\ (p = input
          \/ ~ regularFileAt e input
             /\ exists before step after,
                 rs = before ++ step :: after /\ p = step input
                 /\ forall s, s ∈ before -> ~ regularFileAt e (s input)))
  /\ (forall p m, Fs.lookup e p = Some (Fs.Directory m) ->
      resolveDependencyReference e input rs <> Some p)
  /\ (resolveDependencyReference e input rs = None <->
      ~ regularFileAt e input
      /\ forall step, step ∈ rs -> ~ regularFileAt e (step input)).
Proof.
  assert (Hcases : forall p, resolveDependencyReference e input rs = Some p ->
      regularFileAt e p
      /\ (p = input
          \/ ~ regularFileAt e input
             /\ exists before step after,
                 rs = before ++ step :: after /\ p = step input
                 /\ forall s, s ∈ before -> ~ regularFileAt e (s input))).
  { intros p. unfold resolveDependencyReference. rewrite isRegularFile_regularFile.
    destruct (regularFile e input) eqn:Hin.
    - intros [= <-]. split; [by apply regularFile_spec|by left].
    - intros (before & step & after & -> & -> & Hb & Hst)%tryResolvers_Some.
      split; [done|]. right. split; [by apply regularFile_false|]. by exists before, step, after. }
  split; [|split; [|split; [|split; [exact Hcases|split]]]].
  - unfold resolveDependencyReference, resolveSpec. simpl.
    rewrite isRegularFile_regularFile. destruct (regularFile e input); [done|].
    clear Hcases. induction rs as [|s rs IH]; simpl; [done|].
    rewrite isRegularFile_regularFile. by destruct (regularFile e (s input)).
  - intros H%regularFile_spec. unfold resolveDependencyReference.
    by rewrite isRegularFile_regularFile, H.
  - intros before step after -> Hin%regularFile_false Hb Hst.
    unfold resolveDependencyReference. rewrite isRegularFile_regularFile, Hin.
    by apply tryResolvers_first.
  - intros p m Hdir Hres. apply Hcases in Hres as [(c & m' & r & Hfile) _]. congruence.
  - unfold resolveDependencyReference. rewrite isRegularFile_regularFile.
    destruct (regularFile e input) eqn:Hin.
    + split; [done|]. intros [H _]. apply regularFile_false in H. congruence.
    + rewrite tryResolvers_None. split; [|by intros [_ H]].
      intros H. split; [by apply regularFile_false|done].
Qed.

(** ** Invariants of a walk

    A property [I] of the state that the four updates of the tables and
    logs keep is kept by a whole call, whatever its outcome; and a
    property [Q] of paths that holds of the values found in the resolution
    table and of the fresh answers of the resolver holds of every member of
    the returned set. *)
Section Invariant.
Context (cfg : gmap string languageConfig) (e : Fs.env).
Context (I : state -> Prop) (Q : string -> Prop).

Hypothesis I_call : forall f st, I st -> I (logCall f st).
Hypothesis I_read : forall f st, I st -> I (logRead f st).
Hypothesis I_extract : forall f s content deps st,
  I st ->
  Fs.statSync e f = inr s ->
  dependencyCache st !! cacheKey f s = None ->
  Fs.readFileSync e f = inr content ->
  extract (parsers (configFor cfg f)) content = Some deps ->
  I (setDependencies (cacheKey f s) deps (logRead f st)).
Hypothesis I_miss : forall k st, I st -> I (logResolve k st).
Hypothesis I_resolved : forall f dep v st,
  I st ->
  (forall w, resolverCache st !! candidate e f dep = Some w -> truthy w = false) ->
  resolveDependencyReference e (candidate e f dep) (resolvers (configFor cfg f)) = Some v ->
  I (setResolved (candidate e f dep) v (logResolve (candidate e f dep) st)) /\ Q v.
Hypothesis Q_hit : forall k v st,
  I st -> resolverCache st !! k = Some v -> truthy v = true -> Q v.

Lemma references_inv f st :
  I st -> I (snd (references e (parsers (configFor cfg f)) f st)).
Proof using I_read I_extract.
  intros HI. unfold references.
  destruct (Fs.statSync e f) as [err|s] eqn:Hstat; [done|].
  destruct (dependencyCache st !! cacheKey f s) eqn:Hdc; [done|].
  destruct (Fs.readFileSync e f) as [err|content] eqn:Hread; simpl; [by apply I_read|].
  destruct (extract _ content) eqn:Hex; simpl; [|by apply I_read].
  eapply I_extract; eauto.
Qed.

Lemma dependencyOf_inv f dep st :
  I st ->
  let r := dependencyOf e (resolvers (configFor cfg f)) (candidate e f dep) st in
  I (snd r) /\ forall v, fst r = Some v -> Q v.
Proof using I_miss I_resolved Q_hit.
  intros HI. unfold dependencyOf.
  destruct (resolverCache st !! candidate e f dep) as [d|] eqn:Hrc.
  - destruct (truthy d) eqn:Ht; simpl.
    + split; [done|]. intros v [= <-]. eauto.
    + destruct (resolveDependencyReference _ _ _) as [v|] eqn:Hres; simpl.
      * rewrite (resolveDependencyReference_truthy _ _ _ _ Hres). simpl.
        destruct (I_resolved f dep v st HI) as [H1 H2]; [congruence|done|].
        split; [done|]. by intros ? [= <-].
      * split; [by apply I_miss|done].
  - destruct (resolveDependencyReference _ _ _) as [v|] eqn:Hres; simpl.
    + rewrite (resolveDependencyReference_truthy _ _ _ _ Hres). simpl.
      destruct (I_resolved f dep v st HI) as [H1 H2]; [congruence|done|].
      split; [done|]. by intros ? [= <-].
    + split; [by apply I_miss|done].
Qed.

Lemma forEachDependency_inv recur f deps :
  (forall g st, I st ->
      I (snd (recur g st)) /\
      forall X, fst (recur g st) = Returns X -> forall p, p ∈ X -> Q p) ->
  forall results st,
    I st -> (forall p, p ∈ results -> Q p) ->
    let r := forEachDependency recur e (Path.dirname f) (resolvers (configFor cfg f))
               deps results st in
    I (snd r) /\ forall X, fst r = Returns X -> forall p, p ∈ X -> Q p.
Proof using I_miss I_resolved Q_hit.
  intros Hrec. induction deps as [|dep deps IH]; intros results st HI HQ; simpl.
  - split; [done|]. intros X [= <-]. done.
  - destruct (dependencyOf_inv f dep st HI) as [HI1 HQ1].
    fold (candidate e f dep).
    destruct (dependencyOf e _ (candidate e f dep) st) as [[v|] st1]; simpl in *.
    + destruct (Hrec v st1 HI1) as [HI2 HQ2].
      destruct (recur v st1) as [[X| |] st2]; simpl in *; try (split; [done|done]).
      apply IH; [done|].
      intros p Hp. apply elem_of_union in Hp as [Hp|Hp]; [|by eapply HQ2].
      apply elem_of_union in Hp as [Hp|Hp]; [by apply HQ|].
      apply elem_of_singleton in Hp as ->. by apply HQ1.
    + by apply IH.
Qed.

Lemma getDependencies_inv depth : forall f st,
  I st ->
  I (snd (getDependencies cfg e depth f st))
  /\ forall X, fst (getDependencies cfg e depth f st) = Returns X ->
       forall p, p ∈ X -> Q p.
Proof using All.
  induction depth as [|depth IH]; intros f st HI.
  - simpl. split; [done|]. intros ? [=].
  - rewrite getDependencies_S.
    pose proof (references_inv f _ (I_call f st HI)) as HI1.
    destruct (references e _ f (logCall f st)) as [[deps| |] st1]; simpl in *;
      try (split; [done|]; by intros ? [=]).
    apply forEachDependency_inv; [exact IH|done|].
    intros p Hp. by apply not_elem_of_empty in Hp.
Qed.
End Invariant.

(** ** The resolution table *)

Lemma after_snoc history c :
  after (history ++ [c]) = snd (perform c (after history)).
Proof. unfold after. by rewrite fold_left_app. Qed.

Lemma resolvedIn_mono h1 h2 k v :
  (forall c, c ∈ h1 -> c ∈ h2) -> resolvedIn h1 k v -> resolvedIn h2 k v.
Proof. intros Hsub (c & f & dep & Hc & Hk & Hr). exists c, f, dep. auto. Qed.

Lemma resolverCache_resolved history :
  forall k v, resolverCache (after history) !! k = Some v -> resolvedIn history k v.
Proof.
  induction history as [|c history IH] using rev_ind; intros k v.
  - unfold after. simpl. by rewrite lookup_empty.
  - rewrite after_snoc. unfold perform.
    apply (getDependencies_inv (c_config c) (c_env c)
             (fun st => forall k v, resolverCache st !! k = Some v ->
                                    resolvedIn (history ++ [c]) k v)
             (fun _ => True)); try done.
    + intros f dep w st HI _ Hres. split; [|done]. intros k' v'. simpl.
      destruct (decide (candidate (c_env c) f dep = k')) as [<-|Hne].
      * rewrite lookup_insert_eq. intros [= <-].
        exists c, f, dep. split; [set_solver|done].
      * rewrite lookup_insert_ne; [|done]. apply HI.
    + intros k' v' Hk. eapply resolvedIn_mono; [|by apply IH]. set_solver.
Qed.

(** A resolution that fails writes nothing and is logged: however often
    the walker meets the candidate, it asks the resolver again. *)
Lemma dependencyOf_failed e rs k st :
  resolverCache st !! k = None ->
  resolveDependencyReference e k rs = None ->
  dependencyOf e rs k st = (None, logResolve k st).
Proof. intros Hrc Hres. unfold dependencyOf. by rewrite Hrc, Hres. Qed.

Lemma dependencyOf_failed_iter e rs k st n :
  resolverCache st !! k = None ->
  resolveDependencyReference e k rs = None ->
  let st' := Nat.iter n (fun s => snd (dependencyOf e rs k s)) st in
  fst (dependencyOf e rs k st') = None
  /\ resolverCache st' = resolverCache st
  /\ resolveLog st' = replicate n k ++ resolveLog st.
Proof.
  intros Hrc Hres. induction n as [|n IH]; simpl.
  - by rewrite dependencyOf_failed.
  - destruct IH as (_ & IH2 & IH3).
    set (st' := Nat.iter n _ st) in *.
    assert (Hrc' : resolverCache st' !! k = None) by (by rewrite IH2).
    rewrite (dependencyOf_failed e rs k st' Hrc' Hres). simpl.
    rewrite dependencyOf_failed; [|done|done]. simpl. by rewrite IH3.
Qed.

Lemma asked_logResolve k k' st : asked k st <= asked k (logResolve k' st).
Proof.
  unfold asked. simpl. rewrite filter_cons. case_decide; simpl; lia.
Qed.

Lemma asked_logResolve_eq k st : asked k (logResolve k st) = S (asked k st).
Proof.
  unfold asked. simpl. rewrite filter_cons. case_decide; [done|congruence].
Qed.

Section Unresolved.
Context (cfg : gmap string languageConfig) (e : Fs.env) (k : string).
Hypothesis Hfail : failsEverywhere cfg e k.

Lemma unresolved_call n depth f st :
  unresolved k n st -> unresolved k n (snd (getDependencies cfg e depth f st)).
Proof using Hfail.
  intros HI.
  apply (getDependencies_inv cfg e (unresolved k n) (fun _ => True)); try done.
  - intros k' st' [H1 H2]. split; [done|].
    pose proof (asked_logResolve k k' st'). lia.
  - intros f' dep v st' [H1 H2] _ Hres. split; [|done]. split; simpl.
    + rewrite lookup_insert_ne; [done|]. intros Heq. rewrite Heq, Hfail in Hres. done.
    + pose proof (asked_logResolve k (candidate e f' dep) st').
      unfold asked in *. simpl in *. lia.
Qed.

Lemma unresolved_forEach depth f deps : forall n results st,
  unresolved k n st ->
  unresolved k n (snd (forEachDependency (getDependencies cfg e depth) e (Path.dirname f)
                       (resolvers (configFor cfg f)) deps results st)).
Proof using Hfail.
  intros n results st HI.
  apply (forEachDependency_inv cfg e (unresolved k n) (fun _ => True)); try done.
  - intros k' st' [H1 H2]. split; [done|].
    pose proof (asked_logResolve k k' st'). lia.
  - intros f' dep v st' [H1 H2] _ Hres. split; [|done]. split; simpl.
    + rewrite lookup_insert_ne; [done|]. intros Heq. rewrite Heq, Hfail in Hres. done.
    + pose proof (asked_logResolve k (candidate e f' dep) st').
      unfold asked in *. simpl in *. lia.
  - intros g st' HI'. split; [by apply unresolved_call|done].
Qed.

Lemma forEachDependency_asks depth f dep deps :
  dep ∈ deps -> candidate e f dep = k ->
  forall n results st X,
    unresolved k n st ->
    fst (forEachDependency (getDependencies cfg e depth) e (Path.dirname f)
           (resolvers (configFor cfg f)) deps results st) = Returns X ->
    unresolved k (S n) (snd (forEachDependency (getDependencies cfg e depth) e
                             (Path.dirname f) (resolvers (configFor cfg f))
                             deps results st)).
Proof using Hfail.
  intros Hin Hk. induction deps as [|d deps IH]; intros n results st X HI Hret.
  - by apply elem_of_nil in Hin.
  - simpl in *. fold (candidate e f d) in *.
    destruct (decide (d = dep)) as [->|Hne].
    + rewrite Hk in *. destruct HI as [H1 H2].
      rewrite (dependencyOf_failed e _ k st H1 (Hfail f)) in *.
      apply unresolved_forEach. split; [done|].
      rewrite asked_logResolve_eq. lia.
    + apply elem_of_cons in Hin as [Hin|Hin]; [congruence|].
      assert (HI1 : unresolved k n (snd (dependencyOf e (resolvers (configFor cfg f))
                                         (candidate e f d) st))).
      { unfold dependencyOf.
        destruct (resolverCache st !! candidate e f d) as [w|] eqn:Hrc;
          [destruct (truthy w)|];
          try destruct (resolveDependencyReference e (candidate e f d) _) as [v|] eqn:Hres;
          try rewrite (resolveDependencyReference_truthy _ _ _ _ Hres); simpl; try done;
          destruct HI as [H1 H2]; split; simpl;
          try (rewrite lookup_insert_ne; [done|];
               intros Heq; rewrite Heq, Hfail in Hres; done);
          try done;
          pose proof (asked_logResolve k (candidate e f d) st);
          unfold asked in *; simpl in *; lia. }
      destruct (dependencyOf e _ (candidate e f d) st) as [[v|] st1]; simpl in *.
      * pose proof (unresolved_call n depth v st1 HI1) as HI2.
        destruct (getDependencies cfg e depth v st1) as [[Y| |] st2]; simpl in *;
          try discriminate.
        eapply IH; eauto.
      * eapply IH; eauto.
Qed.
End Unresolved.

(** ** Worked configurations *)

Lemma configFor_default f :
  configFor defaultSearchConfig f = jsSearchConfig
  \/ configFor defaultSearchConfig f = scssSearchConfig
  \/ configFor defaultSearchConfig f = LanguageConfig [] [].
Proof.
  unfold configFor, defaultSearchConfig.
  destruct (decide (Path.extname f = ".js")) as [->|H1]; [left; reflexivity|].
  rewrite lookup_insert_ne; [|done].
  destruct (decide (Path.extname f = ".mjs")) as [->|H2]; [left; reflexivity|].
  rewrite lookup_insert_ne; [|done].
  destruct (decide (Path.extname f = ".scss")) as [->|H3]; [right; left; reflexivity|].
  rewrite lookup_insert_ne; [|done]. right; right. reflexivity.
Qed.

Lemma failsEverywhere_default e k :
  resolveDependencyReference e k (resolvers jsSearchConfig) = None ->
  resolveDependencyReference e k (resolvers scssSearchConfig) = None ->
  failsEverywhere defaultSearchConfig e k.
Proof.
  intros Hjs Hscss f.
  destruct (configFor_default f) as [-> | [-> | ->]]; [done|done|].
  unfold resolveDependencyReference in *. simpl in *.
  by destruct (isRegularFile e k).
Qed.

(** ** Absolute paths *)

Lemma is_absolute_app s t :
  Path.is_absolute s = true -> Path.is_absolute (s +:+ t) = true.
Proof. destruct s; [done|]. simpl. done. Qed.

Lemma is_absolute_nonempty s : Path.is_absolute s = true -> s <> "".
Proof. by destruct s. Qed.

Lemma resolve_absolute cwd args :
  Path.is_absolute cwd = true -> Path.is_absolute (Path.resolve cwd args) = true.
Proof.
  intros Hcwd. unfold Path.resolve. rewrite fold_left_app. simpl.
  destruct (fold_left Path.resolve_step (rev args) ("", false)) as [rp ra].
  unfold Path.resolve_step at 1.
  destruct ra; [reflexivity|].
  rewrite bool_decide_eq_false_2; [|by apply is_absolute_nonempty].
  rewrite Hcwd. reflexivity.
Qed.

Lemma normalize_absolute p :
  Path.is_absolute p = true -> Path.is_absolute (Path.normalize p) = true.
Proof.
  intros Hp. unfold Path.normalize.
  rewrite bool_decide_eq_false_2; [|by apply is_absolute_nonempty].
  rewrite Hp. simpl. by case_bool_decide.
Qed.

Lemma join_absolute p q :
  Path.is_absolute p = true -> Path.is_absolute (Path.join [p; q]) = true.
Proof.
  intros Hp. unfold Path.join. simpl. unfold Path.join_step at 2.
  rewrite bool_decide_eq_false_2; [|by apply is_absolute_nonempty].
  unfold Path.join_step. case_bool_decide; apply normalize_absolute; [done|].
  by apply is_absolute_app.
Qed.

Lemma search_start r : forall rest i mr,
  search r rest i = Some mr -> i <= m_start mr.
Proof.
  induction rest as [|c rest IH]; intros i mr; simpl.
  - destruct (matcher r accept [] i ∅) as [[j cs]|]; [|done]. intros [= <-]. simpl. lia.
  - destruct (matcher r accept (c :: rest) i ∅) as [[j cs]|].
    + intros [= <-]. simpl. lia.
    + intros H%IH. lia.
Qed.

Lemma replace_partial_absolute template input :
  Path.is_absolute input = true ->
  Path.is_absolute (Regex.replace partialPattern template input) = true.
Proof.
  intros Habs. destruct input as [|c s]; [done|]. simpl in Habs.
  apply Ascii.eqb_eq in Habs as ->.
  unfold Regex.replace. simpl list_ascii_of_string.
  change (search partialPattern (Path.slash :: list_ascii_of_string s) 0)
    with (search partialPattern (list_ascii_of_string s) 1).
  destruct (search partialPattern (list_ascii_of_string s) 1) as [mr|] eqn:Hs; [|done].
  apply search_start in Hs. destruct (m_start mr) as [|n]; [lia|]. reflexivity.
Qed.

Lemma preservesAbsolute_default : preservesAbsolute defaultSearchConfig.
Proof.
  intros ext lc r input Hlc Hr Habs. unfold defaultSearchConfig in Hlc.
  repeat (apply lookup_insert_Some in Hlc as [[_ <-]|[_ Hlc]];
          [simpl in Hr; intuition subst;
           auto using is_absolute_app, replace_partial_absolute, join_absolute|]).
  by rewrite lookup_empty in Hlc.
Qed.

Lemma resolveDependencyReference_cases e input rs v :
  resolveDependencyReference e input rs = Some v ->
  v = input \/ exists r, In r rs /\ v = r input.
Proof.
  unfold resolveDependencyReference. destruct (isRegularFile e input).
  - intros [= <-]. by left.
  - rewrite tryResolvers_find. intros H. apply find_some in H as [H _].
    apply in_map_iff in H as (r & <- & Hr). right. eauto.
Qed.

Lemma resolved_absolute cfg e f dep v :
  Path.is_absolute (Fs.cwd e) = true -> preservesAbsolute cfg ->
  resolveDependencyReference e (candidate e f dep) (resolvers (configFor cfg f)) = Some v ->
  Path.is_absolute v = true.
Proof.
  intros Hcwd Hcfg Hres.
  assert (Hk : Path.is_absolute (candidate e f dep) = true) by by apply resolve_absolute.
  apply resolveDependencyReference_cases in Hres as [->|(r & Hr & ->)]; [done|].
  unfold configFor in Hr. destruct (cfg !! Path.extname f) as [lc|] eqn:Hlc; simpl in Hr.
  - eapply Hcfg; eauto.
  - done.
Qed.

Lemma resolverCache_absolute history k v :
  (forall c, c ∈ history -> keepsAbsolute c) ->
  resolverCache (after history) !! k = Some v -> Path.is_absolute v = true.
Proof.
  intros Hwf Hk. apply resolverCache_resolved in Hk as (c & f & dep & Hc & -> & Hres).
  destruct (Hwf c Hc) as [Hcwd Hcfg]. eapply resolved_absolute; eauto.
Qed.

Lemma resolverCache_regular history k v :
  resolverCache (after history) !! k = Some v ->
  exists c, c ∈ history /\ isRegularFile (c_env c) v = true.
Proof.
  intros Hk. apply resolverCache_resolved in Hk as (c & f & dep & Hc & -> & Hres).
  exists c. split; [done|]. eapply resolveDependencyReference_regular, Hres.
Qed.

(** ** C7: the members of the returned set *)

(** C7, as stated, fails: with a resolver step that answers a relative
    path, the returned set has a member that is not an absolute path. *)
Lemma relative_member :
  fst (perform (Call vendorConfig vendorEnv 5 "/p/a.js") (after [])) = Returns {["vendor.js"]}
  /\ Path.is_absolute "vendor.js" = false.
Proof. split; vm_compute; reflexivity. Qed.

(** C7, amended. Every member of the set a call returns is a path at
    which a regular file existed when the path was resolved: in the file
    system of this call, or, for a value found in the resolution table, in
    the file system of the earlier call that made the entry. The member is
    an absolute path when, in this and the earlier calls, the working
    directory is absolute and every resolver step answers an absolute path
    with an absolute path, as the steps of the default configuration do. *)
Theorem members_were_regular_files history c X p :
  fst (perform c (after history)) = Returns X ->
  p ∈ X ->
  (isRegularFile (c_env c) p = true
   \/ exists k c', resolverCache (after history) !! k = Some p
                   /\ c' ∈ history /\ isRegularFile (c_env c') p = true)
  /\ ((forall c', c' ∈ history ++ [c] -> keepsAbsolute c') -> Path.is_absolute p = true).
Proof.
  intros Hret Hp.
  set (P := fun v : string =>
    (isRegularFile (c_env c) v = true
     \/ exists k c', resolverCache (after history) !! k = Some v
                     /\ c' ∈ history /\ isRegularFile (c_env c') v = true)
    /\ ((forall c', c' ∈ history ++ [c] -> keepsAbsolute c') -> Path.is_absolute v = true)).
  change (P p).
  refine (proj2 (getDependencies_inv (c_config c) (c_env c)
            (fun st => forall k v, resolverCache st !! k = Some v -> P v) P
            _ _ _ _ _ _ (c_depth c) (c_file c) (after history) _) X Hret p Hp); try done.
  - intros f dep v st HI _ Hres.
    assert (HP : P v).
    { split.
      - left. eapply resolveDependencyReference_regular, Hres.
      - intros Hwf. destruct (Hwf c) as [Hcwd Hcfg]; [set_solver|].
        eapply resolved_absolute; eauto. }
    split; [|done]. intros k' v'. simpl.
    destruct (decide (candidate (c_env c) f dep = k')) as [<-|Hne].
    + rewrite lookup_insert_eq. by intros [= <-].
    + rewrite lookup_insert_ne; [|done]. apply HI.
  - intros k v st HI Hk _. eapply HI, Hk.
  - intros k v Hk. split.
    + right. destruct (resolverCache_regular history k v Hk) as (c' & Hc' & Hreg). eauto.
    + intros Hwf. eapply resolverCache_absolute; [|exact Hk].
      intros c' Hc'. apply Hwf. set_solver.
Qed.

Lemma members_were_regular_files_witness :
  (isRegularFile projectEnv "/p/helpers.mjs" = true
   \/ exists k c', resolverCache (after [projectCall]) !! k = Some "/p/helpers.mjs"
                   /\ c' ∈ [projectCall] /\ isRegularFile (c_env c') "/p/helpers.mjs" = true)
  /\ ((forall c', c' ∈ [projectCall] ++ [projectCall] -> keepsAbsolute c') ->
      Path.is_absolute "/p/helpers.mjs" = true).
Proof.
  apply (members_were_regular_files [projectCall] projectCall
           {["/p/util.js"; "/p/helpers.mjs"]} "/p/helpers.mjs").
  - vm_compute. reflexivity.
  - apply elem_of_union_r, elem_of_singleton. reflexivity.
Defined.

(** ** C2: a file with an extension that is not registered *)

(** C2. The claim is that a call on a readable file whose extension has no
    entry in the search configuration returns the empty set. Without
    parsers the list of references is still the list that holds the
    content of the file, and the loop resolves it like a reference: here
    the content names the file next to [link.txt], and the call returns
    that file. *)
Theorem unregistered_extension_content_resolved :
  defaultSearchConfig !! Path.extname "/p/link.txt" = None
  /\ Fs.readFileSync linkEnv "/p/link.txt" = inr "a.js"
  /\ referencesOf defaultSearchConfig linkEnv "/p/link.txt" initial = Some ["a.js"]
  /\ fst (getDependencies defaultSearchConfig linkEnv 5 "/p/link.txt" initial)
     = Returns {["/p/a.js"]}.
Proof. repeat split; vm_compute; reflexivity. Qed.

(** ** C10: the tables are shared by the functions of the factory *)

(** C10. The tables are arguments of every function that the factory
    makes, whatever its search configuration, and their keys are made of
    paths and modification times only. So there are a file and two search
    configurations such that the function made for the second one returns
    one set on the empty tables, and another set, for the same file in the
    same file system, on the tables that a call of the function made for
    the first one has left: it finds there the path that the resolver steps
    of the first configuration have produced. *)
Theorem tables_shared_across_configurations :
  exists (cfg1 cfg2 : option (gmap string languageConfig)) e f X Y,
    cfg1 = None /\ cfg2 = Some quotesConfig
    /\ fst (module_exports cfg2 e 5 f initial) = Returns X
    /\ fst (module_exports cfg2 e 5 f (snd (module_exports cfg1 e 5 f initial))) = Returns Y
    /\ X ≠ Y
    /\ resolverCache (snd (module_exports cfg1 e 5 f initial)) !! "/p/b" = Some "/p/b.js"
    /\ resolveDependencyReference e "/p/b" (resolvers (configFor quotesConfig f)) = None.
Proof.
  exists None, (Some quotesConfig), pairEnv, "/p/a.js", ∅, {["/p/b.js"]}.
  repeat split; try (vm_compute; reflexivity).
  intros Heq. assert (H : "/p/b.js" ∈ (∅ : gset string)).
  { rewrite Heq. by apply elem_of_singleton. }
  by apply not_elem_of_empty in H.
Qed.

(** ** Keys of the extraction table *)

Lemma pretty_N_char_digit x : pretty_N_char x <> "@"%char.
Proof. unfold pretty_N_char. by repeat case_match. Qed.

Lemma pretty_N_go_digits x : forall s, digits s -> digits (pretty_N_go x s).
Proof.
  induction (N.lt_wf_0 x) as [x _ IH]; intros s Hs.
  destruct (decide (x = 0%N)) as [->|Hx]; [by rewrite pretty_N_go_0|].
  rewrite pretty_N_go_step by lia. apply IH; [apply N.div_lt; lia|].
  intros c [<-|Hc]; [apply pretty_N_char_digit|by apply Hs].
Qed.

Lemma pretty_N_digits (x : N) : digits (pretty x).
Proof.
  unfold pretty, pretty_N. case_decide.
  - intros c [<-|[]]. done.
  - apply pretty_N_go_digits. intros c [].
Qed.

Lemma at_in_app f d : In "@"%char (list_ascii_of_string (f +:+ String "@" d)).
Proof. induction f as [|c f IH]; simpl; auto. Qed.

Lemma app_at_inj f : forall f' d d',
  digits d -> digits d' ->
  f +:+ String "@" d = f' +:+ String "@" d' -> f = f' /\ d = d'.
Proof.
  induction f as [|c f IH]; intros [|c' f'] d d' Hd Hd'; simpl.
  - by intros [= ->].
  - intros [= <- ->]. destruct (Hd "@"%char); [apply at_in_app|done].
  - intros [= -> <-]. destruct (Hd' "@"%char); [apply at_in_app|done].
  - intros [= -> H]. destruct (IH f' d d' Hd Hd' H) as [-> ->]. done.
Qed.

(** The key of the extraction table determines the path and the
    modification time. *)
Lemma cacheKey_inj f s f' s' :
  cacheKey f s = cacheKey f' s' -> f = f' /\ Fs.mtimeMs s = Fs.mtimeMs s'.
Proof.
  unfold cacheKey. intros H.
  apply (app_at_inj f f' (pretty (Fs.mtimeMs s)) (pretty (Fs.mtimeMs s'))) in H
    as [-> H]; auto using pretty_N_digits.
  split; [done|]. by apply (inj pretty).
Qed.

(** ** How the tables grow *)

Lemma references_state cfg e f st deps st1 :
  references e (parsers (configFor cfg f)) f st = (Returns deps, st1) ->
  referencesOf cfg e f st = Some deps
  /\ resolverCache st1 = resolverCache st
  /\ callLog st1 = callLog st
  /\ resolveLog st1 = resolveLog st
  /\ exists s, Fs.statSync e f = inr s
     /\ dependencyCache st1 !! cacheKey f s = Some deps
     /\ ((dependencyCache st1 = dependencyCache st /\ readLog st1 = readLog st)
         \/ (dependencyCache st !! cacheKey f s = None
             /\ dependencyCache st1 = <[cacheKey f s := deps]> (dependencyCache st)
             /\ readLog st1 = f :: readLog st)).
Proof.
  intros H. split; [apply references_Returns; by rewrite H|].
  unfold references in H.
  destruct (Fs.statSync e f) as [err|s]; [done|].
  destruct (dependencyCache st !! cacheKey f s) as [d|] eqn:Hdc.
  - injection H as <- <-. repeat split; eauto 10.
  - destruct (Fs.readFileSync e f) as [err|content]; [done|].
    destruct (extract _ content) as [d|]; [|done].
    injection H as <- <-. repeat split. exists s. split; [done|]. simpl.
    rewrite lookup_insert_eq. split; [done|]. right. done.
Qed.

Lemma referencesOf_insert cfg e f s deps st st1 :
  Fs.statSync e f = inr s ->
  referencesOf cfg e f st = Some deps ->
  dependencyCache st1 = dependencyCache st
  \/ dependencyCache st1 = <[cacheKey f s := deps]> (dependencyCache st) ->
  forall f', referencesOf cfg e f' st1 = referencesOf cfg e f' st.
Proof.
  intros Hstat Href Hdc f'. unfold referencesOf in *.
  destruct Hdc as [->| ->]; [done|].
  destruct (Fs.statSync e f') as [err|s'] eqn:Hstat'; [done|].
  destruct (decide (cacheKey f s = cacheKey f' s')) as [Heq|Hne].
  - destruct (cacheKey_inj _ _ _ _ Heq) as [<- _].
    rewrite Hstat in Hstat'. injection Hstat' as <-.
    rewrite lookup_insert_eq. rewrite Hstat in Href.
    destruct (dependencyCache st !! cacheKey f s); [done|].
    destruct (Fs.readFileSync e f); done.
  - by rewrite lookup_insert_ne.
Qed.

Lemma references_keeps_referencesOf cfg e f st deps st1 :
  references e (parsers (configFor cfg f)) f st = (Returns deps, st1) ->
  forall f', referencesOf cfg e f' st1 = referencesOf cfg e f' st.
Proof.
  intros H. apply references_state in H as (Href & _ & _ & _ & s & Hstat & _ & Hdc).
  eapply referencesOf_insert; eauto. destruct Hdc as [[-> _]|(_ & -> & _)]; auto.
Qed.

(** What [dependencyOf] answers depends on the resolution table and on
    the file system only. *)
Lemma dependencyOf_fst e rs k st st' :
  resolverCache st !! k = resolverCache st' !! k ->
  fst (dependencyOf e rs k st) = fst (dependencyOf e rs k st').
Proof.
  intros H. unfold dependencyOf. rewrite H.
  destruct (resolverCache st' !! k) as [d|]; [destruct (truthy d); [done|]|];
    destruct (resolveDependencyReference e k rs) as [v|]; try done;
    destruct (truthy v); done.
Qed.

Lemma dependencyOf_state e rs k st v st1 :
  dependencyOf e rs k st = (v, st1) ->
  dependencyCache st1 = dependencyCache st
  /\ callLog st1 = callLog st
  /\ readLog st1 = readLog st
  /\ match v with
     | Some g =>
         truthy g = true /\ resolverCache st1 !! k = Some g
         /\ ((resolverCache st1 = resolverCache st /\ resolveLog st1 = resolveLog st)
             \/ (resolveDependencyReference e k rs = Some g
                 /\ resolverCache st1 = <[k := g]> (resolverCache st)
                 /\ resolveLog st1 = k :: resolveLog st
                 /\ forall w, resolverCache st !! k = Some w -> truthy w = false))
     | None =>
         resolverCache st1 = resolverCache st
         /\ resolveLog st1 = k :: resolveLog st
         /\ resolveDependencyReference e k rs = None
         /\ forall w, resolverCache st !! k = Some w -> truthy w = false
     end.
Proof.
  unfold dependencyOf.
  destruct (resolverCache st !! k) as [d|] eqn:Hrc; [destruct (truthy d) eqn:Ht|].
  - intros [= <- <-]. repeat split; auto.
  - destruct (resolveDependencyReference e k rs) as [g|] eqn:Hres.
    + rewrite (resolveDependencyReference_truthy _ _ _ _ Hres).
      intros [= <- <-]. simpl. repeat split; auto.
      * eapply resolveDependencyReference_truthy, Hres.
      * by rewrite lookup_insert_eq.
      * right. repeat split; auto. by intros w [= <-].
    + intros [= <- <-]. simpl. repeat split; auto. by intros w [= <-].
  - destruct (resolveDependencyReference e k rs) as [g|] eqn:Hres.
    + rewrite (resolveDependencyReference_truthy _ _ _ _ Hres).
      intros [= <- <-]. simpl. repeat split; auto.
      * eapply resolveDependencyReference_truthy, Hres.
      * by rewrite lookup_insert_eq.
      * right. repeat split; auto. done.
    + intros [= <- <-]. simpl. repeat split; auto. done.
Qed.

(** ** C1: a cycle of references *)

Lemma referencesOf_dc cfg e f st st' :
  dependencyCache st = dependencyCache st' ->
  referencesOf cfg e f st = referencesOf cfg e f st'.
Proof. intros H. unfold referencesOf. by rewrite H. Qed.

Lemma dependencyOf_hit e rs k st g :
  resolverCache st !! k = Some g -> truthy g = true ->
  dependencyOf e rs k st = (Some g, st).
Proof. intros H Ht. unfold dependencyOf. by rewrite H, Ht. Qed.

(** A set of files that is closed under [firstDependency]: a call on one
    of its members uses up the stack, however deep. *)
Lemma closed_under_firstDependency cfg e (files : string -> Prop) depth :
  forall st,
    (forall f, files f -> exists g, files g /\ firstDependency cfg e st f g) ->
    forall f, files f -> fst (getDependencies cfg e depth f st) = Throws Fs.RangeError.
Proof.
  induction depth as [|depth IH]; intros st Hclosed f Hf; [reflexivity|].
  destruct (Hclosed f Hf) as (g & Hg & d & rest & Href & Hdep).
  rewrite getDependencies_S.
  change (referencesOf cfg e f st) with (referencesOf cfg e f (logCall f st)) in Href.
  destruct (references e _ f (logCall f st)) as [o st1] eqn:Hrefs.
  assert (o = Returns (d :: rest)) as ->.
  { apply references_Returns in Href. by rewrite Hrefs in Href. }
  pose proof (references_keeps_referencesOf _ _ _ _ _ _ Hrefs) as Hkeep.
  apply references_state in Hrefs as (_ & Hrc1 & _).
  simpl. fold (candidate e f d).
  rewrite (dependencyOf_fst e _ _ st st1) in Hdep by (by rewrite Hrc1).
  destruct (dependencyOf e _ (candidate e f d) st1) as [v st2] eqn:Hd.
  simpl in Hdep. subst v.
  apply dependencyOf_state in Hd as (Hdc2 & _ & _ & Htruthy & Hk & Hrc2).
  rewrite (surjective_pairing (getDependencies cfg e depth g st2)).
  rewrite (IH st2); [done| |done].
  intros f' Hf'. destruct (Hclosed f' Hf') as (g' & Hg' & d' & rest' & Href' & Hdep').
  assert (Href2 : referencesOf cfg e f' st2 = Some (d' :: rest')).
  { rewrite (referencesOf_dc cfg e f' st2 st1 Hdc2), Hkeep. exact Href'. }
  destruct (decide (candidate e f' d' = candidate e f d)) as [Heq|Hne].
  - exists g. split; [done|]. exists d', rest'. split; [done|].
    rewrite Heq. by rewrite (dependencyOf_hit _ _ _ _ _ Hk Htruthy).
  - exists g'. split; [done|]. exists d', rest'. split; [done|].
    rewrite <- Hdep'. apply dependencyOf_fst.
    destruct Hrc2 as [[-> _]|(_ & -> & _)]; [by rewrite Hrc1|].
    rewrite lookup_insert_ne by done. by rewrite Hrc1.
Qed.

Lemma cycleEnv_firstDependency :
  firstDependency defaultSearchConfig cycleEnv initial "/p/a.js" "/p/b.js"
  /\ firstDependency defaultSearchConfig cycleEnv initial "/p/b.js" "/p/a.js".
Proof.
  split.
  - exists "./b", []. split; vm_compute; reflexivity.
  - exists "./a", []. split; vm_compute; reflexivity.
Qed.

(** C1, as stated, fails: on the two files that import each other, no
    depth of the stack lets the call on the first one return a set. *)
Lemma cycle_never_returns :
  ~ exists depth X,
      fst (getDependencies defaultSearchConfig cycleEnv depth "/p/a.js" initial) = Returns X.
Proof.
  intros (depth & X & H).
  rewrite (closed_under_firstDependency defaultSearchConfig cycleEnv
             (fun f => f = "/p/a.js" \/ f = "/p/b.js") depth initial) in H; [done| |by left].
  destruct cycleEnv_firstDependency as [Ha Hb].
  intros f [->| ->]; [exists "/p/b.js"|exists "/p/a.js"]; auto.
Qed.

(** C1, amended. When the first reference of [A] stands for [B] and the
    first reference of [B] stands for [A], be it by an entry of the
    resolution table or by the answer of the resolver, the call on [A] does
    not return: the walk has no guard against cycles, and whatever room the
    stack has, the nested calls use it up and the call ends with the
    [RangeError] of the stack. *)
Theorem two_file_cycle_overflows cfg e st A B depth :
  firstDependency cfg e st A B ->
  firstDependency cfg e st B A ->
  fst (getDependencies cfg e depth A st) = Throws Fs.RangeError.
Proof.
  intros HA HB.
  apply (closed_under_firstDependency cfg e (fun f => f = A \/ f = B)); [|by left].
  intros f [->| ->]; [exists B|exists A]; auto.
Qed.

Lemma two_file_cycle_overflows_witness :
  fst (getDependencies defaultSearchConfig cycleEnv 7 "/p/a.js" initial)
  = Throws Fs.RangeError.
Proof.
  apply (two_file_cycle_overflows defaultSearchConfig cycleEnv initial "/p/a.js" "/p/b.js" 7).
  - exists "./b", []. split; vm_compute; reflexivity.
  - exists "./a", []. split; vm_compute; reflexivity.
Defined.

(** ** The resolver for SASS partials *)

Lemma list_ascii_of_string_app s t :
  list_ascii_of_string (s +:+ t) = list_ascii_of_string s ++ list_ascii_of_string t.
Proof. induction s as [|c s IH]; simpl; [done|by rewrite IH]. Qed.

Lemma string_of_list_ascii_app l1 l2 :
  string_of_list_ascii (l1 ++ l2) = string_of_list_ascii l1 +:+ string_of_list_ascii l2.
Proof. induction l1 as [|c l1 IH]; simpl; [done|by rewrite IH]. Qed.

Lemma string_app_assoc (s t u : string) : (s +:+ t) +:+ u = s +:+ (t +:+ u).
Proof.
  induction s as [|c s IH]; [done|].
  change (String c ((s +:+ t) +:+ u) = String c (s +:+ (t +:+ u))). by rewrite IH.
Qed.

Lemma string_app_empty_r (s : string) : s +:+ "" = s.
Proof.
  induction s as [|c s IH]; [done|].
  change (String c (s +:+ "") = String c s). by rewrite IH.
Qed.

Lemma rep_greedy_blocked p k : atEnd k ->
  forall rest min i cs,
    Exists (fun c => p c = false) rest -> rep_greedy p min k rest i cs = None.
Proof.
  intros Hk. induction rest as [|c rest IH]; intros min i cs Hex.
  - by apply Exists_nil in Hex.
  - simpl. rewrite Hk. destruct (p c) eqn:Hp.
    + apply Exists_cons in Hex as [Hc|Hex]; [congruence|].
      rewrite (IH _ _ _ Hex). by destruct min.
    + by destruct min.
Qed.

Lemma rep_greedy_all p k : forall rest min i cs res,
  Forall (fun c => p c = true) rest ->
  min <= length rest ->
  k [] (i + length rest) cs = Some res ->
  rep_greedy p min k rest i cs = Some res.
Proof.
  induction rest as [|c rest IH]; intros min i cs res Hall Hmin Hk; simpl in *.
  - replace (i + 0) with i in Hk by lia. destruct min; [done|lia].
  - apply Forall_cons in Hall as [Hc Hall]. rewrite Hc.
    rewrite (IH (pred min) (S i) cs res); [done|done|lia|].
    by replace (S i + length rest) with (i + S (length rest)) by lia.
Qed.

Lemma matcher_partial_blocked rest i :
  Exists (fun c => wordish c = false) rest ->
  matcher partialPattern accept rest i ∅ = None.
Proof.
  intros Hex. simpl. apply rep_greedy_blocked; [|done]. by intros c r j cs.
Qed.

Lemma matcher_partial_all rest i :
  Forall (fun c => wordish c = true) rest -> rest <> [] ->
  matcher partialPattern accept rest i ∅
  = Some (i + length rest, <[1 := rest]> (∅ : caps)).
Proof.
  intros Hall Hne. simpl. apply rep_greedy_all; [done|destruct rest; simpl; [done|lia]|].
  simpl. replace (i + length rest - i) with (length rest) by lia.
  by rewrite firstn_all.
Qed.

Lemma search_unfold r rest i :
  search r rest i =
  match matcher r accept rest i ∅ with
  | Some (j, cs) => Some (MatchResult i j (groups r cs))
  | None => match rest with [] => None | _ :: rest' => search r rest' (S i) end
  end.
Proof. by destruct rest. Qed.

Lemma search_partial name : forall prefix i,
  Forall (fun c => wordish c = true) name -> name <> [] ->
  search partialPattern (prefix ++ "/"%char :: name) i
  = Some (MatchResult (i + S (length prefix)) (i + S (length prefix) + length name)
            [Some (string_of_list_ascii name)]).
Proof.
  intros prefix i Hall Hne. revert i.
  induction prefix as [|c prefix IH]; intros i; rewrite search_unfold.
  - rewrite matcher_partial_blocked by (by apply Exists_cons_hd). cbn [app].
    rewrite search_unfold, matcher_partial_all by done.
    change (groups partialPattern ?cs) with [string_of_list_ascii <$> cs !! 1].
    rewrite lookup_insert_eq. simpl. f_equal. f_equal; lia.
  - rewrite matcher_partial_blocked.
    + cbn [app]. rewrite IH. simpl. f_equal. f_equal; lia.
    + apply Exists_cons_tl, Exists_app. right. by apply Exists_cons_hd.
Qed.

(** On a path that ends with a slash and a name made of word characters
    and hyphens, the second resolver of the [.scss] entry puts an
    underscore before the name and [.scss] after it. *)
Lemma partial_resolver directory name :
  Forall (fun c => wordish c = true) (list_ascii_of_string name) -> name <> "" ->
  Regex.replace partialPattern [RLit "_"; RGroup 1; RLit ".scss"]
    (directory +:+ "/" +:+ name)
  = directory +:+ "/_" +:+ name +:+ ".scss".
Proof.
  intros Hall Hne. unfold Regex.replace.
  change ("/" +:+ name) with (String "/" name).
  rewrite list_ascii_of_string_app. cbn [list_ascii_of_string].
  rewrite search_partial; [|done|by destruct name].
  cbn [m_start m_end m_groups foldr expand].
  set (d := list_ascii_of_string directory). set (n := list_ascii_of_string name).
  replace (d ++ "/"%char :: n) with ((d ++ ["/"%char]) ++ n) by (by rewrite <- app_assoc).
  replace (0 + S (length d)) with (length (d ++ ["/"%char]))
    by (rewrite length_app; simpl; lia).
  rewrite take_app_length, <- length_app, drop_all.
  subst d n. rewrite string_of_list_ascii_app, !string_of_list_ascii_of_string.
  simpl. rewrite ?string_app_empty_r, ?string_app_assoc. done.
Qed.

(** ** C9: the naming convention of SASS partials *)

Lemma forEachDependency_mono recur e directory rs deps :
  forall results st X,
    fst (forEachDependency recur e directory rs deps results st) = Returns X ->
    results ⊆ X.
Proof.
  induction deps as [|dep deps IH]; intros results st X; simpl.
  - by intros [= <-].
  - destruct (dependencyOf e rs _ st) as [[v|] st1]; [|apply IH].
    destruct (recur v st1) as [[Y| |] st2]; simpl; try done.
    intros H%IH. set_solver.
Qed.

Section Agreed.
Context (cfg : gmap string languageConfig) (e : Fs.env) (k target : string).
Hypothesis Hagree : agreedOn cfg e k target.

Lemma onlyCached_call depth f st :
  onlyCached k target st ->
  onlyCached k target (snd (getDependencies cfg e depth f st)).
Proof using Hagree.
  intros HI.
  apply (getDependencies_inv cfg e (onlyCached k target) (fun _ => True)); try done.
  intros f' dep v st' HI' _ Hres. split; [|done]. intros w. simpl.
  destruct (decide (candidate e f' dep = k)) as [Heq|Hne].
  - rewrite Heq, lookup_insert_eq. intros [= <-]. left.
    rewrite Heq in Hres. eapply Hagree, Hres.
  - rewrite lookup_insert_ne by done. apply HI'.
Qed.

Lemma onlyCached_dependencyOf f dep st :
  onlyCached k target st ->
  onlyCached k target
    (snd (dependencyOf e (resolvers (configFor cfg f)) (candidate e f dep) st)).
Proof using Hagree.
  intros HI.
  apply (dependencyOf_inv cfg e (onlyCached k target) (fun _ => True)); try done.
  intros f' dep' v st' HI' _ Hres. split; [|done]. intros w. simpl.
  destruct (decide (candidate e f' dep' = k)) as [Heq|Hne].
  - rewrite Heq, lookup_insert_eq. intros [= <-]. left.
    rewrite Heq in Hres. eapply Hagree, Hres.
  - rewrite lookup_insert_ne by done. apply HI'.
Qed.

Lemma dependencyOf_agreed f st :
  resolveDependencyReference e k (resolvers (configFor cfg f)) = Some target ->
  onlyCached k target st ->
  fst (dependencyOf e (resolvers (configFor cfg f)) k st) = Some target.
Proof.
  intros Hres HI. unfold dependencyOf.
  pose proof (resolveDependencyReference_truthy _ _ _ _ Hres) as Ht.
  destruct (resolverCache st !! k) as [w|] eqn:Hrc.
  - destruct (HI w Hrc) as [->|Hw].
    + by rewrite Ht.
    + by rewrite Hw, Hres, Ht.
  - by rewrite Hres, Ht.
Qed.

Lemma forEachDependency_contains depth f dep deps :
  dep ∈ deps -> candidate e f dep = k ->
  resolveDependencyReference e k (resolvers (configFor cfg f)) = Some target ->
  forall results st X,
    onlyCached k target st ->
    fst (forEachDependency (getDependencies cfg e depth) e (Path.dirname f)
           (resolvers (configFor cfg f)) deps results st) = Returns X ->
    target ∈ X.
Proof using Hagree.
  intros Hin Hk Hres. induction deps as [|d deps IH]; intros results st X HI.
  - by apply elem_of_nil in Hin.
  - simpl. fold (candidate e f d).
    destruct (decide (d = dep)) as [->|Hne].
    + rewrite Hk. pose proof (dependencyOf_agreed f st Hres HI) as Hd.
      destruct (dependencyOf e _ k st) as [v st1]. simpl in Hd. subst v.
      destruct (getDependencies cfg e depth target st1) as [[Y| |] st2]; simpl; try done.
      intros H%forEachDependency_mono. set_solver.
    + apply elem_of_cons in Hin as [Hin|Hin]; [congruence|].
      pose proof (onlyCached_dependencyOf f d st HI) as HI1.
      destruct (dependencyOf e _ (candidate e f d) st) as [[v|] st1]; simpl in HI1.
      * pose proof (onlyCached_call depth v st1 HI1) as HI2.
        destruct (getDependencies cfg e depth v st1) as [[Y| |] st2]; simpl; try done.
        by apply IH.
      * by apply IH.
Qed.
End Agreed.

Lemma getDependencies_leaf cfg e depth f st :
  referencesOf cfg e f st = Some [] ->
  fst (getDependencies cfg e (S depth) f st) = Returns ∅.
Proof.
  intros Href. rewrite getDependencies_S.
  change (referencesOf cfg e f st) with (referencesOf cfg e f (logCall f st)) in Href.
  apply references_Returns in Href.
  destruct (references e _ f (logCall f st)) as [o st1]. simpl in Href. by subst o.
Qed.

Lemma agreedOn_default e k target :
  isRegularFile e k = false ->
  isRegularFile e (k +:+ ".js") = false ->
  isRegularFile e (k +:+ ".mjs") = false ->
  resolveDependencyReference e k (resolvers scssSearchConfig) = Some target ->
  agreedOn defaultSearchConfig e k target.
Proof.
  intros Hk Hjs Hmjs Hscss f v.
  destruct (configFor_default f) as [-> | [-> | ->]].
  - unfold resolveDependencyReference. simpl. by rewrite Hk, Hjs, Hmjs.
  - congruence.
  - unfold resolveDependencyReference. simpl. by rewrite Hk.
Qed.

(** C9, as stated, fails: there is no [foo.scss], there is [_foo.scss],
    and the reference [foo] is resolved to the regular file whose name is
    the candidate itself; [_foo.scss] is not in the returned set. *)
Lemma exact_name_before_partial :
  referencesOf defaultSearchConfig exactEnv "/p/theme.scss" initial = Some ["foo"]
  /\ isRegularFile exactEnv "/p/foo.scss" = false
  /\ isRegularFile exactEnv "/p/_foo.scss" = true
  /\ resolveDependencyReference exactEnv (candidate exactEnv "/p/theme.scss" "foo")
       (resolvers scssSearchConfig) = Some "/p/foo"
  /\ fst (getDependencies defaultSearchConfig exactEnv 5 "/p/theme.scss" initial)
     = Returns {["/p/foo"]}
  /\ "/p/_foo.scss" ∉ ({["/p/foo"]} : gset string).
Proof.
  repeat split; try (vm_compute; reflexivity).
  intros H%elem_of_singleton. discriminate.
Qed.

(** C9, amended. Let [F] be a stylesheet and [D] its directory, so that
    the candidate of the reference [foo] is [D/foo], and let neither
    [D/foo] nor [D/foo.scss] be a regular file while [D/_foo.scss] is one.
    Then the pipeline of the stylesheet entry resolves the candidate to
    [D/_foo.scss]. When [foo] is among the references of [F], no pipeline
    of the configuration resolves the candidate to another file and the
    resolution table holds no other path for it, every set that a call on
    [F] returns has [D/_foo.scss] as a member; and when [foo] is the only
    reference of [F] and [D/_foo.scss] has none, a call with room for two
    nested calls returns exactly that file. *)
Theorem partial_file_resolved e st F D :
  configFor defaultSearchConfig F = scssSearchConfig ->
  candidate e F "foo" = D +:+ "/foo" ->
  isRegularFile e (D +:+ "/foo") = false ->
  isRegularFile e (D +:+ "/foo.scss") = false ->
  isRegularFile e (D +:+ "/_foo.scss") = true ->
  resolveDependencyReference e (candidate e F "foo") (resolvers scssSearchConfig)
  = Some (D +:+ "/_foo.scss")
  /\ (forall deps depth X,
      referencesOf defaultSearchConfig e F st = Some deps -> "foo" ∈ deps ->
      agreedOn defaultSearchConfig e (D +:+ "/foo") (D +:+ "/_foo.scss") ->
      onlyCached (D +:+ "/foo") (D +:+ "/_foo.scss") st ->
      fst (getDependencies defaultSearchConfig e depth F st) = Returns X ->
      D +:+ "/_foo.scss" ∈ X)
  /\ (forall depth,
      referencesOf defaultSearchConfig e F st = Some ["foo"] ->
      referencesOf defaultSearchConfig e (D +:+ "/_foo.scss") st = Some [] ->
      onlyCached (D +:+ "/foo") (D +:+ "/_foo.scss") st ->
      fst (getDependencies defaultSearchConfig e (S (S depth)) F st)
      = Returns {[D +:+ "/_foo.scss"]}).
Proof.
  intros Hcfg Hk Hexact Hscss Hpartial.
  assert (Hres : resolveDependencyReference e (D +:+ "/foo") (resolvers scssSearchConfig)
                 = Some (D +:+ "/_foo.scss")).
  { unfold resolveDependencyReference. rewrite Hexact.
    cbn [scssSearchConfig resolvers tryResolvers].
    replace ((D +:+ "/foo") +:+ ".scss") with (D +:+ "/foo.scss")
      by (by rewrite string_app_assoc).
    rewrite Hscss.
    change (D +:+ "/foo") with (D +:+ "/" +:+ "foo").
    rewrite (partial_resolver D "foo") by (by repeat constructor).
    change (D +:+ "/_" +:+ "foo" +:+ ".scss") with (D +:+ "/_foo.scss").
    by rewrite Hpartial. }
  split; [by rewrite Hk|]. split.
  - intros deps depth X Href Hin Hagree HI Hret.
    destruct depth as [|depth]; [discriminate|].
    rewrite getDependencies_S in Hret.
    change (referencesOf defaultSearchConfig e F st)
      with (referencesOf defaultSearchConfig e F (logCall F st)) in Href.
    apply references_Returns in Href.
    pose proof (references_inv defaultSearchConfig e
                  (onlyCached (D +:+ "/foo") (D +:+ "/_foo.scss"))
                  ltac:(done) ltac:(done) F (logCall F st) HI) as HI1.
    destruct (references e _ F (logCall F st)) as [o st1]. simpl in Href, HI1. subst o.
    eapply (forEachDependency_contains defaultSearchConfig e _ _ Hagree depth F "foo" deps);
      eauto.
    by rewrite Hcfg.
  - intros depth Href Hleaf HI. rewrite getDependencies_S.
    change (referencesOf defaultSearchConfig e F st)
      with (referencesOf defaultSearchConfig e F (logCall F st)) in Href.
    destruct (references e _ F (logCall F st)) as [o st1] eqn:Hrefs.
    assert (o = Returns ["foo"]) as ->.
    { apply references_Returns in Href. by rewrite Hrefs in Href. }
    pose proof (references_keeps_referencesOf _ _ _ _ _ _ Hrefs (D +:+ "/_foo.scss")) as Hkeep.
    apply references_state in Hrefs as (_ & Hrc1 & _).
    cbn [forEachDependency]. fold (candidate e F "foo"). rewrite Hk, Hcfg.
    assert (Hd : fst (dependencyOf e (resolvers scssSearchConfig) (D +:+ "/foo") st1)
                 = Some (D +:+ "/_foo.scss")).
    { rewrite <- Hcfg. apply (dependencyOf_agreed defaultSearchConfig e); [by rewrite Hcfg|].
      intros w. rewrite Hrc1. apply HI. }
    destruct (dependencyOf e _ (D +:+ "/foo") st1) as [v st2] eqn:Hdep.
    simpl in Hd. subst v.
    apply dependencyOf_state in Hdep as (Hdc2 & _).
    rewrite (surjective_pairing (getDependencies _ e (S depth) (D +:+ "/_foo.scss") st2)).
    rewrite getDependencies_leaf.
    + cbn [forEachDependency fst]. f_equal. apply set_eq. set_solver.
    + rewrite (referencesOf_dc _ e _ st2 st1 Hdc2), Hkeep. exact Hleaf.
Qed.

Lemma partial_file_resolved_witness :
  resolveDependencyReference partialEnv (candidate partialEnv "/p/theme.scss" "foo")
    (resolvers scssSearchConfig) = Some "/p/_foo.scss"
  /\ fst (getDependencies defaultSearchConfig partialEnv 2 "/p/theme.scss" initial)
     = Returns {["/p/_foo.scss"]}.
Proof.
  destruct (partial_file_resolved partialEnv initial "/p/theme.scss" "/p")
    as (H1 & H2 & H3); try (vm_compute; reflexivity).
  split; [exact H1|]. apply H3; try (vm_compute; reflexivity).
  intros w Hw. vm_compute in Hw. discriminate.
Defined.

(** ** What a match consumes *)

Lemma rep_greedy_consumes p k cs res : forall rest min i,
  rep_greedy p min k rest i cs = Some res ->
  exists n, min <= n /\ n <= length rest
            /\ Forall (fun c => p c = true) (take n rest)
            /\ k (drop n rest) (i + n) cs = Some res.
Proof.
  induction rest as [|c rest IH]; intros min i; simpl.
  - destruct min; [|done]. intros H. exists 0. rewrite Nat.add_0_r. auto.
  - destruct (p c) eqn:Hp.
    + destruct (rep_greedy p (pred min) k rest (S i) cs) eqn:Hrec.
      * intros [= ->]. apply IH in Hrec as (n & Hmin & Hlen & Hall & Hk).
        exists (S n). simpl. rewrite Nat.add_succ_r.
        repeat split; [lia|lia|by constructor|done].
      * destruct min; [|done]. intros H. exists 0. rewrite Nat.add_0_r.
        repeat split; auto; lia.
    + destruct min; [|done]. intros H. exists 0. rewrite Nat.add_0_r.
      repeat split; auto; lia.
Qed.

Lemma rep_lazy_consumes p k cs res : forall rest min i,
  rep_lazy p min k rest i cs = Some res ->
  exists n, min <= n /\ n <= length rest
            /\ Forall (fun c => p c = true) (take n rest)
            /\ k (drop n rest) (i + n) cs = Some res.
Proof.
  induction rest as [|c rest IH]; intros min i; simpl.
  - destruct min; [|done]. destruct (k [] i cs) eqn:Hk; [|done].
    intros [= ->]. exists 0. rewrite Nat.add_0_r. auto.
  - assert (Hmore : (if p c then rep_lazy p (pred min) k rest (S i) cs else None) = Some res ->
                    exists n, min <= n /\ n <= S (length rest)
                              /\ Forall (fun c => p c = true) (take n (c :: rest))
                              /\ k (drop n (c :: rest)) (i + n) cs = Some res).
    { destruct (p c) eqn:Hp; [|done]. intros Hrec.
      apply IH in Hrec as (n & Hmin & Hlen & Hall & Hk).
      exists (S n). simpl. rewrite Nat.add_succ_r.
      repeat split; [lia|lia|by constructor|done]. }
    destruct min; [|exact Hmore].
    destruct (k (c :: rest) i cs) eqn:Hk; [|exact Hmore].
    intros [= ->]. exists 0. rewrite Nat.add_0_r. repeat split; auto; lia.
Qed.

Ltac consumed := repeat split; simpl; try lia; try done; try (by repeat constructor).
Lemma matcher_consumes r : forall k rest i cs res,
  matcher r k rest i cs = Some res ->
  exists n cs', minlen r <= n /\ n <= length rest
                /\ Forall (fun c => consumes r c = true) (take n rest)
                /\ k (drop n rest) (i + n) cs' = Some res.
Proof.
  induction r as [|c|neg items| | |r1 IH1 r2 IH2|r1 IH1 r2 IH2|g r1 IH1|r1 IH1
                 |greedy min neg items]; intros k rest i cs res; simpl.
  - intros H. exists 0, cs. rewrite Nat.add_0_r. consumed.
  - destruct rest as [|c' rest]; [done|]. destruct (Ascii.eqb c c') eqn:Hc; [|done].
    intros H. exists 1, cs. simpl. rewrite Nat.add_1_r. consumed.
  - destruct rest as [|c' rest]; [done|]. destruct (in_class neg items c') eqn:Hc; [|done].
    intros H. exists 1, cs. simpl. rewrite Nat.add_1_r. consumed.
  - destruct i; [|done]. intros H. exists 0, cs. consumed.
  - destruct rest; [|done]. intros H. exists 0, cs. rewrite Nat.add_0_r. consumed.
  - intros H. apply IH1 in H as (n1 & cs1 & Hmin1 & Hlen1 & Hall1 & H).
    apply IH2 in H as (n2 & cs2 & Hmin2 & Hlen2 & Hall2 & H).
    rewrite length_drop in Hlen2.
    exists (n1 + n2), cs2. rewrite drop_drop, <- Nat.add_assoc in H.
    repeat split; [lia|lia| |done].
    rewrite <- take_take_drop.
    apply Forall_app. split; (eapply Forall_impl; [eassumption|]);
      simpl; intros ? ->; [done|apply orb_true_r].
  - destruct (matcher r1 k rest i cs) eqn:H1.
    + intros [= ->]. apply IH1 in H1 as (n & cs' & Hmin & Hlen & Hall & H).
      exists n, cs'. repeat split; [lia|lia| |done].
      eapply Forall_impl; [eassumption|]. simpl. by intros ? ->.
    + intros H. apply IH2 in H as (n & cs' & Hmin & Hlen & Hall & H).
      exists n, cs'. repeat split; [lia|lia| |done].
      eapply Forall_impl; [eassumption|]. simpl. intros ? ->. apply orb_true_r.
  - intros H. apply IH1 in H as (n & cs' & Hmin & Hlen & Hall & H). eauto 10.
  - destruct (matcher r1 k rest i cs) eqn:H1.
    + intros [= ->]. apply IH1 in H1 as (n & cs' & Hmin & Hlen & Hall & H).
      exists n, cs'. repeat split; [lia|lia|done|done].
    + intros H. exists 0, cs. rewrite Nat.add_0_r. consumed.
  - destruct greedy; intros H;
      [apply rep_greedy_consumes in H|apply rep_lazy_consumes in H];
      destruct H as (n & Hmin & Hlen & Hall & H); eauto 10.
Qed.

(** A match ends at or after its start, within the input, and takes
    [minlen] characters at least. *)
Lemma search_bounds r : forall rest i mr,
  search r rest i = Some mr ->
  i <= m_start mr /\ m_start mr + minlen r <= m_end mr /\ m_end mr <= i + length rest.
Proof.
  induction rest as [|c rest IH]; intros i mr; rewrite search_unfold.
  - destruct (matcher r accept [] i ∅) as [[j cs]|] eqn:Hm; [|done].
    intros [= <-]. simpl.
    apply matcher_consumes in Hm as (n & cs' & Hmin & Hlen & _ & [= <- _]).
    simpl in Hlen. lia.
  - destruct (matcher r accept (c :: rest) i ∅) as [[j cs]|] eqn:Hm.
    + intros [= <-]. simpl.
      apply matcher_consumes in Hm as (n & cs' & Hmin & Hlen & _ & [= <- _]).
      simpl in *. lia.
    + intros H%IH. simpl. lia.
Qed.

Lemma exec_bounds r input lastIndex mr :
  Regex.exec r input lastIndex = Some mr ->
  lastIndex <= m_start mr /\ m_start mr + minlen r <= m_end mr
  /\ m_end mr <= String.length input.
Proof.
  unfold Regex.exec.
  destruct (Nat.ltb_spec (length (list_ascii_of_string input)) lastIndex) as [|Hle];
    [done|].
  intros H%search_bounds. rewrite length_drop in H.
  assert (length (list_ascii_of_string input) = String.length input) as <-.
  { clear. induction input; simpl; auto. }
  lia.
Qed.

(** With a pattern that cannot match the empty string, the loop over the
    matches of an input ends. *)
Lemma execLoop_total r : 1 <= minlen r ->
  forall fuel input lastIndex,
    lastIndex <= String.length input ->
    String.length input - lastIndex <= fuel ->
    exists out, execLoop fuel r input lastIndex = Some out.
Proof.
  intros Hmin. induction fuel as [|fuel IH]; intros input lastIndex Hle Hfuel; simpl.
  - destruct (Regex.exec r input lastIndex) as [mr|] eqn:Hexec; [|eauto].
    apply exec_bounds in Hexec. lia.
  - destruct (Regex.exec r input lastIndex) as [mr|] eqn:Hexec; [|eauto].
    apply exec_bounds in Hexec as (H1 & H2 & H3).
    destruct (Nat.leb_spec (m_end mr) lastIndex); [lia|].
    destruct (IH input (m_end mr)) as [out ->]; [lia|lia|]. simpl. eauto.
Qed.

(** ** The pattern for [import] and [export] statements *)

Lemma jsImportPattern_matcher rest i cs :
  matcher jsImportPattern accept rest i cs
  = matcher headPattern (rep_lazy anyChar 0 literalThenSemicolon) rest i cs.
Proof. reflexivity. Qed.

Lemma anyChar_true c : anyChar c = true.
Proof. unfold anyChar, in_class. simpl. by destruct (is_space c). Qed.

Lemma nq_quoteChar double : nq (quoteChar double) = false.
Proof. by destruct double. Qed.

Lemma nq_not_class double c : nq c = true -> in_class true [CChar (quoteChar double)] c = true.
Proof.
  unfold nq, in_class. simpl. intros [H1 H2]%andb_prop.
  destruct double; simpl; [by rewrite (negb_true_iff _) in H1; rewrite H1
                          |by rewrite (negb_true_iff _) in H2; rewrite H2].
Qed.

Lemma headPattern_nq c : consumes headPattern c = true -> nq c = true.
Proof.
  intros H. destruct (nq c) eqn:Hnq; [done|]. unfold nq in Hnq.
  apply andb_false_iff in Hnq as [Hc|Hc]; apply negb_false_iff, Ascii.eqb_eq in Hc;
    subst c; vm_compute in H; discriminate.
Qed.

Lemma is_space_nq c : is_space c = true -> nq c = true.
Proof.
  intros H. apply headPattern_nq. unfold headPattern. cbn [consumes].
  assert (in_class false [CSpace] c = true) as ->.
  { unfold in_class. cbn [existsb item_matches xorb]. by rewrite H. }
  by rewrite orb_true_r.
Qed.

(** The equations of [matcher]. *)
Lemma matcher_Seq r1 r2 k rest i cs :
  matcher (Seq r1 r2) k rest i cs = matcher r1 (matcher r2 k) rest i cs.
Proof. reflexivity. Qed.

Lemma matcher_Alt r1 r2 k rest i cs :
  matcher (Alt r1 r2) k rest i cs =
  match matcher r1 k rest i cs with
  | Some res => Some res
  | None => matcher r2 k rest i cs
  end.
Proof. reflexivity. Qed.

Lemma matcher_Grp n r k rest i cs :
  matcher (Grp n r) k rest i cs =
  matcher r (fun rest' i' cs' => k rest' i' (<[n := take (i' - i) rest]> cs')) rest i cs.
Proof. reflexivity. Qed.

Lemma matcher_Chr c k rest i cs :
  matcher (Chr c) k (c :: rest) i cs = k rest (S i) cs.
Proof. simpl. by rewrite Ascii.eqb_refl. Qed.

Lemma matcher_Chr_ne c c' k rest i cs :
  Ascii.eqb c c' = false -> matcher (Chr c) k (c' :: rest) i cs = None.
Proof. simpl. by intros ->. Qed.

Lemma matcher_Class neg items c k rest i cs :
  in_class neg items c = true ->
  matcher (Class neg items) k (c :: rest) i cs = k rest (S i) cs.
Proof. simpl. by intros ->. Qed.

Lemma matcher_Rep_greedy min neg items k rest i cs :
  matcher (Rep true min neg items) k rest i cs
  = rep_greedy (in_class neg items) min k rest i cs.
Proof. reflexivity. Qed.

Lemma literalThenSemicolon_nq c rest i cs :
  nq c = true -> literalThenSemicolon (c :: rest) i cs = None.
Proof.
  unfold nq. intros [H1 H2]%andb_prop.
  apply negb_true_iff in H1, H2.
  unfold literalThenSemicolon, literalGroup, quoted.
  rewrite matcher_Grp, matcher_Alt, !matcher_Seq.
  rewrite (matcher_Chr_ne dq c) by done. by rewrite (matcher_Chr_ne sq c).
Qed.

Lemma rep_greedy_stop p k cs res c tail : forall body min i,
  Forall (fun x => p x = true) body -> p c = false -> min <= length body ->
  k (c :: tail) (i + length body) cs = Some res ->
  rep_greedy p min k (body ++ c :: tail) i cs = Some res.
Proof.
  induction body as [|x body IH]; intros min i Hall Hc Hmin Hk; simpl in *.
  - rewrite Hc. rewrite Nat.add_0_r in Hk. destruct min; [done|lia].
  - apply Forall_cons in Hall as [Hx Hall]. rewrite Hx.
    rewrite (IH (pred min) (S i)); [done|done|done|lia|].
    by rewrite Nat.add_succ_comm.
Qed.

(** One alternative of the quoted literal, on the literal in its quote. *)
Lemma quoted_alternative q body post k i cs res :
  Forall (fun c => in_class true [CChar q] c = true) body -> body <> [] ->
  in_class true [CChar q] q = false ->
  k (";"%char :: post) (i + (length body + 3)) cs = Some res ->
  matcher (Chr q ⋅ (Chr "." ⋅ Rep true 1 true [CChar q]) ⋅ Chr q)%re k
    (q :: "."%char :: body ++ q :: ";"%char :: post) i cs = Some res.
Proof.
  intros Hall Hne Hq Hk.
  repeat (rewrite matcher_Seq || rewrite matcher_Chr). rewrite matcher_Rep_greedy.
  apply rep_greedy_stop; [done|done|destruct body; simpl; [done|lia]|].
  rewrite matcher_Chr. rewrite <- Hk. f_equal. lia.
Qed.

Lemma literalThenSemicolon_literal double body post i cs :
  Forall (fun c => nq c = true) body -> body <> [] ->
  literalThenSemicolon (literalChars double body ++ ";"%char :: post) i cs
  = Some (i + (length body + 4), <[1 := literalChars double body]> cs).
Proof.
  intros Hbody Hne.
  assert (Hall : Forall (fun x => in_class true [CChar (quoteChar double)] x = true) body).
  { eapply Forall_impl; [exact Hbody|]. intros c. apply nq_not_class. }
  assert (Hq : in_class true [CChar (quoteChar double)] (quoteChar double) = false).
  { by destruct double. }
  assert (Happ : literalChars double body ++ ";"%char :: post
                 = quoteChar double :: "."%char :: body
                     ++ quoteChar double :: ";"%char :: post).
  { unfold literalChars. simpl. by rewrite <- app_assoc. }
  assert (Htake : take (i + (length body + 3) - i)
                    (literalChars double body ++ ";"%char :: post)
                  = literalChars double body).
  { replace (i + (length body + 3) - i) with (length (literalChars double body)).
    - by rewrite take_app_length.
    - unfold literalChars. simpl. rewrite length_app. simpl. lia. }
  unfold literalThenSemicolon, literalGroup, quoted.
  rewrite matcher_Grp, matcher_Alt.
  set (k := fun rest' i' cs' => matcher (Chr ";") accept rest' i' (<[1 := _]> cs')).
  assert (Hk : k (";"%char :: post) (i + (length body + 3)) cs
               = Some (i + (length body + 4), <[1 := literalChars double body]> cs)).
  { subst k. cbv beta. rewrite matcher_Chr, Htake. unfold accept. do 2 f_equal. lia. }
  rewrite Happ in *. destruct double; cbn [quoteChar] in *.
  - by rewrite (quoted_alternative dq body post k i cs _ Hall Hne Hq Hk).
  - rewrite !matcher_Seq, (matcher_Chr_ne dq sq) by done.
    by rewrite <- !matcher_Seq, (quoted_alternative sq body post k i cs _ Hall Hne Hq Hk).
Qed.

Lemma rep_lazy_here p k rest i cs res :
  k rest i cs = Some res -> rep_lazy p 0 k rest i cs = Some res.
Proof. destruct rest; simpl; by intros ->. Qed.

Lemma rep_lazy_skip p k c rest i cs :
  k (c :: rest) i cs = None -> p c = true ->
  rep_lazy p 0 k (c :: rest) i cs = rep_lazy p 0 k rest (S i) cs.
Proof. simpl. by intros -> ->. Qed.

(** The lazy star goes over the characters that are not quotes and stops
    at the literal. *)
Lemma lazy_scan double body post cs : forall u i,
  Forall (fun c => nq c = true) u ->
  Forall (fun c => nq c = true) body -> body <> [] ->
  rep_lazy anyChar 0 literalThenSemicolon
    (u ++ literalChars double body ++ ";"%char :: post) i cs
  = Some (i + (length u + length body + 4), <[1 := literalChars double body]> cs).
Proof.
  induction u as [|c u IH]; intros i Hu Hbody Hne.
  - cbn [app]. apply rep_lazy_here. by rewrite literalThenSemicolon_literal.
  - apply Forall_cons in Hu as [Hc Hu]. cbn [app].
    rewrite rep_lazy_skip by auto using literalThenSemicolon_nq, anyChar_true.
    rewrite IH by done. simpl. do 2 f_equal. lia.
Qed.

(** Wherever a match of the pattern starts before the literal, with
    nothing but characters that are not quotes in between, it ends after
    the semicolon of the literal, and its group is the literal. *)
Lemma jsImportPattern_sound double body post u i j cs :
  Forall (fun c => nq c = true) u ->
  Forall (fun c => nq c = true) body -> body <> [] ->
  matcher jsImportPattern accept (u ++ literalChars double body ++ ";"%char :: post) i ∅
  = Some (j, cs) ->
  j = i + (length u + length body + 4) /\ cs !! 1 = Some (literalChars double body).
Proof.
  intros Hu Hbody Hne. rewrite jsImportPattern_matcher. intros Hm.
  apply matcher_consumes in Hm as (n & cs' & _ & Hlen & Hall & Hk).
  assert (Hn : n <= length u).
  { destruct (Nat.le_gt_cases n (length u)) as [|Hgt]; [done|exfalso].
    assert (Hq : (u ++ literalChars double body ++ ";"%char :: post) !! length u
                 = Some (quoteChar double)).
    { rewrite lookup_app_r by lia. by rewrite Nat.sub_diag. }
    rewrite <- (lookup_take_lt _ n) in Hq by lia.
    eapply Forall_lookup_1 in Hall; [|exact Hq].
    apply headPattern_nq in Hall. by rewrite nq_quoteChar in Hall. }
  rewrite drop_app_le in Hk by done.
  rewrite lazy_scan in Hk; [|by apply Forall_drop|done|done].
  injection Hk as <- <-. rewrite length_drop, lookup_insert_eq. split; [lia|done].
Qed.

Lemma rep_greedy_is_Some p k cs : forall rest min i,
  (forall n, min <= n -> n <= length rest -> Forall (fun c => p c = true) (take n rest) ->
             is_Some (k (drop n rest) (i + n) cs)) ->
  (exists n, min <= n /\ n <= length rest /\ Forall (fun c => p c = true) (take n rest)) ->
  is_Some (rep_greedy p min k rest i cs).
Proof.
  induction rest as [|c rest IH]; intros min i Hk (n0 & Hmin & Hlen & Hall); simpl in *.
  - assert (min = 0) as -> by lia.
    specialize (Hk 0). rewrite Nat.add_0_r in Hk. apply Hk; [lia|lia|constructor].
  - assert (Hstop : p c = false \/ rep_greedy p (pred min) k rest (S i) cs = None ->
                    min = 0 -> is_Some (k (c :: rest) i cs)).
    { intros _ ->. specialize (Hk 0). rewrite Nat.add_0_r in Hk.
      apply Hk; [lia|lia|constructor]. }
    destruct (p c) eqn:Hp.
    + assert (Hin : is_Some (rep_greedy p (pred min) k rest (S i) cs)).
      { apply IH.
        - intros n H1 H2 H3. specialize (Hk (S n)). rewrite Nat.add_succ_r in Hk.
          apply Hk; [lia|lia|by constructor].
        - destruct n0 as [|n0].
          + exists 0. repeat split; [lia|lia|constructor].
          + exists n0. simpl in Hall. apply Forall_cons in Hall as [_ Hall].
            repeat split; [lia|lia|done]. }
      destruct Hin as [res ->]. eauto.
    + destruct n0 as [|n0]; [|simpl in Hall; apply Forall_cons in Hall as [Hc _]; congruence].
      assert (min = 0) as -> by lia. apply Hstop; auto.
Qed.

Lemma matcher_lit s : forall k rest i cs,
  matcher (lit s) k (list_ascii_of_string s ++ rest) i cs = k rest (i + String.length s) cs.
Proof.
  induction s as [|c s IH]; intros k rest i cs.
  - simpl. by rewrite Nat.add_0_r.
  - destruct s as [|c' s].
    + simpl. by rewrite Ascii.eqb_refl, Nat.add_1_r.
    + change (lit (String c (String c' s))) with (Seq (Chr c) (lit (String c' s))).
      rewrite matcher_Seq. cbn [list_ascii_of_string app]. rewrite matcher_Chr.
      change (c' :: list_ascii_of_string s ++ rest)
        with (list_ascii_of_string (String c' s) ++ rest).
      rewrite IH. f_equal. simpl. lia.
Qed.

(** At the start of the input, or on the CR or LF before the keyword, the
    pattern matches the statement. *)
Lemma jsImportPattern_complete exported w clause double body post start i :
  is_space w = true ->
  Forall (fun c => nq c = true) clause ->
  Forall (fun c => nq c = true) body -> body <> [] ->
  (start = [] /\ i = 0) \/ (exists c, start = [c] /\ (c = cr \/ c = lf)) ->
  is_Some (matcher jsImportPattern accept
             (start ++ keywordChars exported ++ w :: clause
                ++ literalChars double body ++ ";"%char :: post) i ∅).
Proof.
  intros Hw Hclause Hbody Hne Hstart.
  set (tail := clause ++ literalChars double body ++ ";"%char :: post).
  set (kL := rep_lazy anyChar 0 literalThenSemicolon).
  assert (HW : forall i', is_Some (matcher (Rep true 1 false [CSpace]) kL (w :: tail) i' ∅)).
  { intros i'. rewrite matcher_Rep_greedy. apply rep_greedy_is_Some.
    - intros n _ Hlen Hall.
      assert (Hn : n <= length (w :: clause)).
      { destruct (Nat.le_gt_cases n (length (w :: clause))) as [|Hgt]; [done|exfalso].
        assert (Hq : (w :: tail) !! length (w :: clause) = Some (quoteChar double)).
        { subst tail. rewrite app_comm_cons, lookup_app_r by lia.
          by rewrite Nat.sub_diag. }
        rewrite <- (lookup_take_lt _ n) in Hq by lia.
        eapply Forall_lookup_1 in Hall; [|exact Hq].
        by destruct double. }
      subst tail kL. rewrite app_comm_cons, drop_app_le by done.
      rewrite lazy_scan; [done| |done|done].
      apply Forall_drop. constructor; [by apply is_space_nq|done].
    - exists 1. repeat split; [lia|simpl; lia|].
      simpl. constructor; [|constructor]. unfold in_class. simpl. by rewrite Hw. }
  assert (HK : forall i', is_Some (matcher (lit "import" ∣ lit "export")%re
                                      (matcher (Rep true 1 false [CSpace]) kL)
                                      (keywordChars exported ++ w :: tail) i' ∅)).
  { intros i'. rewrite matcher_Alt.
    destruct (matcher (lit "import") _ _ i' ∅) eqn:H1; [eauto|].
    destruct exported; unfold keywordChars in *.
    - rewrite matcher_lit. apply HW.
    - rewrite matcher_lit in H1. destruct (HW (i' + String.length "import")); congruence. }
  rewrite jsImportPattern_matcher. unfold headPattern. rewrite !matcher_Seq.
  fold kL. rewrite matcher_Alt.
  destruct (matcher Bol _ _ i ∅) eqn:H1; [eauto|].
  destruct Hstart as [[-> ->]|(c & -> & Hc)].
  - change (matcher Bol ?k ?r 0 ∅) with (k r 0 ∅) in H1. cbn [app] in H1.
    destruct (HK 0) as [x Hx]. rewrite Hx in H1. discriminate.
  - cbn [app]. rewrite matcher_Class; [apply HK|].
    destruct Hc as [-> | ->]; reflexivity.
Qed.

Lemma keywordChars_nq exported : Forall (fun c => nq c = true) (keywordChars exported).
Proof. destruct exported; repeat constructor. Qed.

Lemma statementChars_split gap exported w clause double body post :
  gap ++ statementChars exported w clause double body ++ post
  = (gap ++ keywordChars exported ++ w :: clause)
      ++ literalChars double body ++ ";"%char :: post.
Proof.
  unfold statementChars. rewrite <- !app_assoc. cbn [app].
  by rewrite <- !app_assoc.
Qed.

Lemma statementChars_length exported w clause double body :
  length (statementChars exported w clause double body)
  = length (keywordChars exported) + S (length clause) + (length body + 4).
Proof.
  unfold statementChars, literalChars.
  repeat (rewrite length_app || cbn [length]). lia.
Qed.

(** From a position in the gap before a statement the search finds the
    statement: the match ends after its semicolon, and the group is its
    literal. *)
Lemma search_first exported w clause double body post :
  is_space w = true ->
  Forall (fun c => nq c = true) clause ->
  Forall (fun c => nq c = true) body -> body <> [] ->
  forall gap i,
    Forall (fun c => nq c = true) gap -> lineStart gap i ->
    exists s,
      search jsImportPattern (gap ++ statementChars exported w clause double body ++ post) i
      = Some (MatchResult s
                (i + (length gap + length (statementChars exported w clause double body)))
                [Some (string_of_list_ascii (literalChars double body))]).
Proof.
  intros Hw Hclause Hbody Hne.
  assert (Hsound : forall gap i j cs,
    Forall (fun c => nq c = true) gap ->
    matcher jsImportPattern accept
      (gap ++ statementChars exported w clause double body ++ post) i ∅ = Some (j, cs) ->
    Some (MatchResult i j (groups jsImportPattern cs))
    = Some (MatchResult i
              (i + (length gap + length (statementChars exported w clause double body)))
              [Some (string_of_list_ascii (literalChars double body))])).
  { intros gap i j cs Hgap Hm. rewrite statementChars_split in Hm.
    assert (Hu : Forall (fun c => nq c = true) (gap ++ keywordChars exported ++ w :: clause)).
    { apply Forall_app. split; [done|]. apply Forall_app. split; [apply keywordChars_nq|].
      constructor; [by apply is_space_nq|done]. }
    apply jsImportPattern_sound in Hm as [-> Hcs]; [|done..].
    change (groups jsImportPattern cs) with [string_of_list_ascii <$> cs !! 1].
    rewrite Hcs. simpl. do 2 f_equal.
    rewrite statementChars_length. repeat (rewrite length_app || cbn [length]). lia. }
  induction gap as [|c gap IH]; intros i Hgap Hstart; rewrite search_unfold.
  - destruct Hstart as [[_ ->]|(g & c & Hg & _)]; [|by destruct g].
    destruct (jsImportPattern_complete exported w clause double body post [] 0)
      as [[j cs] Hm]; auto.
    unfold statementChars. rewrite <- !app_assoc. cbn [app] in *.
    rewrite <- !app_assoc. cbn [app]. rewrite Hm.
    exists 0. apply (Hsound [] 0 j cs); [done|].
    unfold statementChars. rewrite <- !app_assoc. cbn [app].
    by rewrite <- !app_assoc.
  - destruct (matcher jsImportPattern accept _ i ∅) as [[j cs]|] eqn:Hm.
    + exists i. by apply Hsound.
    + destruct Hstart as [[? _]|(g & c0 & Hg & Hc0)]; [done|].
      apply Forall_cons in Hgap as [_ Hgap].
      destruct gap as [|c' gap].
      * destruct g as [|? [|? ?]]; try discriminate. injection Hg as ->.
        destruct (jsImportPattern_complete exported w clause double body post [c0] i)
          as [x Hx]; eauto.
        unfold statementChars in Hm. rewrite <- !app_assoc in Hm. cbn [app] in *.
        rewrite <- !app_assoc in Hm. cbn [app] in Hm. congruence.
      * cbn [app]. destruct (IH (S i) Hgap) as [s Hs].
        { right. destruct g as [|x g]; [discriminate|]. injection Hg as -> Hg.
          eauto. }
        exists s. cbn [app] in Hs. rewrite Hs. do 2 f_equal. simpl. lia.
Qed.

(** ** Import statements in a file *)

Lemma literal_chars s :
  list_ascii_of_string (literal s)
  = literalChars (double s) (list_ascii_of_string (target s)).
Proof.
  unfold literal, literalChars. cbn [list_ascii_of_string].
  change ("." +:+ ?x) with (String "." x). cbn [list_ascii_of_string].
  by rewrite list_ascii_of_string_app.
Qed.

Lemma statementText_chars s :
  list_ascii_of_string (statementText s)
  = statementChars (exported s) (space s) (list_ascii_of_string (clause s)) (double s)
      (list_ascii_of_string (target s)).
Proof.
  unfold statementText, statementChars, keywordChars.
  rewrite list_ascii_of_string_app. cbn [list_ascii_of_string].
  by rewrite !list_ascii_of_string_app, literal_chars.
Qed.

Lemma string_length_chars s : String.length s = length (list_ascii_of_string s).
Proof. induction s; simpl; auto. Qed.

Lemma literal_string s :
  string_of_list_ascii (literalChars (double s) (list_ascii_of_string (target s)))
  = literal s.
Proof. by rewrite <- literal_chars, string_of_list_ascii_of_string. Qed.

Lemma startsLine_lineStart first gap i :
  startsLine first gap -> (first = true -> i = 0) ->
  lineStart (list_ascii_of_string gap) i.
Proof.
  intros [[Hf ->]|(g & c & -> & Hc)] Hi.
  - left. auto.
  - right. exists (list_ascii_of_string g), c. by rewrite list_ascii_of_string_app.
Qed.

Lemma target_chars_nonempty s : target s <> "" -> list_ascii_of_string (target s) <> [].
Proof. by destruct (target s). Qed.

Lemma truthy_literal s : truthy (literal s) = true.
Proof. reflexivity. Qed.

(** The first statement of a block is what [exec] finds from the start
    of the text before it. *)
Lemma exec_block_head pre gap s rest first :
  quoteFree gap -> startsLine first gap -> wellFormedStatement s ->
  (first = true -> pre = "") ->
  exists start,
    Regex.exec jsImportPattern (pre +:+ gap +:+ statementText s +:+ rest) (String.length pre)
    = Some (MatchResult start (String.length (pre +:+ gap +:+ statementText s))
              [Some (literal s)]).
Proof.
  intros Hgap Hstart (Hw & Hclause & Hbody & Hne) Hfirst. unfold Regex.exec.
  rewrite !list_ascii_of_string_app, statementText_chars, string_length_chars.
  match goal with
  | |- context [Nat.ltb ?a ?b] => destruct (Nat.ltb_spec a b) as [Hlt|_]
  end.
  { rewrite length_app in Hlt. lia. }
  rewrite drop_app_length.
  destruct (search_first (exported s) (space s) (list_ascii_of_string (clause s))
              (double s) (list_ascii_of_string (target s)) (list_ascii_of_string rest)
              Hw Hclause Hbody (target_chars_nonempty s Hne)
              (list_ascii_of_string gap) (length (list_ascii_of_string pre)) Hgap)
    as [start ->].
  { apply (startsLine_lineStart first); [done|]. intros Hf. by rewrite (Hfirst Hf). }
  exists start. rewrite literal_string. do 2 f_equal.
  rewrite !string_length_chars, !list_ascii_of_string_app, !length_app, statementText_chars.
  lia.
Qed.

Lemma string_length_app (s t : string) :
  String.length (s +:+ t) = String.length s + String.length t.
Proof. rewrite !string_length_chars, list_ascii_of_string_app. apply length_app. Qed.

Lemma statementText_length s : 1 <= String.length (statementText s).
Proof. unfold statementText. rewrite string_length_app. destruct (exported s); simpl; lia. Qed.

(** From the start of a block the loop over the matches yields the
    literals of its statements, in order, and then what it finds in the
    rest of the content. *)
Lemma execLoop_block post : forall block pre first fuel,
  wellFormedBlock first block ->
  (first = true -> pre = "") ->
  String.length (blockText block +:+ post) <= fuel ->
  exists later,
    execLoop fuel jsImportPattern (pre +:+ blockText block +:+ post) (String.length pre)
    = Some (map (fun gs => literal (snd gs)) block ++ later).
Proof.
  induction block as [|[gap s] block IH]; intros pre first fuel Hwf Hfirst Hfuel.
  - simpl map. apply execLoop_total; [simpl; lia| |].
    + rewrite string_length_app. lia.
    + rewrite string_length_app. lia.
  - destruct Hwf as (Hgap & Hstart & Hs & Hwf). cbn [blockText] in *.
    rewrite !string_app_assoc in *.
    destruct (exec_block_head pre gap s (blockText block +:+ post) first)
      as [start Hexec]; auto.
    rewrite !string_length_app in Hfuel.
    pose proof (statementText_length s) as Hlen.
    destruct fuel as [|fuel]; [lia|]. cbn [execLoop]. rewrite Hexec. cbn [m_end m_groups].
    destruct (Nat.leb_spec (String.length (pre +:+ gap +:+ statementText s))
                (String.length pre)) as [Hle|_].
    { rewrite !string_length_app in Hle. lia. }
    destruct (IH (pre +:+ gap +:+ statementText s) false fuel Hwf) as [later Hlater].
    { done. }
    { rewrite string_length_app. lia. }
    rewrite !string_app_assoc in Hlater. rewrite Hlater.
    exists later. reflexivity.
Qed.

Lemma unwrapQuotesPattern_end i : search unwrapQuotesPattern [] i = None.
Proof. reflexivity. Qed.

(** The second pattern, on a literal, yields what is between the quotes,
    for either kind of quote. *)
Lemma exec_unwrap s :
  quoteFree (target s) -> target s <> "" ->
  exists gs,
    Regex.exec unwrapQuotesPattern (literal s) 0
    = Some (MatchResult 0 (String.length (literal s)) gs)
    /\ omap truthyGroup gs = [reference s].
Proof.
  intros Hbody Hne. unfold Regex.exec. rewrite literal_chars.
  set (body := list_ascii_of_string (target s)).
  assert (Hlen : String.length (literal s) = length body + 3).
  { rewrite string_length_chars, literal_chars. unfold literalChars. cbn [length].
    rewrite length_app. simpl. fold body. lia. }
  rewrite Hlen. cbn [Nat.ltb Nat.leb]. rewrite search_unfold.
  assert (Hall : Forall (fun x => in_class true [CChar (quoteChar (double s))] x = true)
                   ("."%char :: body)).
  { constructor; [by destruct (double s)|].
    eapply Forall_impl; [exact Hbody|]. intros c. apply nq_not_class. }
  assert (Hq : in_class true [CChar (quoteChar (double s))] (quoteChar (double s)) = false).
  { by destruct (double s). }
  assert (Hm : exists n,
    (n = 1 /\ double s = true \/ n = 2 /\ double s = false)
    /\ matcher unwrapQuotesPattern accept (literalChars (double s) body) 0 ∅
       = Some (length body + 3, <[n := "."%char :: body]> ∅)).
  { unfold unwrapQuotesPattern, literalChars. rewrite matcher_Alt.
    assert (Hone : forall n,
      matcher (Chr (quoteChar (double s))
               ⋅ Grp n (Rep true 1 true [CChar (quoteChar (double s))])
               ⋅ Chr (quoteChar (double s)))%re accept
        (quoteChar (double s) :: ("."%char :: body) ++ [quoteChar (double s)]) 0 ∅
      = Some (length body + 3, <[n := "."%char :: body]> ∅)).
    { intros n. rewrite !matcher_Seq, matcher_Chr, matcher_Grp, matcher_Rep_greedy.
      apply rep_greedy_stop; [exact Hall|exact Hq|simpl; lia|].
      rewrite matcher_Chr. unfold accept.
      replace (1 + length ("."%char :: body) - 1) with (length ("."%char :: body)) by lia.
      rewrite take_app_length. do 2 f_equal. simpl. lia. }
    destruct (double s) eqn:Hd; cbn [quoteChar] in *.
    - exists 1. split; [auto|]. cbn [app] in Hone. by rewrite (Hone 1).
    - exists 2. split; [auto|].
      rewrite !matcher_Seq, (matcher_Chr_ne dq sq) by done.
      rewrite <- !matcher_Seq. cbn [app] in Hone. by rewrite (Hone 2). }
  rewrite drop_0. destruct Hm as (n & Hn & ->).
  assert (Href : string_of_list_ascii ("."%char :: body) = reference s).
  { unfold reference, body. simpl. by rewrite string_of_list_ascii_of_string. }
  eexists. split; [reflexivity|].
  change (groups unwrapQuotesPattern ?cs)
    with [string_of_list_ascii <$> cs !! 1; string_of_list_ascii <$> cs !! 2].
  destruct Hn as [[-> _]|[-> _]];
    rewrite lookup_insert_eq, lookup_insert_ne, lookup_empty by done;
    cbn [fmap option_fmap option_map]; rewrite Href; reflexivity.
Qed.

Lemma execLoop_None fuel r input lastIndex :
  Regex.exec r input lastIndex = None -> execLoop fuel r input lastIndex = Some [].
Proof. intros H. destruct fuel; simpl; by rewrite H. Qed.

Lemma execLoop_unwrap s :
  quoteFree (target s) -> target s <> "" ->
  execLoop (String.length (literal s)) unwrapQuotesPattern (literal s) 0
  = Some [reference s].
Proof.
  intros Hbody Hne. destruct (exec_unwrap s Hbody Hne) as (gs & Hexec & Hgs).
  assert (Hend : forall fuel, execLoop fuel unwrapQuotesPattern (literal s)
                                (String.length (literal s)) = Some []).
  { intros fuel. apply execLoop_None. unfold Regex.exec.
    rewrite string_length_chars, Nat.ltb_irrefl, drop_all.
    apply unwrapQuotesPattern_end. }
  assert (Hpos : 1 <= String.length (literal s)) by (unfold literal; simpl; lia).
  remember (String.length (literal s)) as L eqn:HL.
  destruct L as [|L]; [lia|]. cbn [execLoop]. rewrite Hexec. cbn [m_end m_groups Nat.leb].
  by rewrite Hend, Hgs.
Qed.

Lemma wellFormedBlock_elem block : forall first gs,
  wellFormedBlock first block -> gs ∈ block -> wellFormedStatement (snd gs).
Proof.
  induction block as [|[gap s] block IH]; intros first gs Hwf Hin.
  - by apply elem_of_nil in Hin.
  - destruct Hwf as (_ & _ & Hs & Hwf).
    apply elem_of_cons in Hin as [->|Hin]; [done|]. eapply IH; eauto.
Qed.

Lemma unwrap_stage_total inputs :
  is_Some (findDependencyReferences inputs (ParserRe unwrapQuotesPattern)).
Proof.
  unfold findDependencyReferences. apply fmap_is_Some, mapM_is_Some, Forall_forall.
  intros input _. simpl.
  destruct (execLoop_total unwrapQuotesPattern ltac:(simpl; lia)
              (String.length input) input 0) as [out ->]; [lia|lia|eauto].
Qed.

Lemma unwrap_stage_cons s inputs out :
  quoteFree (target s) -> target s <> "" ->
  findDependencyReferences inputs (ParserRe unwrapQuotesPattern) = Some out ->
  findDependencyReferences (literal s :: inputs) (ParserRe unwrapQuotesPattern)
  = Some (reference s :: out).
Proof.
  intros Hbody Hne. unfold findDependencyReferences. cbn [mapM].
  rewrite execLoop_unwrap by done.
  destruct (mapM _ inputs) as [k|]; [|done]. simpl. by intros [= <-].
Qed.

Lemma unwrap_stage_block later : forall block first,
  wellFormedBlock first block ->
  exists others,
    findDependencyReferences (map (fun gs => literal (snd gs)) block ++ later)
      (ParserRe unwrapQuotesPattern)
    = Some (map (fun gs => reference (snd gs)) block ++ others).
Proof.
  induction block as [|[gap s] block IH]; intros first Hwf.
  - simpl. apply unwrap_stage_total.
  - destruct Hwf as (_ & _ & (_ & _ & Hbody & Hne) & Hwf).
    destruct (IH false Hwf) as [others Hothers]. exists others.
    cbn [map app snd]. by apply unwrap_stage_cons.
Qed.

(** C8. The claim is that the first stage matches any import or export
    statement that refers to a relative path literal closed by a
    semicolon; the comment above the pattern says the same of any such
    statement that is not commented out. The pattern takes the keyword at
    the start of the content or directly after a CR or LF only. Here the
    statement comes after a space: the first stage finds no match, the
    pipeline no reference, and the call on the file returns the empty set,
    where the same statement at the start of the line gives [a.js]. *)
Theorem indented_import_not_matched :
  wellFormedStatement indentedStatement
  /\ statementText indentedStatement = "import x from './a';"
  /\ findDependencyReferences [" " +:+ statementText indentedStatement]
       (ParserRe jsImportPattern) = Some []
  /\ extract (parsers jsSearchConfig) (" " +:+ statementText indentedStatement) = Some []
  /\ fst (getDependencies defaultSearchConfig (indentedEnv true) 5 "/p/main.js" initial)
     = Returns ∅
  /\ fst (getDependencies defaultSearchConfig (indentedEnv false) 5 "/p/main.js" initial)
     = Returns {["/p/a.js"]}.
Proof.
  split; [|repeat split; vm_compute; reflexivity].
  repeat split; try reflexivity; try discriminate; repeat constructor.
Qed.

(** Statements at the start of their lines are found. Let the content
    begin with a run of [import] and [export] statements, each at the
    start of the content or of a line (directly after a CR or LF), with a
    white space character after the keyword, with no quote character
    between that and its literal nor in the text before the statement, and
    with a literal that starts with a dot, has one more character at least
    and no quote character inside, and is followed at once by a semicolon.
    Then the first stage yields the quoted literals of these statements,
    in order, before anything it finds in the rest of the content; the
    second stage turns each such literal, in double or in single quotes,
    into the text between the quotes; and the pipeline yields the
    references of the statements, in order. *)
Theorem import_block_extracted block rest :
  wellFormedBlock true block ->
  (exists later,
      findDependencyReferences [blockText block +:+ rest] (ParserRe jsImportPattern)
      = Some (map (fun gs => literal (snd gs)) block ++ later))
  /\ (forall gs, gs ∈ block ->
      findDependencyReferences [literal (snd gs)] (ParserRe unwrapQuotesPattern)
      = Some [reference (snd gs)])
  /\ (exists others,
      extract (parsers jsSearchConfig) (blockText block +:+ rest)
      = Some (map (fun gs => reference (snd gs)) block ++ others)).
Proof.
  intros Hwf.
  destruct (execLoop_block rest block "" true (String.length (blockText block +:+ rest)))
    as [later Hlater]; [done|done|lia|].
  change ("" +:+ ?x) with x in Hlater. change (String.length "") with 0 in Hlater.
  assert (H1 : findDependencyReferences [blockText block +:+ rest] (ParserRe jsImportPattern)
               = Some (map (fun gs => literal (snd gs)) block ++ later)).
  { unfold findDependencyReferences. cbn [mapM]. rewrite Hlater. simpl.
    by rewrite app_nil_r. }
  split; [eauto|]. split.
  - intros gs Hgs. destruct (wellFormedBlock_elem _ _ _ Hwf Hgs) as (_ & _ & Hbody & Hne).
    apply unwrap_stage_cons; [done|done|reflexivity].
  - destruct (unwrap_stage_block later block true Hwf) as [others Hothers].
    exists others. unfold extract. cbn [parsers jsSearchConfig fold_left].
    cbn [mbind option_bind]. rewrite H1. cbn [mbind option_bind]. exact Hothers.
Qed.

Lemma import_block_extracted_witness :
  exists others,
    extract (parsers jsSearchConfig) (blockText sampleBlock +:+ "
const answer = 42;")
    = Some (["./util"; "./helpers.mjs"] ++ others).
Proof.
  apply (import_block_extracted sampleBlock).
  repeat split; try reflexivity; try discriminate; try (by repeat constructor);
    try (by left).
  right. exists "
// helpers", lf. split; [reflexivity|by right].
Defined.

(** ** Tables that only grow *)

Lemma extends_refl st : extends st st.
Proof. by split. Qed.

Lemma extends_trans st1 st2 st3 : extends st1 st2 -> extends st2 st3 -> extends st1 st3.
Proof. intros [H1 H2] [H3 H4]. split; eauto. Qed.

Lemma cachedReferences_fun e st g deps deps' :
  cachedReferences e st g deps -> cachedReferences e st g deps' -> deps = deps'.
Proof. intros (s & Hs & Hd) (s' & Hs' & Hd'). congruence. Qed.

Lemma cachedReferences_extends e st st' g deps :
  extends st st' -> cachedReferences e st g deps -> cachedReferences e st' g deps.
Proof. intros [H _] (s & Hs & Hd). exists s. auto. Qed.

Lemma edgeVia_extends e st st' g dep v :
  extends st st' -> edgeVia e st g dep v -> edgeVia e st' g dep v.
Proof.
  intros Hext (deps & Hd & Hin & Hrc). exists deps.
  split; [by eapply cachedReferences_extends|]. split; [done|]. by apply Hext.
Qed.

Lemma reaches_extends e st st' g w :
  extends st st' -> reaches e st g w -> reaches e st' g w.
Proof.
  intros Hext. induction 1 as [g dep v H|g dep v w H _ IH].
  - eapply reaches_edge, edgeVia_extends; eauto.
  - eapply reaches_step; [eapply edgeVia_extends; eauto|done].
Qed.

Lemma reaches_trans e st g v w :
  reaches e st g v -> reaches e st v w -> reaches e st g w.
Proof.
  induction 1 as [g dep v H|g dep v u H _ IH]; intros Hw.
  - eapply reaches_step; eauto.
  - eapply reaches_step; eauto.
Qed.

Lemma saturated_extends cfg e st st' g :
  extends st st' -> saturated cfg e st g -> saturated cfg e st' g.
Proof.
  intros Hext (deps & Hd & Hsat). exists deps.
  split; [by eapply cachedReferences_extends|].
  intros dep Hin Hnone. apply Hsat; [done|].
  destruct (resolverCache st !! candidate e g dep) as [v|] eqn:Hrc; [|done].
  apply Hext in Hrc. congruence.
Qed.

(** A call extends the tables and keeps the values truthy. *)
Section Growth.
Context (cfg : gmap string languageConfig) (e : Fs.env) (st0 : state).

Lemma grown_logCall f st : grown st0 st -> grown st0 (logCall f st).
Proof. done. Qed.

Lemma grown_logRead f st : grown st0 st -> grown st0 (logRead f st).
Proof. done. Qed.

Lemma grown_logResolve k st : grown st0 st -> grown st0 (logResolve k st).
Proof. done. Qed.

Lemma grown_setDependencies key deps st :
  dependencyCache st !! key = None ->
  grown st0 st -> grown st0 (setDependencies key deps st).
Proof.
  intros Hnone [[H1 H2] H3]. split; [split|]; try done. simpl. intros k d Hk.
  rewrite lookup_insert_ne; [by apply H1|]. intros <-. apply H1 in Hk. congruence.
Qed.

Lemma grown_setResolved k v st :
  (forall w, resolverCache st !! k = Some w -> truthy w = false) -> truthy v = true ->
  grown st0 st -> grown st0 (setResolved k v st).
Proof.
  intros Hnone Hv [[H1 H2] H3]. split; [split|]; try done; simpl.
  - intros k' v' Hk. rewrite lookup_insert_ne; [by apply H2|].
    intros <-. apply H2 in Hk. pose proof (H3 _ _ Hk). pose proof (Hnone _ Hk). congruence.
  - intros k' v'. simpl. destruct (decide (k = k')) as [<-|Hne].
    + rewrite lookup_insert_eq. by intros [= <-].
    + rewrite lookup_insert_ne by done. apply H3.
Qed.

Lemma grown_references f st :
  grown st0 st -> grown st0 (snd (references e (parsers (configFor cfg f)) f st)).
Proof.
  apply (references_inv cfg e (grown st0)); [done|].
  intros f' s content deps st' HI _ Hnone _ _.
  by apply grown_setDependencies.
Qed.

Lemma grown_dependencyOf f dep st :
  grown st0 st ->
  grown st0 (snd (dependencyOf e (resolvers (configFor cfg f)) (candidate e f dep) st)).
Proof.
  intros HI.
  apply (dependencyOf_inv cfg e (grown st0) (fun _ => True)); try done.
  intros f' dep' v st' HI' Hnone Hres. split; [|done].
  apply grown_setResolved; [done|by eapply resolveDependencyReference_truthy|done].
Qed.

Lemma grown_call depth f st :
  grown st0 st -> grown st0 (snd (getDependencies cfg e depth f st)).
Proof.
  intros HI.
  apply (getDependencies_inv cfg e (grown st0) (fun _ => True)); try done.
  - intros f' s content deps st' HI' _ Hnone _ _. by apply grown_setDependencies.
  - intros f' dep' v st' HI' Hnone Hres. split; [|done].
    apply grown_setResolved; [done|by eapply resolveDependencyReference_truthy|done].
Qed.
End Growth.

Lemma call_extends cfg e depth f st :
  truthyTable st ->
  extends st (snd (getDependencies cfg e depth f st))
  /\ truthyTable (snd (getDependencies cfg e depth f st)).
Proof. intros Hwf. apply (grown_call cfg e st). split; [apply extends_refl|done]. Qed.

Lemma references_extends cfg e f st :
  truthyTable st ->
  extends st (snd (references e (parsers (configFor cfg f)) f st))
  /\ truthyTable (snd (references e (parsers (configFor cfg f)) f st)).
Proof. intros Hwf. apply (grown_references cfg e st). split; [apply extends_refl|done]. Qed.

Lemma dependencyOf_extends cfg e f dep st :
  truthyTable st ->
  extends st (snd (dependencyOf e (resolvers (configFor cfg f)) (candidate e f dep) st))
  /\ truthyTable (snd (dependencyOf e (resolvers (configFor cfg f)) (candidate e f dep) st)).
Proof. intros Hwf. apply (grown_dependencyOf cfg e st). split; [apply extends_refl|done]. Qed.

Lemma truthyTable_after history : truthyTable (after history).
Proof.
  induction history as [|c history IH] using rev_ind.
  - intros k v. unfold after. simpl. by rewrite lookup_empty.
  - rewrite after_snoc. by apply call_extends.
Qed.

(** ** What a call that returns leaves behind *)

Section Summary.
Context (cfg : gmap string languageConfig) (e : Fs.env).

Lemma forEachDependency_summary depth st0 f deps :
  (forall g st X st', truthyTable st ->
      getDependencies cfg e depth g st = (Returns X, st') -> summary cfg e st g X st') ->
  forall rest (seen : string -> Prop) R st X st',
    truthyTable st -> extends st0 st -> cachedReferences e st f deps ->
    (forall dep, dep ∈ rest -> dep ∈ deps) ->
    partialSummary cfg e st0 f R st ->
    (forall dep, seen dep -> settled cfg e st0 f R st dep) ->
    forEachDependency (getDependencies cfg e depth) e (Path.dirname f)
      (resolvers (configFor cfg f)) rest R st = (Returns X, st') ->
    partialSummary cfg e st0 f X st'
    /\ (forall dep, seen dep \/ dep ∈ rest -> settled cfg e st0 f X st' dep)
    /\ extends st st' /\ truthyTable st'.
Proof.
  intros Hrec. induction rest as [|d rest IH];
    intros seen R st X st' Hwf Hext0 Hrefs Hsub Hpart Hseen Hloop.
  - simpl in Hloop. injection Hloop as <- <-.
    split; [done|]. split; [|split; [apply extends_refl|done]].
    intros dep [Hd|Hd]; [auto|by apply elem_of_nil in Hd].
  - cbn [forEachDependency] in Hloop. fold (candidate e f d) in Hloop.
    destruct (dependencyOf_extends cfg e f d st Hwf) as [Hext1 Hwf1].
    destruct (dependencyOf e _ (candidate e f d) st) as [o st1] eqn:Hdep.
    simpl in Hext1, Hwf1.
    apply dependencyOf_state in Hdep as (Hdc1 & _ & _ & Ho).
    destruct Hpart as (L1 & L2 & L3 & L5).
    assert (Hrefs1 : cachedReferences e st1 f deps)
      by (by eapply cachedReferences_extends).
    destruct o as [v|].
    + destruct Ho as (Hv & Hk & Hrc1).
      destruct (call_extends cfg e depth v st1 Hwf1) as [Hext2 Hwf2].
      destruct (getDependencies cfg e depth v st1) as [[Xv| |] st2] eqn:Hcall;
        try discriminate.
      simpl in Hext2, Hwf2.
      destruct (Hrec v st1 Xv st2 Hwf1 Hcall) as (S1 & S2 & S3 & S4).
      assert (Hext12 : extends st st2) by (by eapply extends_trans).
      assert (Hk2 : resolverCache st2 !! candidate e f d = Some v) by (by apply Hext2).
      destruct (IH (fun dep => seen dep \/ dep = d) (R ∪ {[v]} ∪ Xv) st2 X st')
        as (P & Q & Hext3 & Hwf3); try done.
      * by eapply extends_trans.
      * by eapply cachedReferences_extends.
      * intros dep Hin. apply Hsub. by apply list_elem_of_further.
      * split; [|split; [|split]].
        -- intros k w Hw. apply S1 in Hw as [Hw|Hw]; [|set_solver].
           destruct Hrc1 as [[Hrc1 _]|(_ & Hrc1 & _)]; rewrite Hrc1 in Hw.
           ++ apply L1 in Hw as [Hw|Hw]; [by left|set_solver].
           ++ destruct (decide (candidate e f d = k)) as [<-|Hne].
              ** rewrite lookup_insert_eq in Hw. injection Hw as <-. set_solver.
              ** rewrite lookup_insert_ne in Hw by done.
                 apply L1 in Hw as [Hw|Hw]; [by left|set_solver].
        -- intros g Hg. apply elem_of_union in Hg as [Hg|Hg]; [|apply S2; by right].
           apply elem_of_union in Hg as [Hg|Hg].
           ++ eapply saturated_extends; [exact Hext12|by apply L2].
           ++ apply elem_of_singleton in Hg as ->. apply S2. by left.
        -- intros g deps' dep w Hg Hd' Hin Hw.
           apply elem_of_union in Hg as [Hg|Hg].
           ++ apply elem_of_union in Hg as [Hg|Hg].
              ** destruct (L2 g Hg) as (deps'' & Hd'' & _).
                 assert (deps'' = deps') as ->.
                 { eapply cachedReferences_fun; [|exact Hd'].
                   by eapply cachedReferences_extends. }
                 pose proof (L3 g deps' dep w Hg Hd'' Hin Hw). set_solver.
              ** apply elem_of_singleton in Hg as ->.
                 assert (w ∈ Xv); [|set_solver].
                 eapply (S3 v deps' dep w); auto. apply Hext1, Hext0, Hw.
           ++ assert (w ∈ Xv); [|set_solver].
              eapply (S3 g deps' dep w); auto. apply Hext1, Hext0, Hw.
        -- intros w Hw. apply elem_of_union in Hw as [Hw|Hw].
           ++ apply elem_of_union in Hw as [Hw|Hw].
              ** eapply reaches_extends; [exact Hext12|by apply L5].
              ** apply elem_of_singleton in Hw as ->.
                 apply (reaches_edge e st2 f d v). exists deps.
                 split; [by eapply cachedReferences_extends|].
                 split; [apply Hsub, list_elem_of_here|done].
           ++ apply (reaches_step e st2 f d v w); [|by apply S4].
              exists deps. split; [by eapply cachedReferences_extends|].
              split; [apply Hsub, list_elem_of_here|done].
      * intros dep [Hd| ->].
        -- destruct (Hseen dep Hd) as [H1 H2]. split.
           ++ intros Hnone. apply H1.
              destruct (resolverCache st !! candidate e f dep) as [w|] eqn:Hw; [|done].
              apply Hext12 in Hw. congruence.
           ++ intros w Hw. pose proof (H2 w Hw). set_solver.
        -- split; [congruence|].
           intros w Hw. apply Hext0, Hext12 in Hw. rewrite Hk2 in Hw.
           injection Hw as <-. set_solver.
      * split; [done|]. split; [|split; [by eapply extends_trans|done]].
        intros dep [Hd|Hd]; apply Q; [by left; left|].
        apply elem_of_cons in Hd as [->|Hd]; [left; by right|by right].
    + destruct Ho as (Hrc1 & _ & Hres & Hfalsy).
      assert (Hnone : resolverCache st !! candidate e f d = None).
      { destruct (resolverCache st !! candidate e f d) as [w|] eqn:Hw; [|done].
        pose proof (Hwf _ _ Hw). pose proof (Hfalsy _ eq_refl). congruence. }
      destruct (IH (fun dep => seen dep \/ dep = d) R st1 X st')
        as (P & Q & Hext3 & Hwf3); try done.
      * by eapply extends_trans.
      * intros dep Hin. apply Hsub. by apply list_elem_of_further.
      * split; [|split; [|split]].
        -- intros k w. rewrite Hrc1. apply L1.
        -- intros g Hg. eapply saturated_extends; [exact Hext1|by apply L2].
        -- intros g deps' dep w Hg (s & Hs & Hd'). rewrite Hdc1 in Hd'.
           apply (L3 g deps' dep w Hg). by exists s.
        -- intros w Hw. eapply reaches_extends; [exact Hext1|by apply L5].
      * intros dep [Hd| ->].
        -- destruct (Hseen dep Hd) as [H1 H2]. split; [|done]. by rewrite Hrc1.
        -- split; [done|]. intros w Hw. apply Hext0 in Hw. congruence.
      * split; [done|]. split; [|split; [by eapply extends_trans|done]].
        intros dep [Hd|Hd]; apply Q; [by left; left|].
        apply elem_of_cons in Hd as [->|Hd]; [left; by right|by right].
Qed.

Lemma call_summary depth : forall f st X st',
  truthyTable st ->
  getDependencies cfg e depth f st = (Returns X, st') -> summary cfg e st f X st'.
Proof.
  induction depth as [|depth IH]; intros f st X st' Hwf Hcall; [discriminate|].
  rewrite getDependencies_S in Hcall.
  destruct (references_extends cfg e f (logCall f st) Hwf) as [Hext1 Hwf1].
  destruct (references e _ f (logCall f st)) as [[deps| |] st1] eqn:Hrefs;
    try discriminate.
  simpl in Hext1, Hwf1.
  apply references_state in Hrefs as (_ & Hrc1 & _ & _ & s & Hstat & Hdc1 & _).
  assert (Hcached : cachedReferences e st1 f deps) by (by exists s).
  destruct (forEachDependency_summary depth st f deps IH deps (fun _ => False) ∅ st1 X st')
    as ((L1 & L2 & L3 & L5) & Q & Hext2 & Hwf2); try done.
  - split; [|split; [|split]]; try (intros; set_solver).
    intros k v. rewrite Hrc1. by left.
  - split; [done|]. split; [|split; [|done]].
    + intros g [->|Hg]; [|by apply L2].
      exists deps. split; [by eapply cachedReferences_extends|].
      intros dep Hin. apply Q. by right.
    + intros g deps' dep v [->|Hg] Hd Hin Hv; [|by eapply L3].
      assert (deps' = deps) as ->.
      { eapply cachedReferences_fun; [exact Hd|]. by eapply cachedReferences_extends. }
      by apply (Q dep (or_intror Hin)).
Qed.
End Summary.

(** ** The order of the calls *)

Lemma stamp_le log g : stamp log g <= length log.
Proof. induction log as [|x l IH]; simpl; [lia|]. case_decide; lia. Qed.

Lemma stamp_app l log g : stamp log g <= stamp (l ++ log) g.
Proof.
  induction l as [|x l IH]; simpl; [lia|]. case_decide; [|done].
  pose proof (stamp_le log g). rewrite length_app. lia.
Qed.

Lemma stamp_app_called l log g : length log < stamp (l ++ g :: log) g.
Proof.
  induction l as [|x l IH]; simpl.
  - rewrite decide_True by done. lia.
  - case_decide; [|done]. rewrite length_app. simpl. lia.
Qed.

Lemma stampOf_le st g : stampOf st g <= now st.
Proof. apply stamp_le. Qed.

Lemma later_refl st : later st st.
Proof. by exists []. Qed.

Lemma later_trans st1 st2 st3 : later st1 st2 -> later st2 st3 -> later st1 st3.
Proof. intros [l1 H1] [l2 H2]. exists (l2 ++ l1). by rewrite H2, H1, app_assoc. Qed.

Lemma later_stampOf st st' g : later st st' -> stampOf st g <= stampOf st' g.
Proof. intros [l H]. unfold stampOf. rewrite H. apply stamp_app. Qed.

Lemma later_now st st' : later st st' -> now st <= now st'.
Proof. intros [l H]. unfold now. rewrite H, length_app. lia. Qed.

Lemma later_same st st' : callLog st' = callLog st -> later st st'.
Proof. intros H. exists []. by rewrite H. Qed.

Lemma later_call cfg e depth f st : later st (snd (getDependencies cfg e depth f st)).
Proof.
  apply (getDependencies_inv cfg e (later st) (fun _ => True)); try done.
  - intros g st' [l H]. exists (g :: l). simpl. by rewrite H.
  - apply later_refl.
Qed.

Section Order.
Context (cfg : gmap string languageConfig) (e : Fs.env).

Lemma edgeVia_tables st st' g dep v :
  dependencyCache st' = dependencyCache st -> resolverCache st' = resolverCache st ->
  edgeVia e st' g dep v -> edgeVia e st g dep v.
Proof.
  intros Hdc Hrc (deps & (s & Hs & Hd) & Hin & Hv). rewrite Hdc in Hd. rewrite Hrc in Hv.
  exists deps. split; [by exists s|done].
Qed.

Lemma forEachDependency_ordered depth st0 f deps base pending :
  (forall g st X st' base pending,
      truthyTable st -> ordered e st base pending st ->
      getDependencies cfg e depth g st = (Returns X, st') ->
      ordered e st' base pending st
      /\ now st < stampOf st' g /\ (forall w, w ∈ X -> now st < stampOf st' w)) ->
  forall rest R st X st',
    truthyTable st -> cachedReferences e st f deps ->
    later (logCall f st0) st ->
    orderedLoop e st0 f base pending rest st ->
    (forall w, w ∈ R -> now st0 < stampOf st w) ->
    forEachDependency (getDependencies cfg e depth) e (Path.dirname f)
      (resolvers (configFor cfg f)) rest R st = (Returns X, st') ->
    orderedLoop e st0 f base pending [] st'
    /\ (forall w, w ∈ X -> now st0 < stampOf st' w)
    /\ later st st'.
Proof.
  intros Hrec. induction rest as [|d rest IH];
    intros R st X st' Hwf Hrefs Hlater Hord HR Hloop.
  - simpl in Hloop. injection Hloop as <- <-. split; [done|]. split; [done|apply later_refl].
  - cbn [forEachDependency] in Hloop. fold (candidate e f d) in Hloop.
    destruct (dependencyOf_extends cfg e f d st Hwf) as [Hext1 Hwf1].
    destruct (dependencyOf e _ (candidate e f d) st) as [o st1] eqn:Hdep.
    simpl in Hext1, Hwf1.
    apply dependencyOf_state in Hdep as (Hdc1 & Hlog1 & _ & Ho).
    assert (Hstamp1 : forall g, stampOf st1 g = stampOf st g)
      by (intros g; unfold stampOf; by rewrite Hlog1).
    assert (Hnow1 : now st1 = now st) by (unfold now; by rewrite Hlog1).
    assert (Hrefs1 : cachedReferences e st1 f deps)
      by (by eapply cachedReferences_extends).
    destruct o as [v|].
    + destruct Ho as (Hv & Hk & Hrc1).
      destruct (call_extends cfg e depth v st1 Hwf1) as [Hext2 Hwf2].
      pose proof (later_call cfg e depth v st1) as Hlater2.
      destruct (getDependencies cfg e depth v st1) as [[Xv| |] st2] eqn:Hcall;
        try discriminate.
      simpl in Hext2, Hwf2, Hlater2.
      set (pending' := fun g dep =>
             (pending g dep /\ stampOf st1 g = stampOf st0 g)
             \/ (g = f /\ dep ∈ d :: rest /\ stampOf st1 f = S (now st0))
             \/ candidate e g dep = candidate e f d).
      destruct (Hrec v st1 Xv st2 base pending' Hwf1) as (Hord2 & Hv2 & HXv); [|done|].
      { intros g dep w Hedge Hbase.
        destruct (decide (candidate e g dep = candidate e f d)) as [Heq|Hne].
        { right. split; [|done]. right; right. done. }
        assert (Hedge0 : edgeVia e st g dep w).
        { destruct Hedge as (deps' & (s & Hs & Hd') & Hin & Hw). rewrite Hdc1 in Hd'.
          exists deps'. split; [by exists s|]. split; [done|].
          destruct Hrc1 as [[Hrc1 _]|(_ & Hrc1 & _)]; rewrite Hrc1 in Hw; [done|].
          by rewrite lookup_insert_ne in Hw. }
        rewrite !Hstamp1 in *.
        destruct (Hord g dep w Hedge0 Hbase) as [H|[H|H]]; [by left|..];
          right; (split; [|done]); unfold pending'; rewrite !Hstamp1; auto. }
      assert (Hlater12 : later st st2).
      { eapply later_trans; [|exact Hlater2]. by apply later_same. }
      destruct (IH (R ∪ {[v]} ∪ Xv) st2 X st') as (P & Q & Hlater3); try done.
      * by eapply cachedReferences_extends.
      * by eapply later_trans.
      * intros g dep w Hedge Hbase.
        destruct (Hord2 g dep w Hedge Hbase) as [H|[Hp Hsame]]; [by left|].
        assert (Htarget : candidate e g dep = candidate e f d ->
                          stampOf st2 g < stampOf st2 w).
        { intros Heq. destruct Hedge as (_ & _ & _ & Hw). rewrite Heq in Hw.
          apply Hext2 in Hk. rewrite Hk in Hw. injection Hw as <-.
          rewrite Hsame. pose proof (stampOf_le st1 g). lia. }
        destruct Hp as [[Hp Hs]|[(-> & Hin & Hs)|Heq]].
        -- right; left. split; [done|]. by rewrite Hsame.
        -- apply elem_of_cons in Hin as [->|Hin]; [left; by apply Htarget|].
           right; right. split; [done|]. split; [done|]. by rewrite Hsame.
        -- left. by apply Htarget.
      * intros w Hw. apply elem_of_union in Hw as [Hw|Hw].
        -- apply elem_of_union in Hw as [Hw|Hw].
           ++ pose proof (HR w Hw). pose proof (later_stampOf st st2 w Hlater12). lia.
           ++ apply elem_of_singleton in Hw as ->.
              pose proof (later_now _ _ Hlater). unfold now in *. simpl in *. lia.
        -- pose proof (HXv w Hw). pose proof (later_now _ _ Hlater).
           unfold now in *. simpl in *. lia.
      * split; [done|]. split; [done|]. by eapply later_trans.
    + destruct Ho as (Hrc1 & _ & Hres & Hfalsy).
      assert (Hnone : resolverCache st !! candidate e f d = None).
      { destruct (resolverCache st !! candidate e f d) as [w|] eqn:Hw; [|done].
        pose proof (Hwf _ _ Hw). pose proof (Hfalsy _ eq_refl). congruence. }
      destruct (IH R st1 X st') as (P & Q & Hlater3); try done.
      * eapply later_trans; [exact Hlater|]. by apply later_same.
      * intros g dep w Hedge Hbase. rewrite !Hstamp1 in *.
        apply (edgeVia_tables st st1) in Hedge; [|done|done].
        destruct (Hord g dep w Hedge Hbase) as [H|[H|(-> & Hin & Hs)]]; auto.
        apply elem_of_cons in Hin as [->|Hin]; [|auto].
        destruct Hedge as (_ & _ & _ & Hw). congruence.
      * intros w Hw. rewrite Hstamp1. by apply HR.
      * split; [done|]. split; [done|].
        eapply later_trans; [|exact Hlater3]. by apply later_same.
Qed.

Lemma stampOf_logCall f st g :
  stampOf (logCall f st) g = if decide (f = g) then S (now st) else stampOf st g.
Proof. reflexivity. Qed.

Lemma call_ordered depth : forall g st X st' base pending,
  truthyTable st -> ordered e st base pending st ->
  getDependencies cfg e depth g st = (Returns X, st') ->
  ordered e st' base pending st
  /\ now st < stampOf st' g /\ (forall w, w ∈ X -> now st < stampOf st' w).
Proof.
  induction depth as [|depth IH]; intros g st X st' base pending Hwf Hord Hcall;
    [discriminate|].
  rewrite getDependencies_S in Hcall.
  destruct (references_extends cfg e g (logCall g st) Hwf) as [Hext1 Hwf1].
  destruct (references e _ g (logCall g st)) as [[deps| |] st1] eqn:Hrefs;
    try discriminate.
  simpl in Hext1, Hwf1.
  apply references_state in Hrefs as (_ & Hrc1 & Hlog1 & _ & s & Hstat & Hdc1 & Hdc).
  assert (Hcached : cachedReferences e st1 g deps) by (by exists s).
  assert (Hlater1 : later (logCall g st) st1) by (by apply later_same).
  assert (Hstamp1 : forall h, stampOf st1 h = stampOf (logCall g st) h)
    by (intros h; unfold stampOf; by rewrite Hlog1).
  destruct (forEachDependency_ordered depth st g deps base pending IH deps ∅ st1 X st')
    as (P & Q & Hlater2); try done.
  - intros h dep v Hedge Hbase. rewrite !Hstamp1, !stampOf_logCall in *.
    destruct (decide (g = h)) as [<-|Hne].
    + right; right. split; [done|]. split; [|by rewrite decide_True].
      destruct Hedge as (deps' & Hd' & Hin & _).
      by rewrite (cachedReferences_fun _ _ _ _ _ Hcached Hd').
    + assert (Hedge0 : edgeVia e st h dep v).
      { destruct Hedge as (deps' & (s' & Hs' & Hd') & Hin & Hv).
        rewrite Hrc1 in Hv.
        exists deps'. split; [exists s'; split; [done|]|done].
        destruct Hdc as [[Hdc _]|(_ & Hdc & _)]; rewrite Hdc in Hd'; [done|].
        rewrite lookup_insert_ne in Hd'; [done|].
        intros Heq%cacheKey_inj. by destruct Heq. }
      destruct (Hord h dep v Hedge0 Hbase) as [H|H]; [left|by right; left].
      case_decide; [|done]. pose proof (stampOf_le st h). lia.
  - split; [|split; [|done]].
    + intros h dep v Hedge Hbase.
      destruct (P h dep v Hedge Hbase) as [H|[H|(_ & Hin & _)]]; auto.
      by apply elem_of_nil in Hin.
    + destruct (later_trans _ _ _ Hlater1 Hlater2) as [l Hl]. unfold stampOf.
      rewrite Hl. simpl. apply stamp_app_called.
Qed.
End Order.

(** ** A call on tables that are saturated *)

Section Rerun.
Context (cfg : gmap string languageConfig) (e : Fs.env).
Context (st1 : state) (f : string) (X : gset string).

Hypothesis Htruthy : truthyTable st1.
Hypothesis Hsaturated : forall g, g = f \/ g ∈ X -> saturated cfg e st1 g.
Hypothesis Hclosed : forall g dep v, g = f \/ g ∈ X -> edgeVia e st1 g dep v -> v ∈ X.
Hypothesis Hordered : forall g dep v,
  g = f \/ g ∈ X -> edgeVia e st1 g dep v -> stampOf st1 g < stampOf st1 v.

Lemma reaches_closed g w : reaches e st1 g w -> g = f \/ g ∈ X -> w ∈ X.
Proof using Hclosed.
  induction 1 as [g dep v H|g dep v w H _ IH]; intros Hg.
  - eapply Hclosed; eauto.
  - apply IH. right. eapply Hclosed; eauto.
Qed.

Lemma forEachDependency_rerun n g deps :
  (forall h st, h = f \/ h ∈ X -> rank st1 h < n -> sameTables st1 st ->
      exists Xh st', getDependencies cfg e n h st = (Returns Xh, st')
                     /\ sameTables st1 st' /\ forall w, w ∈ Xh <-> reaches e st1 h w) ->
  g = f \/ g ∈ X -> rank st1 g < S n -> cachedReferences e st1 g deps ->
  forall rest R st,
    (forall dep, dep ∈ rest -> dep ∈ deps) -> sameTables st1 st ->
    exists X' st',
      forEachDependency (getDependencies cfg e n) e (Path.dirname g)
        (resolvers (configFor cfg g)) rest R st = (Returns X', st')
      /\ sameTables st1 st'
      /\ forall w, w ∈ X' <->
           w ∈ R \/ exists dep v, dep ∈ rest
                     /\ resolverCache st1 !! candidate e g dep = Some v
                     /\ (w = v \/ reaches e st1 v w).
Proof using Htruthy Hsaturated Hclosed Hordered.
  intros Hrec Hg Hrank Hrefs. induction rest as [|d rest IH]; intros R st Hsub Hsame.
  - exists R, st. split; [done|]. split; [done|]. intros w. split; [auto|].
    intros [Hw|(dep & v & Hin & _)]; [done|by apply elem_of_nil in Hin].
  - cbn [forEachDependency]. fold (candidate e g d).
    assert (Hd : d ∈ deps) by (apply Hsub, list_elem_of_here).
    assert (Hsub' : forall dep, dep ∈ rest -> dep ∈ deps).
    { intros dep Hin. apply Hsub. by apply list_elem_of_further. }
    destruct Hsame as (Hdc & Hrc & Hread).
    destruct (resolverCache st1 !! candidate e g d) as [v|] eqn:Hk.
    + assert (Hedge : edgeVia e st1 g d v) by (by exists deps).
      rewrite (dependencyOf_hit e _ _ st v); [|by rewrite Hrc|by eapply Htruthy].
      assert (Hv : v ∈ X) by (by eapply Hclosed).
      assert (Hrankv : rank st1 v < n).
      { pose proof (Hordered g d v Hg Hedge). pose proof (stampOf_le st1 v).
        unfold rank in *. lia. }
      destruct (Hrec v st (or_intror Hv) Hrankv) as (Xv & st2 & -> & Hsame2 & HXv); [done|].
      destruct (IH (R ∪ {[v]} ∪ Xv) st2 Hsub' Hsame2) as (X' & st3 & -> & Hsame3 & HX').
      exists X', st3. split; [done|]. split; [done|]. intros w. rewrite HX'. split.
      * intros [Hw|(dep & u & Hin & Hu & Hw)].
        -- apply elem_of_union in Hw as [Hw|Hw].
           ++ apply elem_of_union in Hw as [Hw|Hw]; [by left|].
              apply elem_of_singleton in Hw as ->. right. exists d, v.
              split; [apply list_elem_of_here|]. auto.
           ++ right. exists d, v. split; [apply list_elem_of_here|].
              split; [done|]. right. by apply HXv.
        -- right. exists dep, u. split; [by apply list_elem_of_further|]. auto.
      * intros [Hw|(dep & u & Hin & Hu & Hw)]; [left; set_solver|].
        apply elem_of_cons in Hin as [->|Hin].
        -- left. rewrite Hk in Hu. injection Hu as <-.
           destruct Hw as [->|Hw]; [set_solver|]. apply HXv in Hw. set_solver.
        -- right. exists dep, u. auto.
    + destruct (Hsaturated g Hg) as (deps' & Hrefs' & Hsat).
      rewrite (cachedReferences_fun _ _ _ _ _ Hrefs' Hrefs) in Hsat.
      rewrite (dependencyOf_failed e _ _ st); [|by rewrite Hrc|by apply Hsat].
      destruct (IH R (logResolve (candidate e g d) st) Hsub') as (X' & st3 & -> & Hsame3 & HX').
      { done. }
      exists X', st3. split; [done|]. split; [done|]. intros w. rewrite HX'. split.
      * intros [Hw|(dep & u & Hin & Hu & Hw)]; [by left|].
        right. exists dep, u. split; [by apply list_elem_of_further|]. auto.
      * intros [Hw|(dep & u & Hin & Hu & Hw)]; [by left|].
        apply elem_of_cons in Hin as [->|Hin]; [congruence|].
        right. exists dep, u. auto.
Qed.

Lemma getDependencies_rerun n : forall g st,
  g = f \/ g ∈ X -> rank st1 g < n -> sameTables st1 st ->
  exists Xg st', getDependencies cfg e n g st = (Returns Xg, st')
                 /\ sameTables st1 st' /\ forall w, w ∈ Xg <-> reaches e st1 g w.
Proof using Htruthy Hsaturated Hclosed Hordered.
  induction n as [|n IH]; intros g st Hg Hrank Hsame; [lia|].
  destruct (Hsaturated g Hg) as (deps & Hrefs & _).
  destruct (forEachDependency_rerun n g deps IH Hg Hrank Hrefs deps ∅ (logCall g st))
    as (Xg & st' & Hloop & Hsame' & HXg); [done|done|].
  exists Xg, st'. split; [|split; [done|]].
  - rewrite getDependencies_S. unfold references.
    destruct Hrefs as (s & -> & Hd). destruct Hsame as (Hdc & _).
    simpl. rewrite Hdc, Hd. exact Hloop.
  - intros w. rewrite HXg. split.
    + intros [Hw|(dep & v & Hin & Hv & Hw)]; [by apply not_elem_of_empty in Hw|].
      assert (Hedge : edgeVia e st1 g dep v) by (by exists deps).
      destruct Hw as [->|Hw]; [by eapply reaches_edge|by eapply reaches_step].
    + intros Hw. right. destruct Hw as [g dep v (deps' & Hd' & Hin & Hv)
                                        |g dep v w (deps' & Hd' & Hin & Hv) Hw];
        rewrite (cachedReferences_fun _ _ _ _ _ Hd' Hrefs) in Hin;
        exists dep, v; auto.
Qed.
End Rerun.

(** ** C5: the second call *)

(** C5. The claim is that two calls on a file whose content and
    modification time have not changed return the same set. The set of a
    file depends on the files that its references lead to as well: here
    [a.js] is the same for both calls, [b.js] is edited between them, and
    the second call returns one more member. *)
Lemma unchanged_root_edited_dependency :
  Fs.files (editedEnv false) !! "/p/a.js" = Fs.files (editedEnv true) !! "/p/a.js"
  /\ fst (perform (editedCall false) initial) = Returns {["/p/b.js"]}
  /\ fst (perform (editedCall true) (after [editedCall false]))
     = Returns {["/p/b.js"; "/p/c.js"]}
  /\ fst (perform (editedCall true) (after [editedCall false]))
     <> fst (perform (editedCall false) initial).
Proof.
  assert (H1 : fst (perform (editedCall false) initial) = Returns {["/p/b.js"]})
    by (vm_compute; reflexivity).
  assert (H2 : fst (perform (editedCall true) (after [editedCall false]))
               = Returns {["/p/b.js"; "/p/c.js"]}) by (vm_compute; reflexivity).
  split; [reflexivity|]. split; [exact H1|]. split; [exact H2|].
  rewrite H1, H2. intros H. discriminate H.
Qed.

(** C5, amended. When a call returns a set and the file system stays as
    it is, a second call on the same file, with room on the stack, returns
    the same set; it reads no file, the root least of all, since the
    extraction table has the entry of the root for its path and
    modification time; and it leaves the two tables as they are. *)
Theorem second_call_same_set history c X :
  fst (perform c (after history)) = Returns X ->
  exists depth, forall d, depth <= d ->
    let st1 := after (history ++ [c]) in
    let again := getDependencies (c_config c) (c_env c) d (c_file c) st1 in
    fst again = Returns X
    /\ readLog (snd again) = readLog st1
    /\ dependencyCache (snd again) = dependencyCache st1
    /\ resolverCache (snd again) = resolverCache st1
    /\ exists s deps, Fs.statSync (c_env c) (c_file c) = inr s
                      /\ dependencyCache st1 !! cacheKey (c_file c) s = Some deps.
Proof.
  intros Hret. rewrite after_snoc. unfold perform in *.
  destruct c as [cfg e depth0 f]. cbn [c_config c_env c_depth c_file] in *.
  set (st0 := after history) in *.
  pose proof (truthyTable_after history) as Hwf0. fold st0 in Hwf0.
  destruct (call_extends cfg e depth0 f st0 Hwf0) as [Hext Hwf1].
  destruct (getDependencies cfg e depth0 f st0) as [o st1] eqn:Hcall.
  simpl in Hret, Hext, Hwf1. subst o. cbn [snd].
  destruct (call_summary cfg e depth0 f st0 X st1 Hwf0 Hcall) as (S1 & S2 & S3 & S4).
  destruct (call_ordered cfg e depth0 f st0 X st1 (now st0) (fun _ _ => False) Hwf0)
    as (Hord & Hf & HX); [|done|].
  { intros g dep v _ Hbase. pose proof (stampOf_le st0 g). lia. }
  assert (Hcalled : forall g, g = f \/ g ∈ X -> now st0 < stampOf st1 g).
  { intros g [->|Hg]; auto. }
  assert (Hclosed : forall g dep v, g = f \/ g ∈ X -> edgeVia e st1 g dep v -> v ∈ X).
  { intros g dep v Hg (deps & Hd & Hin & Hv).
    destruct (S1 _ _ Hv) as [Hv0|Hv0]; [|done]. eapply S3; eauto. }
  assert (Hordered : forall g dep v,
             g = f \/ g ∈ X -> edgeVia e st1 g dep v -> stampOf st1 g < stampOf st1 v).
  { intros g dep v Hg Hedge.
    destruct (Hord g dep v Hedge (Hcalled g Hg)) as [H|[[] _]]. done. }
  exists (S (rank st1 f)). intros d Hd.
  destruct (getDependencies_rerun cfg e st1 f X Hwf1 S2 Hclosed Hordered d f st1)
    as (X2 & st2 & Hcall2 & (Hdc & Hrc & Hread) & HX2); [by left|lia|done|].
  rewrite Hcall2. cbn [fst snd].
  split; [|split; [done|split; [done|split; [done|]]]].
  - f_equal. apply set_eq. intros w. rewrite HX2. split.
    + intros Hw. eapply (reaches_closed e st1 f X Hclosed); eauto.
    + apply S4.
  - destruct (S2 f (or_introl eq_refl)) as (deps & (s & Hs & Hdeps) & _). eauto.
Qed.

Lemma second_call_same_set_witness :
  exists depth, forall d, depth <= d ->
    let st1 := after ([] ++ [projectCall]) in
    let again := getDependencies defaultSearchConfig projectEnv d "/p/main.js" st1 in
    fst again = Returns {["/p/util.js"; "/p/helpers.mjs"]}
    /\ readLog (snd again) = readLog st1
    /\ dependencyCache (snd again) = dependencyCache st1
    /\ resolverCache (snd again) = resolverCache st1
    /\ exists s deps, Fs.statSync projectEnv "/p/main.js" = inr s
                      /\ dependencyCache st1 !! cacheKey "/p/main.js" s = Some deps.
Proof.
  apply (second_call_same_set [] projectCall {["/p/util.js"; "/p/helpers.mjs"]}).
  vm_compute. reflexivity.
Defined.

(** ** C6: the resolution table holds successes only *)

Lemma forEachDependency_grown cfg e depth f deps results st :
  truthyTable st ->
  extends st (snd (forEachDependency (getDependencies cfg e depth) e (Path.dirname f)
                     (resolvers (configFor cfg f)) deps results st)).
Proof.
  intros Hwf.
  assert (Hrec : forall g st', grown st st' ->
            grown st (snd (getDependencies cfg e depth g st'))
            /\ forall X, fst (getDependencies cfg e depth g st') = Returns X ->
                         forall p, p ∈ X -> True).
  { intros g st' HI. split; [by apply grown_call|done]. }
  assert (Hinit : grown st st) by (split; [apply extends_refl|done]).
  pose proof (forEachDependency_inv cfg e (grown st) (fun _ => True)) as Hinv.
  refine (proj1 (proj1 (Hinv _ _ _ _ f deps Hrec results st Hinit _))); try done.
  intros f' dep' v st' HI' Hnone Hres. split; [|done].
  apply grown_setResolved; [done|by eapply resolveDependencyReference_truthy|done].
Qed.

(** A reference for which a file is found, in a loop that returns, has an
    entry of the table afterwards, and the value is a member of the
    set. *)
Lemma forEachDependency_finds cfg e depth f dep v deps :
  dep ∈ deps ->
  resolveDependencyReference e (candidate e f dep) (resolvers (configFor cfg f)) = Some v ->
  forall results st X st',
    truthyTable st ->
    forEachDependency (getDependencies cfg e depth) e (Path.dirname f)
      (resolvers (configFor cfg f)) deps results st = (Returns X, st') ->
    exists w, resolverCache st' !! candidate e f dep = Some w /\ w ∈ X.
Proof.
  intros Hin Hres. induction deps as [|d deps IH]; intros results st X st' Hwf Hloop.
  - by apply elem_of_nil in Hin.
  - simpl in Hloop. fold (candidate e f d) in Hloop.
    destruct (dependencyOf_extends cfg e f d st Hwf) as [Hext1 Hwf1].
    destruct (dependencyOf e _ (candidate e f d) st) as [[g|] st1] eqn:Hdep.
    + simpl in Hext1, Hwf1.
      destruct (call_extends cfg e depth g st1 Hwf1) as [Hext2 Hwf2].
      destruct (getDependencies cfg e depth g st1) as [[Y| |] st2] eqn:Hcall;
        try discriminate.
      simpl in Hext2, Hwf2.
      destruct (decide (d = dep)) as [->|Hne].
      * exists g. split.
        -- pose proof (forEachDependency_grown cfg e depth f deps
                         (results ∪ {[g]} ∪ Y) st2 Hwf2) as [_ Hrc].
           rewrite Hloop in Hrc. simpl in Hrc. apply Hrc. apply Hext2.
           apply dependencyOf_state in Hdep as (_ & _ & _ & _ & H & _). exact H.
        -- assert (Hsub : results ∪ {[g]} ∪ Y ⊆ X).
           { eapply forEachDependency_mono. by rewrite Hloop. }
           clear -Hsub. set_solver.
      * apply elem_of_cons in Hin as [Hin|Hin]; [congruence|].
        eapply IH; eauto.
    + simpl in Hext1, Hwf1.
      destruct (decide (d = dep)) as [->|Hne].
      * exfalso. unfold dependencyOf in Hdep. rewrite Hres in Hdep.
        rewrite (resolveDependencyReference_truthy _ _ _ _ Hres) in Hdep.
        destruct (resolverCache st !! candidate e f dep) as [w|] eqn:Hrc; [|done].
        by destruct (truthy w).
      * apply elem_of_cons in Hin as [Hin|Hin]; [congruence|].
        eapply IH; eauto.
Qed.




(** ** The module with any configuration *)

Lemma forInputs_Returns body inputs :
  (forall input, input ∈ inputs -> exists found, body input = Returns found) ->
  exists out, Custom.forInputs body inputs = Returns out.
Proof.
  induction inputs as [|input inputs IH]; intros H; simpl; [eauto|].
  destruct (H input) as [found ->]; [left|]. simpl.
  destruct IH as [later ->]; [intros i Hi; apply H; by right|]. simpl. eauto.
Qed.

Lemma findDependencyReferences_embed inputs p :
  Custom.findDependencyReferences inputs (embedParser p)
  = ofOption (findDependencyReferences inputs p).
Proof.
  destruct p as [f|r]; simpl.
  - induction inputs as [|input inputs IH]; simpl; [done|].
    rewrite IH. simpl. by destruct (truthyGroup (f input)).
  - induction inputs as [|input inputs IH]; [done|].
    cbn [Custom.forInputs mapM]. unfold Custom.execAll at 1.
    destruct (execLoop (String.length input) r input 0) as [found|];
      cbn [Custom.andThen mbind option_bind fmap option_fmap option_map]; [|done].
    rewrite IH. by destruct (mapM _ inputs).
Qed.

Lemma extract_embed ps content :
  Custom.extract (map embedParser ps) content = ofOption (extract ps content).
Proof.
  unfold Custom.extract, extract.
  change (Returns [content]) with (ofOption (Some [content])).
  generalize (Some [content]) as acc.
  induction ps as [|p ps IH]; intros acc; simpl; [done|].
  rewrite <- IH. f_equal. destruct acc as [inputs|]; simpl; [|done].
  apply findDependencyReferences_embed.
Qed.

Lemma tryResolvers_embed e input rs :
  Custom.tryResolvers e input
    (map (fun (step : string -> string) i => Returns (step i)) rs)
  = Returns (tryResolvers e input rs).
Proof.
  induction rs as [|r rs IH]; simpl; [done|].
  by destruct (isRegularFile e (r input)).
Qed.

Lemma resolveDependencyReference_embed e input rs :
  Custom.resolveDependencyReference e input
    (map (fun (step : string -> string) i => Returns (step i)) rs)
  = Returns (resolveDependencyReference e input rs).
Proof.
  unfold Custom.resolveDependencyReference, resolveDependencyReference.
  destruct (isRegularFile e input); [done|apply tryResolvers_embed].
Qed.

Lemma configFor_embed cfg f :
  Custom.configFor (embed cfg) f = embedLanguage (configFor cfg f).
Proof.
  unfold Custom.configFor, configFor, embed. rewrite lookup_fmap.
  by destruct (cfg !! Path.extname f).
Qed.

Lemma references_embed e ps f st :
  Custom.references e (map embedParser ps) f st = references e ps f st.
Proof.
  unfold Custom.references, references.
  destruct (Fs.statSync e f) as [err|s]; [done|].
  destruct (dependencyCache st !! cacheKey f s); [done|].
  destruct (Fs.readFileSync e f) as [err|content]; [done|].
  rewrite extract_embed. by destruct (extract ps content).
Qed.

Lemma dependencyOf_embed e rs k st :
  Custom.dependencyOf e (map (fun (step : string -> string) i => Returns (step i)) rs) k st
  = (Returns (fst (dependencyOf e rs k st)), snd (dependencyOf e rs k st)).
Proof.
  unfold Custom.dependencyOf, dependencyOf. rewrite resolveDependencyReference_embed.
  destruct (resolverCache st !! k) as [d|]; [destruct (truthy d); [done|]|];
    destruct (resolveDependencyReference e k rs) as [v|]; try done;
    by destruct (truthy v).
Qed.

Lemma forEachDependency_embed recur recur' e directory rs deps :
  (forall g st, recur' g st = recur g st) ->
  forall results st,
    Custom.forEachDependency recur' e directory
      (map (fun (step : string -> string) i => Returns (step i)) rs) deps results st
    = forEachDependency recur e directory rs deps results st.
Proof.
  intros Hrec. induction deps as [|dep deps IH]; intros results st; simpl; [done|].
  rewrite dependencyOf_embed.
  destruct (dependencyOf e rs _ st) as [[v|] st1]; simpl; [|apply IH].
  rewrite Hrec. by destruct (recur v st1) as [[X| |] st2].
Qed.

(** On a configuration of the module above, [Custom] is that module. *)
Lemma getDependencies_embed cfg e depth : forall f st,
  Custom.getDependencies (embed cfg) e depth f st = getDependencies cfg e depth f st.
Proof.
  induction depth as [|depth IH]; intros f st; [done|].
  rewrite getDependencies_S. cbn [Custom.getDependencies].
  rewrite configFor_embed. cbn [embedLanguage Custom.parsers Custom.resolvers].
  rewrite references_embed.
  destruct (references e _ f (logCall f st)) as [[deps| |] st1]; [|done|done].
  by apply forEachDependency_embed.
Qed.

(** ** Errors of a call *)

Lemma forInputs_Throws body inputs err :
  Custom.forInputs body inputs = Throws err <->
  exists before input after,
    inputs = before ++ input :: after
    /\ (forall i, i ∈ before -> exists found, body i = Returns found)
    /\ body input = Throws err.
Proof.
  split.
  - induction inputs as [|i inputs IH]; simpl; [done|].
    destruct (body i) as [found| |] eqn:Hi; simpl.
    + destruct (Custom.forInputs body inputs) as [later| |]; simpl; [done| |done].
      intros [= ->]. destruct (IH eq_refl) as (before & input & after & -> & Hb & Ht).
      exists (i :: before), input, after. split; [done|]. split; [|done].
      intros j [->|Hj]%elem_of_cons; eauto.
    + intros [= ->]. exists [], i, inputs. split; [done|]. split; [|done].
      by intros j Hj%elem_of_nil.
    + done.
  - intros (before & input & after & -> & Hb & Ht).
    induction before as [|b before IH]; simpl; [by rewrite Ht|].
    destruct (Hb b) as [found ->]; [left|]. simpl.
    rewrite IH; [done|]. intros j Hj. apply Hb. by right.
Qed.

Lemma execAll_no_Throws global r input err : Custom.execAll global r input <> Throws err.
Proof.
  unfold Custom.execAll. destruct global.
  - by destruct (execLoop _ r input 0).
  - by destruct (Regex.exec r input 0).
Qed.

Lemma findDependencyReferences_Throws inputs p err :
  Custom.findDependencyReferences inputs p = Throws err <-> parserRaises p inputs err.
Proof.
  destruct p as [f|global r|]; simpl; rewrite forInputs_Throws.
  - split; intros (before & input & after & -> & Hb & Ht);
      exists before, input, after; (split; [done|]); split.
    + intros i Hi. destruct (Hb i Hi) as [found Hfound].
      destruct (f i) as [m| |]; [eauto|done|done].
    + by destruct (f input) as [m| |]; simplify_eq/=.
    + intros i Hi. destruct (Hb i Hi) as [m ->]. simpl. eauto.
    + by rewrite Ht.
  - split; [|done]. intros (before & input & after & _ & _ & Ht).
    by apply execAll_no_Throws in Ht.
  - split.
    + intros ([|b before] & input & after & -> & Hb & [= ->]); [done|].
      destruct (Hb b) as [found Hfound]; [left|done].
    + intros [Hne ->]. destruct inputs as [|i inputs]; [done|].
      exists [], i, inputs. split; [done|]. split; [by intros j Hj%elem_of_nil|done].
Qed.

Lemma extract_snoc ps p content :
  Custom.extract (ps ++ [p]) content
  = Custom.andThen (Custom.extract ps content)
      (fun inputs => Custom.findDependencyReferences inputs p).
Proof. unfold Custom.extract. by rewrite fold_left_app. Qed.

Lemma extract_Throws ps content err :
  Custom.extract ps content = Throws err <-> extractionRaises ps content err.
Proof.
  induction ps as [|p ps IH] using rev_ind.
  - split; [done|]. intros (before & q & after & inputs & H & _). by destruct before.
  - rewrite extract_snoc. split.
    + destruct (Custom.extract ps content) as [inputs| |] eqn:Hps; simpl.
      * intros H%findDependencyReferences_Throws. by exists ps, p, [], inputs.
      * intros [= ->]. destruct (proj1 IH eq_refl) as (before & q & after & inputs & -> & H1 & H2).
        exists before, q, (after ++ [p]), inputs. split; [|done].
        by rewrite <- app_assoc.
      * done.
    + intros (before & q & after & inputs & Heq & Hbefore & Hq).
      destruct after as [|a after _] using rev_ind.
      * apply app_inj_tail in Heq as [-> ->]. rewrite Hbefore. simpl.
        by apply findDependencyReferences_Throws.
      * rewrite app_comm_cons, app_assoc in Heq. apply app_inj_tail in Heq as [-> ->].
        assert (Hps : Custom.extract (before ++ q :: after) content = Throws err).
        { apply IH. by exists before, q, after, inputs. }
        by rewrite Hps.
Qed.

Lemma tryResolvers_Throws e k rs err :
  Custom.tryResolvers e k rs = Throws err <->
  exists before step after,
    rs = before ++ step :: after
    /\ (forall s, s ∈ before -> exists p, s k = Returns p /\ ~ regularFileAt e p)
    /\ step k = Throws err.
Proof.
  split.
  - induction rs as [|r rs IH]; simpl; [done|].
    destruct (r k) as [p| |] eqn:Hr; simpl.
    + rewrite isRegularFile_regularFile. destruct (regularFile e p) eqn:Hp; [done|].
      intros (before & step & after & -> & Hb & Ht)%IH.
      exists (r :: before), step, after. split; [done|]. split; [|done].
      intros s [->|Hs]%elem_of_cons; [|by apply Hb].
      exists p. split; [done|]. by apply regularFile_false.
    + intros [= ->]. exists [], r, rs. split; [done|]. split; [|done].
      by intros s Hs%elem_of_nil.
    + done.
  - intros (before & step & after & -> & Hb & Ht).
    induction before as [|b before IH]; simpl; [by rewrite Ht|].
    destruct (Hb b) as (p & -> & Hp); [left|]. simpl.
    apply regularFile_false in Hp. rewrite isRegularFile_regularFile, Hp.
    apply IH. intros s Hs. apply Hb. by right.
Qed.

Lemma resolveDependencyReference_Throws e k rs err :
  Custom.resolveDependencyReference e k rs = Throws err <-> resolverRaises e rs k err.
Proof.
  unfold Custom.resolveDependencyReference, resolverRaises.
  rewrite isRegularFile_regularFile. destruct (regularFile e k) eqn:Hk.
  - split; [done|]. intros [Hno _]. by apply regularFile_spec in Hk.
  - rewrite tryResolvers_Throws. split; [|by intros [_ H]].
    intros H. split; [by apply regularFile_false|done].
Qed.

Lemma dependencyOf_Throws e rs k st err :
  fst (Custom.dependencyOf e rs k st) = Throws err <->
  (forall w, resolverCache st !! k = Some w -> truthy w = false)
  /\ resolverRaises e rs k err.
Proof.
  rewrite <- resolveDependencyReference_Throws. unfold Custom.dependencyOf.
  destruct (resolverCache st !! k) as [d|] eqn:Hrc; [destruct (truthy d) eqn:Hd|].
  - simpl. split; [done|]. intros [H _]. specialize (H d eq_refl). congruence.
  - destruct (Custom.resolveDependencyReference e k rs) as [[v|]| |]; simpl.
    + destruct (truthy v); simpl; split; try done; by intros [_ ?].
    + split; [done|by intros [_ ?]].
    + split; [|by intros [_ ?]]. intros [= ->]. split; [|done]. by intros w [= <-].
    + split; [done|by intros [_ ?]].
  - destruct (Custom.resolveDependencyReference e k rs) as [[v|]| |]; simpl.
    + destruct (truthy v); simpl; split; try done; by intros [_ ?].
    + split; [done|by intros [_ ?]].
    + split; [|by intros [_ ?]]. intros [= ->]. split; [|done]. done.
    + split; [done|by intros [_ ?]].
Qed.

Lemma forEachDependency_app recur e directory rs before rest :
  forall results st,
    Custom.forEachDependency recur e directory rs (before ++ rest) results st
    = match Custom.forEachDependency recur e directory rs before results st with
      | (Returns R, st1) => Custom.forEachDependency recur e directory rs rest R st1
      | other => other
      end.
Proof.
  induction before as [|dep before IH]; intros results st; simpl; [done|].
  destruct (Custom.dependencyOf e rs _ st) as [[[v|]| |] st1]; try done.
  destruct (recur v st1) as [[X| |] st2]; try done.
Qed.

(** The loop raises [err] exactly when, having got through some of the
    references, it has the error from a resolver step or from the nested
    call at the next one. *)
Lemma forEachDependency_Throws recur e directory rs deps err :
  forall results st,
    fst (Custom.forEachDependency recur e directory rs deps results st) = Throws err <->
    exists before dep after R st1,
      deps = before ++ dep :: after
      /\ Custom.forEachDependency recur e directory rs before results st = (Returns R, st1)
      /\ (fst (Custom.dependencyOf e rs (Path.resolve (Fs.cwd e) [directory; dep]) st1)
          = Throws err
          \/ exists g st2,
               Custom.dependencyOf e rs (Path.resolve (Fs.cwd e) [directory; dep]) st1
               = (Returns (Some g), st2)
               /\ fst (recur g st2) = Throws err).
Proof.
  intros results st. split.
  - revert results st. induction deps as [|d deps IH]; intros results st; simpl; [done|].
    destruct (Custom.dependencyOf e rs _ st) as [[[v|]| |] st1] eqn:Hdep; simpl.
    + destruct (recur v st1) as [[X| |] st2] eqn:Hrec; simpl.
      * intros (before & dep & after & R & st' & -> & Hloop & H)%IH.
        exists (d :: before), dep, after, R, st'. split; [done|]. split; [|done].
        simpl. by rewrite Hdep, Hrec.
      * intros [= ->]. exists [], d, deps, results, st. split; [done|]. split; [done|].
        right. exists v, st1. by rewrite Hrec.
      * done.
    + intros (before & dep & after & R & st' & -> & Hloop & H)%IH.
      exists (d :: before), dep, after, R, st'. split; [done|]. split; [|done].
      simpl. by rewrite Hdep.
    + intros [= ->]. exists [], d, deps, results, st. split; [done|]. split; [done|].
      left. by rewrite Hdep.
    + done.
  - intros (before & dep & after & R & st1 & -> & Hloop & H).
    rewrite forEachDependency_app, Hloop. simpl.
    destruct H as [H|(g & st2 & Hdep & Hrec)].
    + destruct (Custom.dependencyOf e rs _ st1) as [[[v|]| |] st2]; simpl in *; congruence.
    + rewrite Hdep. destruct (recur g st2) as [[X| |] st3]; simpl in *; congruence.
Qed.

Lemma references_Throws e ps f st err :
  fst (Custom.references e ps f st) = Throws err <->
  Fs.statSync e f = inl err
  \/ exists s, Fs.statSync e f = inr s /\ dependencyCache st !! cacheKey f s = None
       /\ (Fs.readFileSync e f = inl err
           \/ exists content, Fs.readFileSync e f = inr content
                              /\ extractionRaises ps content err).
Proof.
  unfold Custom.references.
  destruct (Fs.statSync e f) as [err'|s]; simpl.
  - split; [intros [= ->]; by left|]. intros [[= ->]|(s & [=] & _)]. done.
  - destruct (dependencyCache st !! cacheKey f s) as [deps|] eqn:Hdc; simpl.
    + split; [done|]. intros [[=]|(s' & [= <-] & Hnone & _)]. congruence.
    + destruct (Fs.readFileSync e f) as [err'|content]; simpl.
      * split.
        -- intros [= ->]. right. exists s. eauto.
        -- intros [[=]|(s' & _ & _ & [[= ->]|(c & [=] & _)])]. done.
      * pose proof (extract_Throws ps content err) as Hex.
        destruct (Custom.extract ps content) as [deps| |]; simpl.
        -- split; [done|]. intros [[=]|(s' & _ & _ & [[=]|(c & [= <-] & H)])].
           by apply Hex in H.
        -- split.
           ++ intros [= ->]. right. exists s. split; [done|]. split; [done|].
              right. exists content. split; [done|]. by apply Hex.
           ++ intros [[=]|(s' & _ & _ & [[=]|(c & [= <-] & H)])]. by apply Hex in H.
        -- split; [done|]. intros [[=]|(s' & _ & _ & [[=]|(c & [= <-] & H)])].
           by apply Hex in H.
Qed.

Lemma getDependencies_Throws cfg e depth f st err :
  fst (Custom.getDependencies cfg e (S depth) f st) = Throws err
  <-> raises cfg e depth f st err.
Proof.
  cbn [Custom.getDependencies].
  pose proof (references_Throws e (Custom.parsers (Custom.configFor cfg f)) f
                (logCall f st) err) as Hrefs.
  change (dependencyCache (logCall f st)) with (dependencyCache st) in Hrefs.
  split.
  - destruct (Custom.references e _ f (logCall f st)) as [[deps| |] st0] eqn:Href;
      simpl in *.
    + intros (before & dep & after & R & st1 & -> & Hloop & H)%forEachDependency_Throws.
      fold (candidate e f dep) in H. destruct H as [H|(g & st2 & Hdep & Hrec)].
      * apply dependencyOf_Throws in H as [Hrc Hres].
        by eapply (raises_resolver cfg e depth f st err _ st0 before dep after R st1).
      * by eapply (raises_nested cfg e depth f st err _ st0 before dep after R st1 g st2).
    + intros [= ->].
      destruct (proj1 Hrefs eq_refl) as [H|(s & Hs & Hdc & [H|(content & Hc & H)])].
      * by apply raises_stat.
      * by eapply raises_read.
      * by eapply raises_parser.
    + done.
  - intros [H|s Hs Hdc H|s content Hs Hdc Hc H
            |deps st0 before dep after R st1 Href -> Harr Hrc Hres
            |deps st0 before dep after R st1 g st2 Href -> Harr Hdep Hrec].
    + assert (Ht : fst (Custom.references e (Custom.parsers (Custom.configFor cfg f)) f
                          (logCall f st)) = Throws err) by (apply Hrefs; by left).
      by destruct (Custom.references e _ f (logCall f st)) as [[deps| |] st0];
        simpl in *; simplify_eq.
    + assert (Ht : fst (Custom.references e (Custom.parsers (Custom.configFor cfg f)) f
                          (logCall f st)) = Throws err) by (apply Hrefs; right; eauto).
      by destruct (Custom.references e _ f (logCall f st)) as [[deps| |] st0];
        simpl in *; simplify_eq.
    + assert (Ht : fst (Custom.references e (Custom.parsers (Custom.configFor cfg f)) f
                          (logCall f st)) = Throws err).
      { apply Hrefs. right. exists s. split; [done|]. split; [done|]. right. eauto. }
      by destruct (Custom.references e _ f (logCall f st)) as [[deps| |] st0];
        simpl in *; simplify_eq.
    + rewrite Href. apply forEachDependency_Throws.
      exists before, dep, after, R, st1. split; [done|]. split; [exact Harr|].
      left. fold (candidate e f dep). by apply dependencyOf_Throws.
    + rewrite Href. apply forEachDependency_Throws.
      exists before, dep, after, R, st1. split; [done|]. split; [exact Harr|].
      right. fold (candidate e f dep). eauto.
Qed.

Lemma tryResolvers_skips e k rs :
  Custom.tryResolvers e k rs = Returns None <->
  forall step, step ∈ rs -> exists p, step k = Returns p /\ ~ regularFileAt e p.
Proof.
  induction rs as [|r rs IH]; simpl.
  - split; [by intros _ ? ?%elem_of_nil|done].
  - destruct (r k) as [p| |] eqn:Hr; simpl.
    + rewrite isRegularFile_regularFile. destruct (regularFile e p) eqn:Hp.
      * split; [done|]. intros H. destruct (H r) as (p' & Hp' & Hno); [left|].
        rewrite Hr in Hp'. injection Hp' as <-. by apply regularFile_spec in Hp.
      * rewrite IH. split.
        -- intros H step [->|Hs]%elem_of_cons; [|by apply H].
           exists p. split; [done|]. by apply regularFile_false.
        -- intros H step Hs. apply H. by right.
    + split; [done|]. intros H. destruct (H r) as (p' & Hp' & _); [left|]. congruence.
    + split; [done|]. intros H. destruct (H r) as (p' & Hp' & _); [left|]. congruence.
Qed.

(** C3, as stated, fails: the root exists and can be read, and the call
    raises the error of a dependency that cannot be read. *)
Lemma error_with_readable_root :
  Fs.existsSync unreadableEnv "/p/a.js" = true
  /\ Fs.readFileSync unreadableEnv "/p/a.js" = inr "import './b';"
  /\ fst (getDependencies defaultSearchConfig unreadableEnv 5 "/p/a.js" initial)
     = Throws (Fs.EACCES "/p/b.js").
Proof. repeat split; vm_compute; reflexivity. Qed.

(** C3, amended. A call raises the error of [fs.statSync] when the root
    does not exist, and the error of [fs.readFileSync] when the extraction
    table has no entry for the root and the root cannot be read. Nothing
    catches an error, and the module raises none of its own but the
    [RangeError] of the stack: a call raises [err] exactly when [err]
    comes from [fs.statSync] or [fs.readFileSync] on the root, from a
    parser of the configuration at work on the content of the root, or,
    at a reference of the root that the loop arrives at without an error,
    from a resolver step or from the nested call on the file that the
    reference stands for. A reference whose candidate has no entry in the
    resolution table, where no regular file is at the candidate and every
    resolver step returns a path at which there is none, is skipped: the
    loop goes on with the same results, and only the log differs. *)
Theorem errors_propagate_misses_skip cfg e depth f st :
  (forall err, Fs.statSync e f = inl err ->
      fst (Custom.getDependencies cfg e (S depth) f st) = Throws err)
  /\ (forall s err,
      Fs.statSync e f = inr s ->
      dependencyCache st !! cacheKey f s = None ->
      Fs.readFileSync e f = inl err ->
      fst (Custom.getDependencies cfg e (S depth) f st) = Throws err)
  /\ (forall err,
      fst (Custom.getDependencies cfg e (S depth) f st) = Throws err
      <-> raises cfg e depth f st err)
  /\ (forall recur dep rest results st',
      resolverCache st' !! candidate e f dep = None ->
      ~ regularFileAt e (candidate e f dep) ->
      (forall step, step ∈ Custom.resolvers (Custom.configFor cfg f) ->
         exists p, step (candidate e f dep) = Returns p /\ ~ regularFileAt e p) ->
      Custom.forEachDependency recur e (Path.dirname f)
        (Custom.resolvers (Custom.configFor cfg f)) (dep :: rest) results st'
      = Custom.forEachDependency recur e (Path.dirname f)
          (Custom.resolvers (Custom.configFor cfg f)) rest results
          (logResolve (candidate e f dep) st')).
Proof.
  split; [|split; [|split]].
  - intros err Hstat. apply getDependencies_Throws. by apply raises_stat.
  - intros s err Hstat Hdc Hread. apply getDependencies_Throws. by eapply raises_read.
  - intros err. apply getDependencies_Throws.
  - intros recur dep rest results st' Hrc Hno Hsteps. simpl.
    fold (candidate e f dep). unfold Custom.dependencyOf. rewrite Hrc.
    unfold Custom.resolveDependencyReference.
    apply regularFile_false in Hno. rewrite isRegularFile_regularFile, Hno.
    by rewrite (proj2 (tryResolvers_skips e _ _) Hsteps).
Qed.

Lemma errors_propagate_misses_skip_witness :
  fst (Custom.getDependencies (embed defaultSearchConfig) projectEnv 3 "/p/absent.js" initial)
  = Throws (Fs.ENOENT "/p/absent.js")
  /\ fst (Custom.getDependencies (embed defaultSearchConfig) unreadableEnv 3 "/p/b.js"
            initial)
     = Throws (Fs.EACCES "/p/b.js")
  /\ fst (Custom.getDependencies strictConfig strictEnv 3 "/p/b.js" initial)
     = Throws (Fs.Thrown "pragma")
  /\ fst (Custom.getDependencies strictConfig strictEnv 3 "/p/a.js" initial)
     = Throws (Fs.Thrown "pragma")
  /\ fst (Custom.getDependencies strictConfig strictEnv 3 "/p/c.js" initial)
     = Throws (Fs.Thrown "resolver")
  /\ Custom.forEachDependency (Custom.getDependencies (embed defaultSearchConfig) projectEnv 2)
       projectEnv (Path.dirname "/p/main.js")
       (Custom.resolvers (Custom.configFor (embed defaultSearchConfig) "/p/main.js"))
       ["./missing"] ∅ initial
     = (Returns ∅, logResolve "/p/missing" initial).
Proof.
  split; [|split; [|split; [|split; [|split]]]].
  - apply (proj1 (errors_propagate_misses_skip (embed defaultSearchConfig) projectEnv 2
                    "/p/absent.js" initial)).
    reflexivity.
  - apply (proj1 (proj2 (errors_propagate_misses_skip (embed defaultSearchConfig)
                           unreadableEnv 2 "/p/b.js" initial)) (Fs.Stats true 11));
      reflexivity.
  - apply (proj1 (proj2 (proj2 (errors_propagate_misses_skip strictConfig strictEnv 2
                                  "/p/b.js" initial)))).
    apply (raises_parser _ _ _ _ _ _ (Fs.Stats true 11) "#!"); try reflexivity.
    exists [], (Custom.ParserFn (fun input =>
                   if bool_decide (input = "#!") then Throws (Fs.Thrown "pragma")
                   else Returns (Some input))), [], ["#!"].
    split; [reflexivity|]. split; [reflexivity|].
    exists [], "#!", []. split; [reflexivity|]. split; [|reflexivity].
    intros i Hi. by apply elem_of_nil in Hi.
  - apply (proj1 (proj2 (proj2 (errors_propagate_misses_skip strictConfig strictEnv 2
                                  "/p/a.js" initial)))).
    eapply (raises_nested _ _ _ _ _ _ ["b.js"] _ [] "b.js" [] ∅ _ "/p/b.js");
      [vm_compute; reflexivity|reflexivity|reflexivity|vm_compute; reflexivity
      |vm_compute; reflexivity].
  - apply (proj1 (proj2 (proj2 (errors_propagate_misses_skip strictConfig strictEnv 2
                                  "/p/c.js" initial)))).
    eapply (raises_resolver _ _ _ _ _ _ ["d.js"] _ [] "d.js" [] ∅);
      [vm_compute; reflexivity|reflexivity|reflexivity|vm_compute; intros w H; discriminate H|].
    split.
    + intros (c & m & r & H). vm_compute in H. discriminate H.
    + exists [], (fun _ => Throws (Fs.Thrown "resolver")), [].
      split; [reflexivity|]. split; [|reflexivity].
      intros s Hs. by apply elem_of_nil in Hs.
  - rewrite (proj2 (proj2 (proj2 (errors_propagate_misses_skip (embed defaultSearchConfig)
                                    projectEnv 2 "/p/main.js" initial)))).
    + reflexivity.
    + reflexivity.
    + intros (c & m & r & H). vm_compute in H. discriminate H.
    + intros step Hstep. vm_compute in Hstep.
      apply elem_of_cons in Hstep as [->|Hstep];
        [|apply elem_of_cons in Hstep as [->|Hstep]; [|by apply elem_of_nil in Hstep]].
      * eexists. split; [reflexivity|]. intros (c & m & r & H). vm_compute in H.
        discriminate H.
      * eexists. split; [reflexivity|]. intros (c & m & r & H). vm_compute in H.
        discriminate H.
Defined.

(** ** The tables over a sequence of calls *)

(** No call removes or overwrites an entry of the two tables, however it
    ends: what the tables hold after some calls they hold, with the same
    values, after any further calls. *)
Theorem tables_never_shrink history more :
  extends (after history) (after (history ++ more)).
Proof.
  induction more as [|c more IH] using rev_ind.
  - rewrite app_nil_r. apply extends_refl.
  - rewrite app_assoc, after_snoc. eapply extends_trans; [exact IH|].
    unfold perform. apply call_extends, truthyTable_after.
Qed.

Lemma extractedIn_mono h1 h2 key deps :
  (forall c, c ∈ h1 -> c ∈ h2) -> extractedIn h1 key deps -> extractedIn h2 key deps.
Proof. intros Hsub (c & f & s & content & Hc & H). exists c, f, s, content. auto. Qed.

(** Every entry of the extraction table was made by one of the calls. *)
Lemma extractedIn_after history key deps :
  dependencyCache (after history) !! key = Some deps -> extractedIn history key deps.
Proof.
  revert key deps. induction history as [|c history IH] using rev_ind; intros key deps.
  - unfold after. simpl. by rewrite lookup_empty.
  - rewrite after_snoc. unfold perform.
    apply (getDependencies_inv (c_config c) (c_env c)
             (fun st => forall key deps, dependencyCache st !! key = Some deps ->
                                         extractedIn (history ++ [c]) key deps)
             (fun _ => True)); try done.
    + intros f s content deps' st HI Hstat _ Hread Hex key' deps''. simpl.
      destruct (decide (cacheKey f s = key')) as [<-|Hne].
      * rewrite lookup_insert_eq. intros [= <-].
        exists c, f, s, content. split; [set_solver|done].
      * rewrite lookup_insert_ne; [|done]. apply HI.
    + intros key' deps' Hk. eapply extractedIn_mono; [|by apply IH]. set_solver.
Qed.

(** What the extraction table holds for a file and a modification time
    was extracted in one of the calls, from the content that this file
    had in the file system of that call, at this modification time and
    with the parsers that the configuration of that call has for the
    file. Only the path and the time make the key: the table does not
    tell two contents of one file with one modification time apart, nor
    two configurations. *)
Theorem dependencyCache_extracted history f stats deps :
  dependencyCache (after history) !! cacheKey f stats = Some deps ->
  exists c stats' content,
    c ∈ history
    /\ Fs.statSync (c_env c) f = inr stats'
    /\ Fs.mtimeMs stats' = Fs.mtimeMs stats
    /\ Fs.readFileSync (c_env c) f = inr content
    /\ extract (parsers (configFor (c_config c) f)) content = Some deps.
Proof.
  intros H. apply extractedIn_after in H as (c & f' & s' & content & Hc & Hs & Hk & Hr & He).
  apply cacheKey_inj in Hk as [-> Hm]. exists c, s', content. auto.
Qed.

Lemma dependencyCache_extracted_witness :
  exists c stats' content,
    c ∈ [projectCall]
    /\ Fs.statSync (c_env c) "/p/util.js" = inr stats'
    /\ Fs.mtimeMs stats' = 11%N
    /\ Fs.readFileSync (c_env c) "/p/util.js" = inr content
    /\ extract (parsers (configFor (c_config c) "/p/util.js")) content
       = Some ["./helpers.mjs"].
Proof.
  apply (dependencyCache_extracted [projectCall] "/p/util.js" (Fs.Stats true 11)
           ["./helpers.mjs"]).
  vm_compute. reflexivity.
Defined.

(** ** The set of a call that returns *)

(** What a call that returns [X] leaves behind: truthy values in the
    resolution table; [f] and the members of [X] saturated; [X] closed
    under the references that the tables resolve; the target of each such
    reference called after its file; and every member reached from [f]. *)
Lemma returned_tables cfg e depth f st0 X st1 :
  truthyTable st0 ->
  getDependencies cfg e depth f st0 = (Returns X, st1) ->
  truthyTable st1
  /\ (forall g, g = f \/ g ∈ X -> saturated cfg e st1 g)
  /\ (forall g dep v, g = f \/ g ∈ X -> edgeVia e st1 g dep v -> v ∈ X)
  /\ (forall g dep v,
        g = f \/ g ∈ X -> edgeVia e st1 g dep v -> stampOf st1 g < stampOf st1 v)
  /\ (forall v, v ∈ X -> reaches e st1 f v).
Proof.
  intros Hwf0 Hcall.
  destruct (call_extends cfg e depth f st0 Hwf0) as [_ Hwf1].
  rewrite Hcall in Hwf1. simpl in Hwf1.
  destruct (call_summary cfg e depth f st0 X st1 Hwf0 Hcall) as (S1 & S2 & S3 & S4).
  destruct (call_ordered cfg e depth f st0 X st1 (now st0) (fun _ _ => False) Hwf0)
    as (Hord & Hf & HX); [|done|].
  { intros g dep v _ Hbase. pose proof (stampOf_le st0 g). lia. }
  split; [done|]. split; [done|]. split; [|split; [|done]].
  - intros g dep v Hg (deps & Hd & Hin & Hv).
    destruct (S1 _ _ Hv) as [Hv0|Hv0]; [|done]. eapply S3; eauto.
  - intros g dep v Hg Hedge.
    assert (Hcalled : now st0 < stampOf st1 g) by (destruct Hg as [->|Hg]; auto).
    destruct (Hord g dep v Hedge Hcalled) as [H|[[] _]]. done.
Qed.

(** The set that a call returns is the set of the files reached from the
    root along the references that the two tables resolve once the call is
    over: nothing else is a member, and nothing reached is left out. *)
Theorem returned_set_is_reachable_set history c X :
  fst (perform c (after history)) = Returns X ->
  forall w, w ∈ X <-> reaches (c_env c) (after (history ++ [c])) (c_file c) w.
Proof.
  intros Hret w. rewrite after_snoc. unfold perform in *.
  destruct (getDependencies (c_config c) (c_env c) (c_depth c) (c_file c) (after history))
    as [o st1] eqn:Hcall.
  simpl in Hret. subst o. cbn [snd].
  destruct (returned_tables _ _ _ _ _ _ _ (truthyTable_after history) Hcall)
    as (_ & _ & Hclosed & _ & Hreach).
  split; [apply Hreach|].
  intros Hw. eapply (reaches_closed (c_env c) st1 (c_file c) X Hclosed); eauto.
Qed.

Lemma returned_set_is_reachable_set_witness :
  "/p/helpers.mjs" ∈ ({["/p/util.js"; "/p/helpers.mjs"]} : gset string)
  <-> reaches projectEnv (after ([] ++ [projectCall])) "/p/main.js" "/p/helpers.mjs".
Proof.
  apply (returned_set_is_reachable_set [] projectCall {["/p/util.js"; "/p/helpers.mjs"]}).
  vm_compute. reflexivity.
Defined.

(** When a call returns, the root and every member of the set exist in the
    file system of the call, and the extraction table has their
    references under their present modification times. *)
Theorem closure_is_cached history c X g :
  fst (perform c (after history)) = Returns X ->
  g = c_file c \/ g ∈ X ->
  exists s deps,
    Fs.statSync (c_env c) g = inr s
    /\ dependencyCache (after (history ++ [c])) !! cacheKey g s = Some deps.
Proof.
  intros Hret Hg. rewrite after_snoc. unfold perform in *.
  destruct (getDependencies (c_config c) (c_env c) (c_depth c) (c_file c) (after history))
    as [o st1] eqn:Hcall.
  simpl in Hret. subst o. cbn [snd].
  destruct (returned_tables _ _ _ _ _ _ _ (truthyTable_after history) Hcall)
    as (_ & Hsat & _).
  destruct (Hsat g Hg) as (deps & (s & Hs & Hdeps) & _). eauto.
Qed.

Lemma closure_is_cached_witness :
  exists s deps,
    Fs.statSync projectEnv "/p/helpers.mjs" = inr s
    /\ dependencyCache (after ([] ++ [projectCall])) !! cacheKey "/p/helpers.mjs" s
       = Some deps.
Proof.
  apply (closure_is_cached [] projectCall {["/p/util.js"; "/p/helpers.mjs"]}).
  - vm_compute. reflexivity.
  - right. apply elem_of_union_r, elem_of_singleton. reflexivity.
Defined.

(** After a call has returned [X], a call on a member of [X], in the same
    file system and with room on the stack, returns a subset of [X]; it
    reads no file and leaves the two tables as they are. *)
Theorem member_call_returns_subset history c X g :
  fst (perform c (after history)) = Returns X ->
  g ∈ X ->
  exists depth, forall d, depth <= d ->
    let st1 := after (history ++ [c]) in
    let again := getDependencies (c_config c) (c_env c) d g st1 in
    exists Xg, fst again = Returns Xg
      /\ Xg ⊆ X
      /\ readLog (snd again) = readLog st1
      /\ dependencyCache (snd again) = dependencyCache st1
      /\ resolverCache (snd again) = resolverCache st1.
Proof.
  intros Hret Hg. rewrite after_snoc. unfold perform in *.
  destruct c as [cfg e depth0 f]. cbn [c_config c_env c_depth c_file] in *.
  destruct (getDependencies cfg e depth0 f (after history)) as [o st1] eqn:Hcall.
  simpl in Hret. subst o. cbn [snd].
  destruct (returned_tables _ _ _ _ _ _ _ (truthyTable_after history) Hcall)
    as (Hwf1 & Hsat & Hclosed & Hordered & _).
  exists (S (rank st1 g)). intros d Hd.
  destruct (getDependencies_rerun cfg e st1 f X Hwf1 Hsat Hclosed Hordered d g st1)
    as (Xg & st2 & Hcall2 & (Hdc & Hrc & Hread) & HXg); [by right|lia|done|].
  rewrite Hcall2. cbn [fst snd]. exists Xg.
  split; [done|]. split; [|done].
  intros w Hw. apply HXg in Hw.
  eapply (reaches_closed e st1 f X Hclosed); eauto.
Qed.

Lemma member_call_returns_subset_witness :
  exists depth, forall d, depth <= d ->
    let st1 := after ([] ++ [projectCall]) in
    let again := getDependencies defaultSearchConfig projectEnv d "/p/util.js" st1 in
    exists Xg, fst again = Returns Xg
      /\ Xg ⊆ {["/p/util.js"; "/p/helpers.mjs"]}
      /\ readLog (snd again) = readLog st1
      /\ dependencyCache (snd again) = dependencyCache st1
      /\ resolverCache (snd again) = resolverCache st1.
Proof.
  apply (member_call_returns_subset [] projectCall {["/p/util.js"; "/p/helpers.mjs"]}).
  - vm_compute. reflexivity.
  - apply elem_of_union_l, elem_of_singleton. reflexivity.
Defined.

(** ** Loops that end, and loops that do not *)

Lemma findDependencyReferences_total inputs p :
  productive p -> is_Some (findDependencyReferences inputs p).
Proof.
  destruct p as [fn|r]; simpl; intros Hp; [done|].
  apply fmap_is_Some, mapM_is_Some, Forall_forall. intros input _. simpl.
  destruct (execLoop_total r Hp (String.length input) input 0) as [out ->];
    [lia|lia|eauto].
Qed.

Lemma extract_total ps content :
  Forall productive ps -> is_Some (extract ps content).
Proof.
  unfold extract. generalize [content] as inputs.
  induction ps as [|p ps IH]; intros inputs Hps; simpl; [eauto|].
  apply Forall_cons in Hps as [Hp Hps].
  destruct (findDependencyReferences_total inputs p Hp) as [out ->]. by apply IH.
Qed.

Lemma productiveConfig_configFor cfg f :
  productiveConfig cfg -> Forall productive (parsers (configFor cfg f)).
Proof.
  intros Hcfg. unfold configFor.
  destruct (cfg !! Path.extname f) as [lc|] eqn:Hlc; simpl; [by eapply Hcfg|constructor].
Qed.

Lemma productiveConfig_default : productiveConfig defaultSearchConfig.
Proof.
  intros ext lc. unfold defaultSearchConfig.
  rewrite !lookup_insert_Some, lookup_empty.
  intros [[_ <-]|[_ [[_ <-]|[_ [[_ <-]|[_ ?]]]]]]; try done;
    repeat constructor; simpl; lia.
Qed.

Lemma forEachDependency_Diverges recur e directory rs deps :
  forall results st,
    fst (forEachDependency recur e directory rs deps results st) = Diverges ->
    exists g st', fst (recur g st') = Diverges.
Proof.
  induction deps as [|dep deps IH]; intros results st; simpl; [done|].
  destruct (dependencyOf e rs _ st) as [[v|] st1]; [|apply IH].
  destruct (recur v st1) as [[X| |] st2] eqn:Hrec; simpl.
  - apply IH.
  - done.
  - intros _. exists v, st1. by rewrite Hrec.
Qed.

Lemma productive_not_Diverges cfg e depth :
  productiveConfig cfg ->
  forall f st, fst (getDependencies cfg e depth f st) <> Diverges.
Proof.
  intros Hcfg. induction depth as [|depth IH]; intros f st; [done|].
  rewrite getDependencies_S. unfold references.
  destruct (Fs.statSync e f) as [err|s]; [done|].
  destruct (dependencyCache _ !! cacheKey f s) as [deps|].
  - intros H. apply forEachDependency_Diverges in H as (g & st' & H). by eapply IH.
  - destruct (Fs.readFileSync e f) as [err|content]; [done|].
    destruct (extract_total (parsers (configFor cfg f)) content) as [deps ->];
      [by apply productiveConfig_configFor|].
    intros H. apply forEachDependency_Diverges in H as (g & st' & H). by eapply IH.
Qed.

Lemma search_nullable r :
  (forall i, is_Some (matcher r accept [] i ∅)) ->
  forall rest i, is_Some (search r rest i).
Proof.
  intros Hnull. induction rest as [|c rest IH]; intros i; simpl.
  - destruct (Hnull i) as [[j cs] ->]. eauto.
  - destruct (matcher r accept (c :: rest) i ∅) as [[j cs]|]; [eauto|apply IH].
Qed.

Lemma execLoop_nullable r input :
  (forall i, is_Some (matcher r accept [] i ∅)) ->
  forall fuel lastIndex,
    lastIndex <= String.length input -> execLoop fuel r input lastIndex = None.
Proof.
  intros Hnull. induction fuel as [|fuel IH]; intros lastIndex Hle; simpl.
  - destruct (Regex.exec r input lastIndex) as [mr|] eqn:Hexec.
    + by destruct (Nat.leb (m_end mr) lastIndex).
    + unfold Regex.exec in Hexec. rewrite <- string_length_chars in Hexec.
      destruct (Nat.ltb_spec (String.length input) lastIndex); [lia|].
      destruct (search_nullable r Hnull (drop lastIndex (list_ascii_of_string input))
                  lastIndex) as [mr Hmr]. congruence.
  - destruct (Regex.exec r input lastIndex) as [mr|] eqn:Hexec.
    + destruct (Nat.leb (m_end mr) lastIndex); [done|].
      apply exec_bounds in Hexec as (_ & _ & Hend). by rewrite IH.
    + unfold Regex.exec in Hexec. rewrite <- string_length_chars in Hexec.
      destruct (Nat.ltb_spec (String.length input) lastIndex); [lia|].
      destruct (search_nullable r Hnull (drop lastIndex (list_ascii_of_string input))
                  lastIndex) as [mr Hmr]. congruence.
Qed.

(** A pattern that matches the empty string at the end of an input never
    lets the loop of [findDependencyReferences] end: [exec] leaves
    [lastIndex] where it is and finds the same match again. The call on a
    list with one input at least does not return. *)
Theorem empty_match_never_returns r input inputs :
  (forall i, is_Some (matcher r accept [] i ∅)) ->
  findDependencyReferences (input :: inputs) (ParserRe r) = None.
Proof.
  intros Hnull. simpl.
  rewrite (execLoop_nullable r input Hnull (String.length input) 0); [done|lia].
Qed.

Lemma empty_match_never_returns_witness :
  findDependencyReferences ["import x"] (ParserRe (Rep true 0 false [CWord])) = None.
Proof.
  apply (empty_match_never_returns (Rep true 0 false [CWord]) "import x" []).
  intros i. simpl. eauto.
Defined.

(** ** Reads of a file *)

Lemma reads_logRead f g st :
  reads f (logRead g st) = if decide (g = f) then S (reads f st) else reads f st.
Proof. unfold reads. simpl. rewrite filter_cons. by destruct (decide (g = f)). Qed.

Lemma readOnce_same e st st' :
  dependencyCache st' = dependencyCache st -> readLog st' = readLog st ->
  readOnce e st -> readOnce e st'.
Proof.
  intros Hdc Hread H f content Hf. unfold reads, cachedNow in *.
  rewrite Hdc, Hread. eauto.
Qed.

Lemma readOnce_references cfg e f st :
  productiveConfig cfg -> readOnce e st ->
  readOnce e (snd (references e (parsers (configFor cfg f)) f st)).
Proof.
  intros Hcfg HJ. unfold references.
  destruct (Fs.statSync e f) as [err|s] eqn:Hstat; [done|].
  destruct (dependencyCache st !! cacheKey f s) as [deps|] eqn:Hdc; [done|].
  destruct (Fs.readFileSync e f) as [err|content] eqn:Hread; simpl.
  - intros g content' Hg. rewrite reads_logRead.
    destruct (decide (f = g)) as [->|Hne]; [congruence|].
    destruct (HJ g content' Hg) as [H1 H2]. split; [done|].
    intros H. destruct (H2 H) as (s' & Hs' & Hc). exists s'. done.
  - destruct (extract_total (parsers (configFor cfg f)) content) as [deps ->];
      [by apply productiveConfig_configFor|].
    cbn [snd]. intros g content' Hg. unfold cachedNow.
    change (reads g (setDependencies (cacheKey f s) deps (logRead f st)))
      with (reads g (logRead f st)).
    change (dependencyCache (setDependencies (cacheKey f s) deps (logRead f st)))
      with (<[cacheKey f s := deps]> (dependencyCache st)).
    rewrite reads_logRead. destruct (HJ g content' Hg) as [H1 H2].
    destruct (decide (f = g)) as [->|Hne].
    + assert (reads g st = 0) as ->.
      { destruct (reads g st) as [|[|n]] eqn:Hn; [done| |lia].
        destruct (H2 eq_refl) as (s' & Hs' & Hc).
        rewrite Hstat in Hs'. injection Hs' as <-. rewrite Hdc in Hc.
        by destruct Hc. }
      split; [lia|]. intros _. exists s. rewrite lookup_insert_eq. eauto.
    + split; [done|]. intros H. destruct (H2 H) as (s' & Hs' & Hc).
      exists s'. split; [done|].
      destruct (decide (cacheKey f s = cacheKey g s')) as [->|Hk].
      * rewrite lookup_insert_eq. eauto.
      * by rewrite lookup_insert_ne.
Qed.

Lemma readOnce_forEach cfg e recur f deps :
  (forall g st, readOnce e st -> readOnce e (snd (recur g st))) ->
  forall results st,
    readOnce e st ->
    readOnce e (snd (forEachDependency recur e (Path.dirname f)
                       (resolvers (configFor cfg f)) deps results st)).
Proof.
  intros Hrec. induction deps as [|dep deps IH]; intros results st HJ; simpl; [done|].
  destruct (dependencyOf e _ _ st) as [v st1] eqn:Hdep.
  apply dependencyOf_state in Hdep as (Hdc & _ & Hread & _).
  assert (HJ1 : readOnce e st1) by (by eapply readOnce_same).
  destruct v as [v|]; [|by apply IH].
  specialize (Hrec v st1 HJ1).
  destruct (recur v st1) as [[X| |] st2]; simpl in *; [by apply IH|done|done].
Qed.

Lemma readOnce_call cfg e depth :
  productiveConfig cfg ->
  forall f st, readOnce e st -> readOnce e (snd (getDependencies cfg e depth f st)).
Proof.
  intros Hcfg. induction depth as [|depth IH]; intros f st HJ; [done|].
  rewrite getDependencies_S.
  pose proof (readOnce_references cfg e f (logCall f st) Hcfg) as HJ1.
  destruct (references e _ f (logCall f st)) as [[deps| |] st1]; simpl in *;
    try (by apply HJ1).
  apply readOnce_forEach; [exact IH|by apply HJ1].
Qed.



(** ** Loops that end *)

Lemma andThen_ends {A B : Type} (o : outcome A) (k : A -> outcome B) :
  o <> Diverges -> (forall a, k a <> Diverges) -> Custom.andThen o k <> Diverges.
Proof. destruct o; simpl; auto. Qed.

Lemma forInputs_ends body inputs :
  (forall input, body input <> Diverges) -> Custom.forInputs body inputs <> Diverges.
Proof.
  intros Hbody. induction inputs as [|input inputs IH]; simpl; [done|].
  apply andThen_ends; [done|]. intros found. by apply andThen_ends.
Qed.

Lemma findDependencyReferences_ends inputs p :
  ends p -> Custom.findDependencyReferences inputs p <> Diverges.
Proof.
  destruct p as [f|global r|]; simpl; intros Hp; apply forInputs_ends; intros input.
  - by apply andThen_ends.
  - destruct Hp as [-> Hmin]. unfold Custom.execAll.
    destruct (execLoop_total r Hmin (String.length input) input 0) as [out ->];
      [lia|lia|done].
  - done.
Qed.

Lemma extract_ends ps content :
  Forall ends ps -> Custom.extract ps content <> Diverges.
Proof.
  induction ps as [|p ps IH] using rev_ind; intros Hps; [done|].
  apply Forall_app in Hps as [Hps Hp]. apply Forall_cons in Hp as [Hp _].
  rewrite extract_snoc. apply andThen_ends; [by apply IH|].
  intros inputs. by apply findDependencyReferences_ends.
Qed.

Lemma resolveDependencyReference_ends e k rs :
  Forall (fun step : string -> outcome string => forall input, step input <> Diverges) rs ->
  Custom.resolveDependencyReference e k rs <> Diverges.
Proof.
  intros Hrs. unfold Custom.resolveDependencyReference.
  destruct (isRegularFile e k); [done|].
  induction rs as [|r rs IH]; simpl; [done|].
  apply Forall_cons in Hrs as [Hr Hrs]. apply andThen_ends; [done|].
  intros p. destruct (isRegularFile e p); [done|by apply IH].
Qed.

Lemma dependencyOf_ends e k rs st :
  Forall (fun step : string -> outcome string => forall input, step input <> Diverges) rs ->
  fst (Custom.dependencyOf e rs k st) <> Diverges.
Proof.
  intros Hrs. pose proof (resolveDependencyReference_ends e k rs Hrs) as Hres.
  unfold Custom.dependencyOf.
  destruct (resolverCache st !! k) as [d|]; [destruct (truthy d); [done|]|];
    destruct (Custom.resolveDependencyReference e k rs) as [[v|]| |]; try done;
    by destruct (truthy v).
Qed.

Lemma forEachDependency_ends recur e directory rs deps :
  Forall (fun step : string -> outcome string => forall input, step input <> Diverges) rs ->
  (forall g st, fst (recur g st) <> Diverges) ->
  forall results st,
    fst (Custom.forEachDependency recur e directory rs deps results st) <> Diverges.
Proof.
  intros Hrs Hrec. induction deps as [|dep deps IH]; intros results st; simpl; [done|].
  pose proof (dependencyOf_ends e (Path.resolve (Fs.cwd e) [directory; dep]) rs st Hrs) as Hd.
  destruct (Custom.dependencyOf e rs _ st) as [[[v|]| |] st1]; simpl in *; try done.
  specialize (Hrec v st1). destruct (recur v st1) as [[X| |] st2]; simpl in *; done.
Qed.

Lemma endingConfig_configFor cfg f :
  endingConfig cfg ->
  Forall ends (Custom.parsers (Custom.configFor cfg f))
  /\ Forall (fun step : string -> outcome string => forall input, step input <> Diverges)
       (Custom.resolvers (Custom.configFor cfg f)).
Proof.
  intros Hcfg. unfold Custom.configFor.
  destruct (cfg !! Path.extname f) as [lc|] eqn:Hlc; simpl; [by eapply Hcfg|].
  split; constructor.
Qed.

Lemma getDependencies_ends cfg e depth :
  endingConfig cfg ->
  forall f st, fst (Custom.getDependencies cfg e depth f st) <> Diverges.
Proof.
  intros Hcfg. induction depth as [|depth IH]; intros f st; [done|].
  cbn [Custom.getDependencies].
  destruct (endingConfig_configFor cfg f Hcfg) as [Hps Hrs].
  pose proof (extract_ends (Custom.parsers (Custom.configFor cfg f))) as Hex.
  unfold Custom.references.
  destruct (Fs.statSync e f) as [err|s]; [done|].
  destruct (dependencyCache _ !! cacheKey f s) as [deps|].
  - by apply forEachDependency_ends.
  - destruct (Fs.readFileSync e f) as [err|content]; [done|].
    specialize (Hex content Hps).
    destruct (Custom.extract _ content) as [deps| |]; [|done|done].
    by apply forEachDependency_ends.
Qed.

Lemma endingConfig_embed cfg : productiveConfig cfg -> endingConfig (embed cfg).
Proof.
  intros Hcfg ext lc. unfold embed. rewrite lookup_fmap.
  destruct (cfg !! ext) as [lc0|] eqn:Hlc; [|done]. intros [= <-]. simpl. split.
  - apply Forall_map. eapply Forall_impl; [by eapply Hcfg|].
    intros [f|r]; simpl; [done|]. by split.
  - apply Forall_map. by apply Forall_forall.
Qed.



(** ** What the patterns capture *)

Lemma matcher_Chr_inv c k rest i cs res :
  matcher (Chr c) k rest i cs = Some res ->
  exists rest', rest = c :: rest' /\ k rest' (S i) cs = Some res.
Proof.
  simpl. destruct rest as [|c' rest']; [done|].
  destruct (Ascii.eqb_spec c c') as [->|]; [eauto|done].
Qed.

Lemma not_class_ne q c : in_class true [CChar q] c = true <-> c <> q.
Proof.
  unfold in_class. simpl. rewrite orb_false_r.
  destruct (Ascii.eqb_spec q c) as [->|Hne]; simpl; split; try done; congruence.
Qed.

Lemma drop_cons_take {A} n (l : list A) x l' :
  drop n l = x :: l' -> take (S n) l = take n l ++ [x] /\ drop (S n) l = l'.
Proof.
  intros H. assert (Hx : l !! n = Some x).
  { rewrite <- (Nat.add_0_r n), <- lookup_drop, H. done. }
  split; [by apply take_S_r|].
  rewrite (drop_S _ _ _ Hx) in H. congruence.
Qed.

(** One alternative of a quoted literal. *)
Lemma quoted_one_inv double (dotted : bool) k rest i cs res :
  matcher (Chr (quoteChar double)
           ⋅ (if dotted then Chr "." ⋅ Rep true 1 true [CChar (quoteChar double)]
              else Rep true 1 true [CChar (quoteChar double)])
           ⋅ Chr (quoteChar double))%re k rest i cs = Some res ->
  exists n, n <= length rest /\ quotedLiteral dotted (take n rest)
            /\ k (drop n rest) (i + n) cs = Some res.
Proof.
  set (q := quoteChar double). rewrite !matcher_Seq.
  intros H. apply matcher_Chr_inv in H as (r1 & -> & H).
  destruct dotted.
  - rewrite matcher_Seq in H. apply matcher_Chr_inv in H as (r2 & -> & H).
    rewrite matcher_Rep_greedy in H.
    apply rep_greedy_consumes in H as (n & Hmin & Hlen & Hall & H).
    apply matcher_Chr_inv in H as (r3 & Hdrop & H).
    apply drop_cons_take in Hdrop as [Htake Hdrop].
    exists (S (S (S n))). split; [|split].
    + assert (S n <= length r2); [|simpl; lia].
      apply (f_equal length) in Htake. rewrite length_app, !length_take in Htake.
      change (length [_]) with 1 in Htake. lia.
    + exists double, ("."%char :: take n r2). cbn [take]. rewrite Htake.
      split; [done|]. split; [done|]. split.
      * constructor; [by destruct double|].
        eapply Forall_impl; [exact Hall|]. intros c. apply not_class_ne.
      * intros _. exists (take n r2). split; [done|].
        intros H0. apply (f_equal length) in H0. rewrite length_take in H0. simpl in H0.
        lia.
    + cbn [drop]. rewrite Hdrop.
      replace (i + S (S (S n))) with (S (S (S i) + n)) by lia. exact H.
  - rewrite matcher_Rep_greedy in H.
    apply rep_greedy_consumes in H as (n & Hmin & Hlen & Hall & H).
    apply matcher_Chr_inv in H as (r3 & Hdrop & H).
    apply drop_cons_take in Hdrop as [Htake Hdrop].
    exists (S (S n)). split; [|split].
    + assert (S n <= length r1); [|simpl; lia].
      apply (f_equal length) in Htake. rewrite length_app, !length_take in Htake.
      change (length [_]) with 1 in Htake. lia.
    + exists double, (take n r1). cbn [take]. rewrite Htake.
      split; [done|]. split; [|split; [|done]].
      * intros H0. apply (f_equal length) in H0. rewrite length_take in H0. simpl in H0.
        lia.
      * eapply Forall_impl; [exact Hall|]. intros c. apply not_class_ne.
    + cbn [drop]. rewrite Hdrop.
      replace (i + S (S n)) with (S (S i + n)) by lia. exact H.
Qed.

Lemma takes_quoted (dotted : bool) :
  takes (quotedLiteral dotted)
    (quoted (fun q => if dotted then Chr "." ⋅ Rep true 1 true [CChar q]
                      else Rep true 1 true [CChar q])%re).
Proof.
  intros k rest i cs res. unfold quoted. rewrite matcher_Alt.
  destruct (matcher (Chr dq ⋅ _ ⋅ Chr dq)%re k rest i cs) as [res'|] eqn:H1.
  - intros [= ->]. by apply (quoted_one_inv true) in H1.
  - intros H2. by apply (quoted_one_inv false) in H2.
Qed.

Lemma matcher_captures P r :
  capturesOnly P r ->
  forall k rest i cs res,
    matcher r k rest i cs = Some res ->
    exists rest' i' cs', (capsAll P cs -> capsAll P cs') /\ k rest' i' cs' = Some res.
Proof.
  induction r as [|c|neg items| | |r1 IH1 r2 IH2|r1 IH1 r2 IH2|n r1 _|r1 IH1
                 |greedy min neg items]; intros Hr k rest i cs res; simpl.
  - eauto.
  - destruct rest as [|c' rest']; [done|]. destruct (Ascii.eqb c c'); [eauto|done].
  - destruct rest as [|c' rest']; [done|]. destruct (in_class neg items c'); [eauto|done].
  - destruct i; [eauto|done].
  - destruct rest; [eauto|done].
  - destruct Hr as [Hr1 Hr2]. intros H.
    apply (IH1 Hr1) in H as (rest1 & i1 & cs1 & Hcs1 & H).
    apply (IH2 Hr2) in H as (rest2 & i2 & cs2 & Hcs2 & H). eauto 10.
  - destruct Hr as [Hr1 Hr2].
    destruct (matcher r1 k rest i cs) as [res'|] eqn:H1.
    + intros [= ->]. by apply (IH1 Hr1) in H1.
    + by apply IH2.
  - intros H. apply Hr in H as (m & Hm & HP & H).
    replace (i + m - i) with m in H by lia.
    exists (drop m rest), (i + m), (<[n := take m rest]> cs). split; [|done].
    intros Hcs n' l. destruct (decide (n = n')) as [<-|Hne].
    + rewrite lookup_insert_eq. by intros [= <-].
    + rewrite lookup_insert_ne by done. apply Hcs.
  - destruct (matcher r1 k rest i cs) as [res'|] eqn:H1.
    + intros [= ->]. by apply (IH1 Hr) in H1.
    + eauto.
  - destruct greedy; intros H.
    + apply rep_greedy_consumes in H as (m & _ & _ & _ & H). eauto.
    + apply rep_lazy_consumes in H as (m & _ & _ & _ & H). eauto.
Qed.

Lemma search_captures P r :
  capturesOnly P r ->
  forall rest i mr,
    search r rest i = Some mr ->
    Forall (fun g => forall s, g = Some s -> P (list_ascii_of_string s)) (m_groups mr).
Proof.
  intros Hr. induction rest as [|c rest IH]; intros i mr; rewrite search_unfold.
  all: destruct (matcher r accept _ i ∅) as [[j cs]|] eqn:Hm; [|done || apply IH].
  all: intros [= <-]; cbn [m_groups];
    apply (matcher_captures P r Hr) in Hm as (rest' & i' & cs' & Hcs & [= _ <-]);
    apply Forall_forall; intros g [n [-> _]]%list_elem_of_fmap s Hs;
    destruct (cs' !! n) as [l|] eqn:Hl; [|done]; injection Hs as <-;
    rewrite list_ascii_of_string_of_list_ascii; eapply Hcs; [|exact Hl];
    intros ? ?; by rewrite lookup_empty.
Qed.

(** Whatever the input, the loop over the matches of a pattern yields
    captured runs only. *)
Lemma execLoop_captures P r :
  capturesOnly P r ->
  forall fuel input lastIndex out,
    execLoop fuel r input lastIndex = Some out ->
    Forall (fun s => P (list_ascii_of_string s)) out.
Proof.
  intros Hr. induction fuel as [|fuel IH]; intros input lastIndex out; simpl.
  - destruct (Regex.exec r input lastIndex) as [mr|]; [|by intros [= <-]].
    by destruct (Nat.leb (m_end mr) lastIndex).
  - destruct (Regex.exec r input lastIndex) as [mr|] eqn:Hexec; [|by intros [= <-]].
    destruct (Nat.leb (m_end mr) lastIndex); [done|].
    destruct (execLoop fuel r input (m_end mr)) as [later|] eqn:Hlater; [|done].
    intros [= <-]. apply Forall_app. split; [|by eapply IH].
    unfold Regex.exec in Hexec.
    destruct (Nat.ltb _ lastIndex); [done|].
    apply (search_captures P r Hr) in Hexec.
    apply Forall_forall. intros s Hs.
    apply list_elem_of_omap in Hs as (g & Hg & Hs).
    rewrite Forall_forall in Hexec. apply (Hexec g Hg).
    destruct g as [s'|]; [|done]. simpl in Hs. by destruct (truthy s'); [injection Hs as ->|].
Qed.

(** ** The second stage on the output of the first *)

Lemma unquote_literal q body :
  unquote (string_of_list_ascii (q :: body ++ [q])) = string_of_list_ascii body.
Proof.
  unfold unquote. rewrite list_ascii_of_string_of_list_ascii. simpl.
  by rewrite removelast_last.
Qed.

Lemma truthy_chars body : body <> [] -> truthy (string_of_list_ascii body) = true.
Proof. by destruct body. Qed.

Lemma quoted_group_match q n body :
  body <> [] -> Forall (fun c => c <> q) body ->
  matcher (Chr q ⋅ Grp n (Rep true 1 true [CChar q]) ⋅ Chr q)%re accept
    (q :: body ++ [q]) 0 ∅
  = Some (length body + 2, <[n := body]> ∅).
Proof.
  intros Hne Hall. rewrite !matcher_Seq, matcher_Chr, matcher_Grp, matcher_Rep_greedy.
  apply rep_greedy_stop.
  - eapply Forall_impl; [exact Hall|]. intros c. apply not_class_ne.
  - apply not_true_is_false. rewrite not_class_ne. auto.
  - destruct body; [done|simpl; lia].
  - rewrite matcher_Chr. unfold accept.
    replace (1 + length body - 1) with (length body) by lia.
    rewrite take_app_length. do 2 f_equal. lia.
Qed.

Lemma unwrap_patterns_end u i :
  u = unwrapQuotesPattern \/ u = scssUnwrapPattern -> search u [] i = None.
Proof. by intros [-> | ->]. Qed.

(** On a quoted literal either pattern for unwrapping matches the whole
    literal with its first or its second alternative, and captures what
    is between the quotes. *)
Lemma exec_unwrap_literal u dotted l :
  u = unwrapQuotesPattern \/ u = scssUnwrapPattern ->
  quotedLiteral dotted l ->
  exists gs,
    Regex.exec u (string_of_list_ascii l) 0 = Some (MatchResult 0 (length l) gs)
    /\ omap truthyGroup gs = [unquote (string_of_list_ascii l)].
Proof.
  intros Hu (double & body & -> & Hne & Hall & _).
  unfold Regex.exec. rewrite list_ascii_of_string_of_list_ascii.
  cbn [Nat.ltb Nat.leb]. rewrite drop_0, search_unfold, unquote_literal.
  assert (Hlen : length (quoteChar double :: body ++ [quoteChar double]) = length body + 2).
  { cbn [length]. rewrite length_app. simpl. lia. }
  rewrite Hlen.
  pose proof (truthy_chars body Hne) as Ht.
  assert (Hdq : matcher (Chr dq ⋅ Grp 1 (Rep true 1 true [CChar dq]) ⋅ Chr dq)%re accept
                  (sq :: body ++ [sq]) 0 ∅ = None).
  { rewrite !matcher_Seq. by apply matcher_Chr_ne. }
  destruct Hu as [-> | ->]; destruct double; cbn [quoteChar] in *.
  - unfold unwrapQuotesPattern at 1. rewrite matcher_Alt, quoted_group_match by done.
    eexists. split; [reflexivity|].
    change (groups unwrapQuotesPattern ?cs)
      with [string_of_list_ascii <$> cs !! 1; string_of_list_ascii <$> cs !! 2].
    rewrite lookup_insert_eq, lookup_insert_ne, lookup_empty by done.
    simpl. by rewrite Ht.
  - unfold unwrapQuotesPattern at 1. rewrite matcher_Alt, Hdq, quoted_group_match by done.
    eexists. split; [reflexivity|].
    change (groups unwrapQuotesPattern ?cs)
      with [string_of_list_ascii <$> cs !! 1; string_of_list_ascii <$> cs !! 2].
    rewrite lookup_insert_eq, lookup_insert_ne, lookup_empty by done.
    simpl. by rewrite Ht.
  - unfold scssUnwrapPattern at 1. rewrite !matcher_Alt, quoted_group_match by done.
    eexists. split; [reflexivity|].
    change (groups scssUnwrapPattern ?cs)
      with [string_of_list_ascii <$> cs !! 1; string_of_list_ascii <$> cs !! 2;
            string_of_list_ascii <$> cs !! 3; string_of_list_ascii <$> cs !! 4;
            string_of_list_ascii <$> cs !! 5].
    rewrite lookup_insert_eq, !lookup_insert_ne, lookup_empty by done.
    simpl. by rewrite Ht.
  - unfold scssUnwrapPattern at 1. rewrite !matcher_Alt, Hdq, quoted_group_match by done.
    eexists. split; [reflexivity|].
    change (groups scssUnwrapPattern ?cs)
      with [string_of_list_ascii <$> cs !! 1; string_of_list_ascii <$> cs !! 2;
            string_of_list_ascii <$> cs !! 3; string_of_list_ascii <$> cs !! 4;
            string_of_list_ascii <$> cs !! 5].
    rewrite lookup_insert_eq, !lookup_insert_ne, lookup_empty by done.
    simpl. by rewrite Ht.
Qed.

Lemma execLoop_unwrap_literal u dotted s :
  u = unwrapQuotesPattern \/ u = scssUnwrapPattern ->
  quotedLiteral dotted (list_ascii_of_string s) ->
  execLoop (String.length s) u s 0 = Some [unquote s].
Proof.
  intros Hu Hl.
  destruct (exec_unwrap_literal u dotted _ Hu Hl) as (gs & Hexec & Hgs).
  rewrite string_of_list_ascii_of_string, <- string_length_chars in *.
  assert (Hpos : 1 <= String.length s).
  { destruct Hl as (double & body & Hs & _). rewrite string_length_chars, Hs. simpl. lia. }
  assert (Hend : forall fuel, execLoop fuel u s (String.length s) = Some []).
  { intros fuel. apply execLoop_None. unfold Regex.exec.
    rewrite string_length_chars, Nat.ltb_irrefl, drop_all.
    by apply unwrap_patterns_end. }
  destruct (String.length s) as [|L] eqn:HL; [lia|].
  cbn [execLoop]. rewrite Hexec. cbn [m_end m_groups Nat.leb].
  rewrite Hend, Hgs. reflexivity.
Qed.

Lemma mjoin_singletons {A B} (f : A -> B) (l : list A) :
  mjoin (map (fun x => [f x]) l) = map f l.
Proof. induction l as [|x l IH]; simpl; [done|by rewrite IH]. Qed.

Lemma unwrap_stage_literals u dotted literals :
  u = unwrapQuotesPattern \/ u = scssUnwrapPattern ->
  Forall (fun s => quotedLiteral dotted (list_ascii_of_string s)) literals ->
  findDependencyReferences literals (ParserRe u) = Some (map unquote literals).
Proof.
  intros Hu Hall. unfold findDependencyReferences.
  assert (H : mapM (fun input => execLoop (String.length input) u input 0) literals
              = Some (map (fun s => [unquote s]) literals)).
  { induction Hall as [|s literals Hs Hall IH]; [done|].
    cbn [mapM]. rewrite (execLoop_unwrap_literal u dotted s Hu Hs), IH. reflexivity. }
  rewrite H. simpl. by rewrite mjoin_singletons.
Qed.

Lemma first_stage_captures P r content :
  capturesOnly P r -> 1 <= minlen r ->
  exists literals,
    findDependencyReferences [content] (ParserRe r) = Some literals
    /\ Forall (fun s => P (list_ascii_of_string s)) literals.
Proof.
  intros Hr Hmin.
  destruct (execLoop_total r Hmin (String.length content) content 0) as [out Hout];
    [lia|lia|].
  exists out. split.
  - simpl. rewrite Hout. simpl. by rewrite app_nil_r.
  - by eapply execLoop_captures.
Qed.

Lemma relativeReference_unquote s :
  quotedLiteral true (list_ascii_of_string s) -> relativeReference (unquote s).
Proof.
  intros (double & body & Hs & _ & _ & Hdot).
  destruct (Hdot eq_refl) as (rest & -> & Hrest).
  rewrite <- (string_of_list_ascii_of_string s), Hs, unquote_literal.
  exists (string_of_list_ascii rest). split; [reflexivity|]. by destruct rest.
Qed.

(** ** The two pipelines of the default configuration *)

(** Whatever the content of a script file, the pipeline ends, and it
    yields one reference for each literal that the first pattern finds:
    the text between the quotes, which starts with a dot and has one more
    character at least. A reference that does not start with a dot, such
    as the name of a package, is never extracted. *)
Theorem script_references_are_relative content :
  exists literals,
    findDependencyReferences [content] (ParserRe jsImportPattern) = Some literals
    /\ extract (parsers jsSearchConfig) content = Some (map unquote literals)
    /\ Forall relativeReference (map unquote literals).
Proof.
  destruct (first_stage_captures (quotedLiteral true) jsImportPattern content)
    as (literals & Hfirst & Hall).
  { simpl. repeat split; try exact I. apply (takes_quoted true). }
  { simpl. lia. }
  exists literals. split; [done|]. split.
  - change (extract (parsers jsSearchConfig) content)
      with (findDependencyReferences [content] (ParserRe jsImportPattern)
            ≫= fun inputs => findDependencyReferences inputs (ParserRe unwrapQuotesPattern)).
    rewrite Hfirst. cbn [mbind option_bind]. eapply unwrap_stage_literals; eauto.
  - apply Forall_fmap. eapply Forall_impl; [exact Hall|].
    intros s. apply relativeReference_unquote.
Qed.

(** Whatever the content of a stylesheet, the pipeline ends, and it yields
    one reference for each literal that the first pattern finds: the text
    between the quotes. The alternatives of the second pattern for [url]
    never take part: every input of the second stage begins with a quote
    character. *)
Theorem stylesheet_references_are_unquoted content :
  exists literals,
    findDependencyReferences [content] (ParserRe scssImportPattern) = Some literals
    /\ Forall (fun s => quotedLiteral false (list_ascii_of_string s)) literals
    /\ extract (parsers scssSearchConfig) content = Some (map unquote literals).
Proof.
  destruct (first_stage_captures (quotedLiteral false) scssImportPattern content)
    as (literals & Hfirst & Hall).
  { simpl. repeat split; try exact I; apply (takes_quoted false). }
  { simpl. lia. }
  exists literals. split; [done|]. split; [done|].
  change (extract (parsers scssSearchConfig) content)
    with (findDependencyReferences [content] (ParserRe scssImportPattern)
          ≫= fun inputs => findDependencyReferences inputs (ParserRe scssUnwrapPattern)).
  rewrite Hfirst. cbn [mbind option_bind]. eapply unwrap_stage_literals; eauto.
Qed.

(** ** Statements that do not begin their line *)

Lemma matcher_lit_inv s : forall k rest i cs res,
  matcher (lit s) k rest i cs = Some res -> startsWith (list_ascii_of_string s) rest = true.
Proof.
  induction s as [|c s IH]; intros k rest i cs res; [done|].
  destruct s as [|c' s].
  - intros H. apply matcher_Chr_inv in H as (rest' & -> & _).
    simpl. by rewrite Ascii.eqb_refl.
  - change (lit (String c (String c' s))) with (Seq (Chr c) (lit (String c' s))).
    rewrite matcher_Seq. intros H. apply matcher_Chr_inv in H as (rest' & -> & H).
    apply IH in H. cbn [list_ascii_of_string startsWith] in *.
    by rewrite Ascii.eqb_refl, H.
Qed.

Lemma matcher_Bol_inv k rest i cs res :
  matcher Bol k rest i cs = Some res -> i = 0 /\ k rest 0 cs = Some res.
Proof. destruct i; simpl; [auto|done]. Qed.

Lemma matcher_Class_inv neg items k rest i cs res :
  matcher (Class neg items) k rest i cs = Some res ->
  exists c rest', rest = c :: rest' /\ in_class neg items c = true
                  /\ k rest' (S i) cs = Some res.
Proof.
  simpl. destruct rest as [|c rest']; [done|].
  destruct (in_class neg items c) eqn:Hc; [eauto|done].
Qed.

Lemma matcher_keyword_inv k rest i cs res :
  matcher (lit "import" ∣ lit "export")%re k rest i cs = Some res ->
  startsWithKeyword rest = true.
Proof.
  rewrite matcher_Alt. unfold startsWithKeyword.
  destruct (matcher (lit "import") k rest i cs) eqn:H1.
  - intros _. apply matcher_lit_inv in H1. by rewrite H1.
  - intros H2. apply matcher_lit_inv in H2. rewrite H2. apply orb_true_r.
Qed.

(** A match of the first pattern begins at the start of the input or at a
    line break, and [import] or [export] follows at once. *)
Lemma jsImportPattern_line_start k rest i cs res :
  matcher jsImportPattern k rest i cs = Some res ->
  (i = 0 /\ startsWithKeyword rest = true)
  \/ exists c rest', rest = c :: rest' /\ isLineBreak c = true
                     /\ startsWithKeyword rest' = true.
Proof.
  unfold jsImportPattern. rewrite !matcher_Seq, matcher_Alt.
  destruct (matcher Bol _ rest i cs) as [res'|] eqn:Hbol.
  - intros _. left. apply matcher_Bol_inv in Hbol as [-> Hbol]. split; [done|].
    by apply matcher_keyword_inv in Hbol.
  - intros H. right. apply matcher_Class_inv in H as (c & rest' & -> & Hc & H).
    exists c, rest'. split; [done|]. split.
    + unfold in_class in Hc. simpl in Hc. unfold isLineBreak.
      rewrite orb_false_r in Hc. by rewrite !(Ascii.eqb_sym c).
    + by apply matcher_keyword_inv in H.
Qed.

Lemma search_no_keyword : forall rest i atStart,
  (i = 0 -> atStart = true) ->
  keywordAtLineStart atStart rest = false ->
  search jsImportPattern rest i = None.
Proof.
  induction rest as [|c rest IH]; intros i atStart Hi Hno; rewrite search_unfold.
  - destruct (matcher jsImportPattern accept [] i ∅) as [[j cs]|] eqn:Hm; [|done].
    apply jsImportPattern_line_start in Hm as [[-> Hkw]|(c & rest' & ? & _)]; [|done].
    simpl in Hno. rewrite Hi in Hno by done. by rewrite Hkw in Hno.
  - cbn [keywordAtLineStart] in Hno. apply orb_false_elim in Hno as [Hhere Hrest].
    destruct (matcher jsImportPattern accept (c :: rest) i ∅) as [[j cs]|] eqn:Hm.
    + apply jsImportPattern_line_start in Hm as [[-> Hkw]|(c' & rest' & [= <- <-] & Hc & Hkw)].
      * rewrite Hi, Hkw in Hhere by done. done.
      * rewrite Hc in Hrest. destruct rest as [|c' rest'];
          cbn [keywordAtLineStart] in Hrest; rewrite Hkw in Hrest; done.
    + eapply IH; [|exact Hrest]. done.
Qed.

(** From a content none of whose lines begins with [import] or [export]
    the script pipeline extracts nothing: a statement that is indented, or
    that follows other text on its line, such as the marker of a comment,
    is not seen. *)
Theorem no_statement_at_line_start content :
  keywordAtLineStart true (list_ascii_of_string content) = false ->
  extract (parsers jsSearchConfig) content = Some [].
Proof.
  intros Hno.
  assert (H1 : findDependencyReferences [content] (ParserRe jsImportPattern) = Some []).
  { simpl. rewrite execLoop_None; [done|].
    unfold Regex.exec. cbn [Nat.ltb Nat.leb]. rewrite drop_0.
    by apply (search_no_keyword _ 0 true). }
  change (extract (parsers jsSearchConfig) content)
    with (findDependencyReferences [content] (ParserRe jsImportPattern)
          ≫= fun inputs => findDependencyReferences inputs (ParserRe unwrapQuotesPattern)).
  rewrite H1. reflexivity.
Qed.

Lemma no_statement_at_line_start_witness :
  extract (parsers jsSearchConfig) "  import a from './a';
// import b from './b';
const c = 'export';" = Some [].
Proof.
  apply (no_statement_at_line_start "  import a from './a';
// import b from './b';
const c = 'export';").
  reflexivity.
Defined.

(** ** Rules at the head of a stylesheet *)

Lemma scssImportPattern_use k rest i cs res :
  matcher usePattern k rest i cs = Some res ->
  matcher scssImportPattern k rest i cs = Some res.
Proof.
  intros H. unfold scssImportPattern. fold usePattern. rewrite !matcher_Alt. by rewrite H.
Qed.

Lemma matcher_lit_None s k rest i cs :
  startsWith (list_ascii_of_string s) rest = false -> matcher (lit s) k rest i cs = None.
Proof.
  intros H. destruct (matcher (lit s) k rest i cs) eqn:Hm; [|done].
  apply matcher_lit_inv in Hm. congruence.
Qed.

(** One alternative of the literal of a rule. *)
Lemma rule_quoted_one q body post k i cs res :
  Forall (fun c => c <> q) body -> body <> [] ->
  k post (i + (length body + 2)) cs = Some res ->
  matcher (Chr q ⋅ Rep true 1 true [CChar q] ⋅ Chr q)%re k (q :: body ++ q :: post) i cs
  = Some res.
Proof.
  intros Hall Hne Hk. rewrite !matcher_Seq, matcher_Chr, matcher_Rep_greedy.
  apply rep_greedy_stop.
  - eapply Forall_impl; [exact Hall|]. intros c. apply not_class_ne.
  - apply not_true_is_false. rewrite not_class_ne. auto.
  - destruct body; [done|simpl; lia].
  - rewrite matcher_Chr. rewrite <- Hk. f_equal. lia.
Qed.

Lemma rule_literal double body post i cs :
  Forall (fun c => c <> quoteChar double) body -> body <> [] ->
  matcher (Grp 1 (quoted (fun q => Rep true 1 true [CChar q]))) accept
    (quoteChar double :: body ++ quoteChar double :: post) i cs
  = Some (i + (length body + 2), <[1 := quoteChar double :: body ++ [quoteChar double]]> cs).
Proof.
  intros Hall Hne. rewrite matcher_Grp. unfold quoted. rewrite matcher_Alt.
  assert (Hk : (fun (rest' : list ascii) (i' : nat) (cs' : caps) =>
                  accept rest' i'
                    (<[1 := take (i' - i)
                              (quoteChar double :: body ++ quoteChar double :: post)]> cs'))
                 post (i + (length body + 2)) cs
               = Some (i + (length body + 2),
                       <[1 := quoteChar double :: body ++ [quoteChar double]]> cs)).
  { unfold accept. do 3 f_equal.
    replace (i + (length body + 2) - i) with (S (length body + 1)) by lia.
    cbn [take]. f_equal.
    replace (body ++ quoteChar double :: post)
      with ((body ++ [quoteChar double]) ++ post) by (by rewrite <- app_assoc).
    rewrite take_app_length'; [done|]. rewrite length_app. simpl. lia. }
  destruct double; cbn [quoteChar] in *.
  - by rewrite (rule_quoted_one dq body post _ i cs _ Hall Hne Hk).
  - assert (Hdq : forall K, matcher (Chr dq ⋅ Rep true 1 true [CChar dq] ⋅ Chr dq)%re K
                              (sq :: body ++ sq :: post) i cs = None).
    { intros K. rewrite !matcher_Seq. by apply matcher_Chr_ne. }
    rewrite Hdq. by apply rule_quoted_one.
Qed.

(** From the at sign on. *)
Lemma rule_from_at fwd sp double body post j :
  sp <> [] -> Forall (fun c => is_space c = true) sp ->
  body <> [] -> Forall (fun c => c <> quoteChar double) body ->
  matcher (Chr "@")
    (matcher (lit "use" ∣ lit "forward")%re
       (matcher (Rep true 1 false [CSpace])
          (matcher (Grp 1 (quoted (fun q => Rep true 1 true [CChar q]))) accept)))
    (ruleChars fwd sp double body ++ post) j ∅
  = Some (j + length (ruleChars fwd sp double body),
          <[1 := quoteChar double :: body ++ [quoteChar double]]> ∅).
Proof.
  intros Hsp Hspace Hne Hall. unfold ruleChars. cbn [app]. rewrite matcher_Chr.
  rewrite <- !app_assoc.
  assert (Hrest : forall n,
    matcher (Rep true 1 false [CSpace])
      (matcher (Grp 1 (quoted (fun q => Rep true 1 true [CChar q]))) accept)
      (sp ++ (quoteChar double :: body ++ [quoteChar double]) ++ post) n ∅
    = Some (n + (length sp + (length body + 2)),
            <[1 := quoteChar double :: body ++ [quoteChar double]]> ∅)).
  { intros n. rewrite matcher_Rep_greedy. cbn [app]. rewrite <- app_assoc. cbn [app].
    apply rep_greedy_stop.
    - eapply Forall_impl; [exact Hspace|]. intros c Hc. unfold in_class. simpl.
      by rewrite Hc.
    - by destruct double.
    - destruct sp; [done|simpl; lia].
    - rewrite rule_literal by done. do 2 f_equal. lia. }
  rewrite matcher_Alt. destruct fwd.
  - rewrite (matcher_lit_None "use") by done.
    rewrite (matcher_lit "forward"), Hrest. do 2 f_equal.
    cbn [length]. rewrite !length_app. cbn [length]. rewrite length_app. simpl. lia.
  - rewrite (matcher_lit "use"), Hrest. do 2 f_equal.
    cbn [length]. rewrite !length_app. cbn [length]. rewrite length_app. simpl. lia.
Qed.

(** The pattern matches a rule at the start of the input or after a line
    break. *)
Lemma scssImportPattern_rule fwd sp double body post start i :
  sp <> [] -> Forall (fun c => is_space c = true) sp ->
  body <> [] -> Forall (fun c => c <> quoteChar double) body ->
  (start = [] /\ i = 0) \/ (exists c, start = [c] /\ (c = cr \/ c = lf)) ->
  matcher scssImportPattern accept (start ++ ruleChars fwd sp double body ++ post) i ∅
  = Some (i + (length start + length (ruleChars fwd sp double body)),
          <[1 := quoteChar double :: body ++ [quoteChar double]]> ∅).
Proof.
  intros Hsp Hspace Hne Hall Hstart. apply scssImportPattern_use.
  unfold usePattern. rewrite !matcher_Seq, matcher_Alt.
  destruct Hstart as [[-> ->]|(c & -> & Hc)].
  - cbn [app]. change (matcher Bol ?k ?rest 0 ?cs) with (k rest 0 cs).
    by rewrite rule_from_at.
  - cbn [app].
    assert (Hbol : forall K, matcher Bol (matcher (Chr "@") K)
                      (c :: ruleChars fwd sp double body ++ post) i ∅ = None).
    { intros K. destruct i; [|done].
      change (matcher Bol ?k ?rest 0 ?cs) with (k rest 0 cs).
      apply matcher_Chr_ne. by destruct Hc as [-> | ->]. }
    rewrite Hbol, matcher_Class.
    + rewrite rule_from_at by done. do 2 f_equal. simpl. lia.
    + by destruct Hc as [-> | ->].
Qed.

Lemma head_inv neg items K rest i cs res :
  matcher (Bol ∣ Class neg items)%re K rest i cs = Some res ->
  K rest i cs = Some res \/ exists c t, rest = c :: t /\ K t (S i) cs = Some res.
Proof.
  rewrite matcher_Alt.
  destruct (matcher Bol K rest i cs) as [res'|] eqn:Hbol.
  - intros [= ->]. apply matcher_Bol_inv in Hbol as [-> Hbol]. by left.
  - intros H. apply matcher_Class_inv in H as (c & t & -> & _ & H). right. eauto.
Qed.

(** A match of the pattern has its at sign in the first or in the second
    place. *)
Lemma scssImportPattern_at k rest i cs res :
  matcher scssImportPattern k rest i cs = Some res ->
  (exists t, rest = "@"%char :: t) \/ (exists c t, rest = c :: "@"%char :: t).
Proof.
  assert (Hat : forall K rest i cs res,
    matcher (Chr "@") K rest i cs = Some res -> exists t, rest = "@"%char :: t).
  { intros K r j c x H. apply matcher_Chr_inv in H as (t & -> & _). eauto. }
  assert (Hlit : forall s K rest i cs res,
    matcher (lit (String "@" s)) K rest i cs = Some res -> exists t, rest = "@"%char :: t).
  { intros s K r j c x H. apply matcher_lit_inv in H.
    destruct r as [|a t]; [done|]. cbn [list_ascii_of_string startsWith] in H.
    apply andb_prop in H as [Ha _].
    apply Ascii.eqb_eq in Ha as <-. eauto. }
  assert (Hhead : forall neg items K rest i cs res,
    (forall rest i cs res, K rest i cs = Some res -> exists t, rest = "@"%char :: t) ->
    matcher (Bol ∣ Class neg items)%re K rest i cs = Some res ->
    (exists t, rest = "@"%char :: t) \/ (exists c t, rest = c :: "@"%char :: t)).
  { intros neg items K r j c x HK H. apply head_inv in H as [H|(a & t & -> & H)].
    - left. eapply HK, H.
    - right. apply HK in H as [t' ->]. eauto. }
  unfold scssImportPattern.
  match goal with
  | |- matcher (Alt (Alt ?a1 ?a2) ?a3) _ _ _ _ = _ -> _ =>
      set (A1 := a1); set (A2 := a2); set (A3 := a3)
  end.
  rewrite !matcher_Alt.
  destruct (matcher A1 k rest i cs) as [res1|] eqn:H1.
  - intros _. subst A1. rewrite !matcher_Seq in H1. eapply Hhead; [|exact H1]. apply Hat.
  - destruct (matcher A2 k rest i cs) as [res2|] eqn:H2.
    + intros _. subst A2. rewrite !matcher_Seq in H2. eapply Hhead; [|exact H2].
      apply Hlit.
    + intros H3. subst A3. rewrite !matcher_Seq in H3. eapply Hhead; [|exact H3].
      apply Hlit.
Qed.

(** The first match from the start of the text before a rule is the
    rule. *)
Lemma search_rule fwd sp double body post :
  sp <> [] -> Forall (fun c => is_space c = true) sp ->
  body <> [] -> Forall (fun c => c <> quoteChar double) body ->
  forall gap i,
    Forall (fun c => c <> "@"%char) gap -> lineStart gap i ->
    exists s,
      search scssImportPattern (gap ++ ruleChars fwd sp double body ++ post) i
      = Some (MatchResult s (i + (length gap + length (ruleChars fwd sp double body)))
                [Some (string_of_list_ascii (quoteChar double :: body ++ [quoteChar double]));
                 None; None]).
Proof.
  intros Hsp Hspace Hne Hall.
  assert (Hgroups : forall l : list ascii,
    groups scssImportPattern (<[1 := l]> ∅) = [Some (string_of_list_ascii l); None; None]).
  { intros l. change (groups scssImportPattern ?cs)
      with [string_of_list_ascii <$> cs !! 1; string_of_list_ascii <$> cs !! 2;
            string_of_list_ascii <$> cs !! 3].
    by rewrite lookup_insert_eq, !lookup_insert_ne, lookup_empty by done. }
  induction gap as [|c gap IH]; intros i Hgap Hstart; rewrite search_unfold.
  - destruct Hstart as [[_ ->]|(g & c & Hg & _)]; [|by destruct g].
    rewrite (scssImportPattern_rule fwd sp double body post [] 0) by auto.
    rewrite Hgroups. eauto.
  - apply Forall_cons in Hgap as [Hc Hgap].
    destruct Hstart as [[? _]|(g & c0 & Hg & Hc0)]; [done|].
    destruct gap as [|c' gap].
    + destruct g as [|? [|? ?]]; try discriminate. injection Hg as ->.
      rewrite (scssImportPattern_rule fwd sp double body post [c0] i) by eauto.
      rewrite Hgroups. eauto.
    + destruct (matcher scssImportPattern accept _ i ∅) as [[j cs]|] eqn:Hm.
      * apply scssImportPattern_at in Hm as [(t & Ht)|(a & t & Ht)].
        -- cbn [app] in Ht. injection Ht as -> _. done.
        -- cbn [app] in Ht. injection Ht as _ Ht _.
           apply Forall_cons in Hgap as [Hc' _]. congruence.
      * cbn [app]. destruct (IH (S i) Hgap) as [s Hs].
        { right. destruct g as [|x g]; [discriminate|]. injection Hg as -> Hg. eauto. }
        exists s. cbn [app] in Hs. rewrite Hs. do 2 f_equal. simpl. lia.
Qed.

Lemma ruleLiteral_chars r :
  list_ascii_of_string (ruleLiteral r)
  = quoteChar (doubleQuoted r) :: list_ascii_of_string (moduleName r)
      ++ [quoteChar (doubleQuoted r)].
Proof. unfold ruleLiteral. cbn [list_ascii_of_string]. by rewrite list_ascii_of_string_app. Qed.

Lemma ruleText_chars r :
  list_ascii_of_string (ruleText r)
  = ruleChars (forwarded r) (list_ascii_of_string (blank r)) (doubleQuoted r)
      (list_ascii_of_string (moduleName r)).
Proof.
  unfold ruleText, ruleChars.
  rewrite !list_ascii_of_string_app, ruleLiteral_chars. reflexivity.
Qed.

Lemma ruleText_length r : 1 <= String.length (ruleText r).
Proof. unfold ruleText. rewrite string_length_app. simpl. lia. Qed.

Lemma chars_nonempty s : s <> "" -> list_ascii_of_string s <> [].
Proof. by destruct s. Qed.

(** The first rule of a run is what [exec] finds from the start of the
    text before it. *)
Lemma exec_rules_head pre gap r rest first :
  atFree gap -> startsLine first gap -> wellFormedRule r ->
  (first = true -> pre = "") ->
  exists start,
    Regex.exec scssImportPattern (pre +:+ gap +:+ ruleText r +:+ rest) (String.length pre)
    = Some (MatchResult start (String.length (pre +:+ gap +:+ ruleText r))
              [Some (ruleLiteral r); None; None]).
Proof.
  intros Hgap Hstart (Hsp & Hspace & Hne & Hall) Hfirst. unfold Regex.exec.
  rewrite !list_ascii_of_string_app, ruleText_chars, string_length_chars.
  match goal with
  | |- context [Nat.ltb ?a ?b] => destruct (Nat.ltb_spec a b) as [Hlt|_]
  end.
  { rewrite length_app in Hlt. lia. }
  rewrite drop_app_length.
  destruct (search_rule (forwarded r) (list_ascii_of_string (blank r)) (doubleQuoted r)
              (list_ascii_of_string (moduleName r)) (list_ascii_of_string rest)
              (chars_nonempty _ Hsp) Hspace (chars_nonempty _ Hne) Hall
              (list_ascii_of_string gap) (length (list_ascii_of_string pre)) Hgap)
    as [start ->].
  { apply (startsLine_lineStart first); [done|]. intros Hf. by rewrite (Hfirst Hf). }
  exists start. rewrite <- ruleLiteral_chars, string_of_list_ascii_of_string.
  do 2 f_equal.
  rewrite !string_length_chars, !list_ascii_of_string_app, !length_app, ruleText_chars.
  lia.
Qed.

Lemma execLoop_rules post : forall block pre first fuel,
  wellFormedRules first block ->
  (first = true -> pre = "") ->
  String.length (rulesText block +:+ post) <= fuel ->
  exists later,
    execLoop fuel scssImportPattern (pre +:+ rulesText block +:+ post) (String.length pre)
    = Some (map (fun gr => ruleLiteral (snd gr)) block ++ later).
Proof.
  induction block as [|[gap r] block IH]; intros pre first fuel Hwf Hfirst Hfuel.
  - simpl map. apply execLoop_total; [simpl; lia| |].
    + rewrite string_length_app. lia.
    + rewrite string_length_app. lia.
  - destruct Hwf as (Hgap & Hstart & Hr & Hwf). cbn [rulesText] in *.
    rewrite !string_app_assoc in *.
    destruct (exec_rules_head pre gap r (rulesText block +:+ post) first)
      as [start Hexec]; auto.
    rewrite !string_length_app in Hfuel.
    pose proof (ruleText_length r) as Hlen.
    destruct fuel as [|fuel]; [lia|]. cbn [execLoop]. rewrite Hexec. cbn [m_end m_groups].
    destruct (Nat.leb_spec (String.length (pre +:+ gap +:+ ruleText r))
                (String.length pre)) as [Hle|_].
    { rewrite !string_length_app in Hle. lia. }
    destruct (IH (pre +:+ gap +:+ ruleText r) false fuel Hwf) as [later Hlater].
    { done. }
    { rewrite string_length_app. lia. }
    rewrite !string_app_assoc in Hlater. rewrite Hlater.
    exists later. reflexivity.
Qed.

Lemma unquote_ruleLiteral r : unquote (ruleLiteral r) = moduleName r.
Proof.
  rewrite <- (string_of_list_ascii_of_string (ruleLiteral r)), ruleLiteral_chars,
    unquote_literal. apply string_of_list_ascii_of_string.
Qed.

(** Let the stylesheet begin with a run of [@use] and [@forward] rules,
    each at the start of the content or of a line, with white space after
    the keyword and then a quoted name that is not empty, and with no at
    sign in the text before the rule. Then the pipeline yields the names
    of these rules, in order, before anything it finds in the rest of the
    content. *)
Theorem use_rules_extracted block rest :
  wellFormedRules true block ->
  exists others,
    extract (parsers scssSearchConfig) (rulesText block +:+ rest)
    = Some (map (fun gr => moduleName (snd gr)) block ++ others).
Proof.
  intros Hwf.
  destruct (execLoop_rules rest block "" true (String.length (rulesText block +:+ rest)))
    as [later Hlater]; [done|done|lia|].
  change ("" +:+ ?x) with x in Hlater. change (String.length "") with 0 in Hlater.
  destruct (first_stage_captures (quotedLiteral false) scssImportPattern
              (rulesText block +:+ rest)) as (literals & Hfirst & Hall).
  { simpl. repeat split; try exact I; apply (takes_quoted false). }
  { simpl. lia. }
  assert (Hlits : literals = map (fun gr => ruleLiteral (snd gr)) block ++ later).
  { unfold findDependencyReferences in Hfirst. cbn [mapM] in Hfirst.
    rewrite Hlater in Hfirst. simpl in Hfirst. rewrite app_nil_r in Hfirst. congruence. }
  exists (map unquote later).
  change (extract (parsers scssSearchConfig) (rulesText block +:+ rest))
    with (findDependencyReferences [rulesText block +:+ rest] (ParserRe scssImportPattern)
          ≫= fun inputs => findDependencyReferences inputs (ParserRe scssUnwrapPattern)).
  rewrite Hfirst. cbn [mbind option_bind].
  rewrite (unwrap_stage_literals scssUnwrapPattern false literals) by auto.
  rewrite Hlits, map_app, map_map. do 2 f_equal.
  apply map_ext. intros [gap r]. apply unquote_ruleLiteral.
Qed.

Lemma use_rules_extracted_witness :
  exists others,
    extract (parsers scssSearchConfig)
      (rulesText [("", UseRule false " " true "sass:math");
                  (" as m;
", UseRule true "  " false "./theme")] +:+ ";
a { color: red; }")
    = Some (["sass:math"; "./theme"] ++ others).
Proof.
  apply (use_rules_extracted
           [("", UseRule false " " true "sass:math");
            (" as m;
", UseRule true "  " false "./theme")]).
  repeat split; try discriminate; try (by left);
    try (by repeat (constructor; [done|]); constructor).
  right. exists " as m;", lf. split; [reflexivity|by right].
Defined.

(** ** No cycle under a call that returns *)

Lemma reaches_later e st f (X : gset string) :
  (forall g dep v, g = f \/ g ∈ X -> edgeVia e st g dep v -> v ∈ X) ->
  (forall g dep v, g = f \/ g ∈ X -> edgeVia e st g dep v -> stampOf st g < stampOf st v) ->
  forall g w, reaches e st g w -> g = f \/ g ∈ X -> stampOf st g < stampOf st w.
Proof.
  intros Hclosed Hordered g w. induction 1 as [g dep v H|g dep v w H _ IH]; intros Hg.
  - eapply Hordered; eauto.
  - pose proof (Hordered g dep v Hg H). pose proof (Hclosed g dep v Hg H).
    specialize (IH (or_intror H1)). lia.
Qed.

(** A call that returns has met no cycle: the root is not a member of the
    set it returns, and along the references that the tables resolve no
    member is reached from itself. *)
Theorem returned_set_has_no_cycle history c X :
  fst (perform c (after history)) = Returns X ->
  (c_file c ∉ X)
  /\ forall g, g ∈ X -> ~ reaches (c_env c) (after (history ++ [c])) g g.
Proof.
  intros Hret. rewrite after_snoc. unfold perform in *.
  destruct (getDependencies (c_config c) (c_env c) (c_depth c) (c_file c) (after history))
    as [o st1] eqn:Hcall.
  simpl in Hret. subst o. cbn [snd].
  destruct (returned_tables _ _ _ _ _ _ _ (truthyTable_after history) Hcall)
    as (_ & _ & Hclosed & Hordered & Hreach).
  pose proof (reaches_later _ _ _ _ Hclosed Hordered) as Hlater.
  split.
  - intros Hf. specialize (Hlater _ _ (Hreach _ Hf) (or_introl eq_refl)). lia.
  - intros g Hg Hcycle. specialize (Hlater _ _ Hcycle (or_intror Hg)). lia.
Qed.

Lemma returned_set_has_no_cycle_witness :
  ("/p/main.js" ∉ ({["/p/util.js"; "/p/helpers.mjs"]} : gset string))
  /\ forall g, g ∈ ({["/p/util.js"; "/p/helpers.mjs"]} : gset string) ->
       ~ reaches projectEnv (after ([] ++ [projectCall])) g g.
Proof.
  apply (returned_set_has_no_cycle [] projectCall {["/p/util.js"; "/p/helpers.mjs"]}).
  vm_compute. reflexivity.
Defined.

(** ** Room on the stack *)

Lemma forEachDependency_more_stack recur recur' e directory rs deps :
  (forall g st o st', o <> Throws Fs.RangeError ->
      recur g st = (o, st') -> recur' g st = (o, st')) ->
  forall results st o st',
    o <> Throws Fs.RangeError ->
    forEachDependency recur e directory rs deps results st = (o, st') ->
    forEachDependency recur' e directory rs deps results st = (o, st').
Proof.
  intros Hrec. induction deps as [|dep deps IH]; intros results st o st' Ho; simpl; [done|].
  destruct (dependencyOf e rs _ st) as [[v|] st1]; [|by apply IH].
  destruct (recur v st1) as [[X|err|] st2] eqn:Hv.
  - rewrite (Hrec v st1 (Returns X) st2 ltac:(done) Hv). by apply IH.
  - intros [= <- <-]. by rewrite (Hrec v st1 _ _ Ho Hv).
  - intros [= <- <-]. by rewrite (Hrec v st1 _ _ Ho Hv).
Qed.

(** A call that ends otherwise than by the overflow of the stack ends the
    same way, with the same set and the same tables, when the stack has
    more room. *)
Theorem more_stack_same_outcome cfg e depth depth' f st o st' :
  depth <= depth' ->
  o <> Throws Fs.RangeError ->
  getDependencies cfg e depth f st = (o, st') ->
  getDependencies cfg e depth' f st = (o, st').
Proof.
  revert depth' f st o st'.
  induction depth as [|depth IH]; intros depth' f st o st' Hle Ho.
  - simpl. by intros [= <- <-].
  - destruct depth' as [|depth']; [lia|]. rewrite !getDependencies_S.
    destruct (references e _ f (logCall f st)) as [[deps| |] st1]; try done.
    apply forEachDependency_more_stack; [|done].
    intros g st2 o2 st2' Ho2. apply IH; [lia|done].
Qed.

Lemma more_stack_same_outcome_witness :
  getDependencies defaultSearchConfig projectEnv 9 "/p/main.js" initial
  = (Returns {["/p/util.js"; "/p/helpers.mjs"]},
     snd (getDependencies defaultSearchConfig projectEnv 3 "/p/main.js" initial)).
Proof.
  apply (more_stack_same_outcome defaultSearchConfig projectEnv 3 9 "/p/main.js" initial).
  - lia.
  - discriminate.
  - vm_compute. reflexivity.
Defined.

(** ** A file with a new modification time *)

Lemma readsAfter_reads f st st' : readsAfter st st' -> reads f st <= reads f st'.
Proof.
  intros [l H]. unfold reads. rewrite H, filter_app, length_app. lia.
Qed.

Lemma readsAfter_call cfg e depth f st :
  readsAfter st (snd (getDependencies cfg e depth f st)).
Proof.
  apply (getDependencies_inv cfg e (readsAfter st) (fun _ => True)); try done.
  - intros g st' [l H]. exists (g :: l). simpl. by rewrite H.
  - intros g s content deps st' [l H] _ _ _ _. exists (g :: l). simpl. by rewrite H.
  - by exists [].
Qed.

Lemma readsAfter_forEach cfg e depth f deps results st :
  readsAfter st (snd (forEachDependency (getDependencies cfg e depth) e (Path.dirname f)
                        (resolvers (configFor cfg f)) deps results st)).
Proof.
  apply (forEachDependency_inv cfg e (readsAfter st) (fun _ => True)); try done.
  - intros g st' [l H]. split; [|done].
    destruct (readsAfter_call cfg e depth g st') as [l' H'].
    exists (l' ++ l). by rewrite H', H, <- app_assoc.
  - by exists [].
Qed.

(** The key of the extraction table is made of the path and the
    modification time: when the file of a call has a modification time
    that it had in none of the earlier calls, the call reads the file
    again. *)
Theorem modified_file_read_again history c stats :
  Fs.statSync (c_env c) (c_file c) = inr stats ->
  (forall c' stats', c' ∈ history ->
     Fs.statSync (c_env c') (c_file c) = inr stats' ->
     Fs.mtimeMs stats' <> Fs.mtimeMs stats) ->
  0 < c_depth c ->
  reads (c_file c) (after history) < reads (c_file c) (after (history ++ [c])).
Proof.
  intros Hstat Hnew Hdepth. rewrite after_snoc. unfold perform.
  destruct c as [cfg e depth f]. cbn [c_config c_env c_depth c_file] in *.
  destruct depth as [|depth]; [lia|]. rewrite getDependencies_S.
  set (st := after history).
  assert (Hmiss : dependencyCache (logCall f st) !! cacheKey f stats = None).
  { destruct (dependencyCache st !! cacheKey f stats) as [deps|] eqn:Hdc; [|done].
    apply extractedIn_after in Hdc as (c' & f' & s' & content & Hc' & Hs' & Hk & _).
    apply cacheKey_inj in Hk as [<- Hm]. by destruct (Hnew c' s' Hc' Hs'). }
  unfold references. rewrite Hstat, Hmiss.
  assert (Hone : reads f (logRead f (logCall f st)) = S (reads f st)).
  { rewrite reads_logRead, decide_True by done. done. }
  destruct (Fs.readFileSync e f) as [err|content]; [cbn [snd]; lia|].
  destruct (extract _ content) as [deps|]; [|cbn [snd]; lia].
  pose proof (readsAfter_forEach cfg e depth f deps ∅
                (setDependencies (cacheKey f stats) deps (logRead f (logCall f st)))) as H.
  apply (readsAfter_reads f) in H.
  change (reads f (setDependencies (cacheKey f stats) deps (logRead f (logCall f st))))
    with (reads f (logRead f (logCall f st))) in H.
  rewrite Hone in H. lia.
Qed.

Lemma modified_file_read_again_witness :
  reads "/p/b.js" (after [touchedCall false])
  < reads "/p/b.js" (after ([touchedCall false] ++ [touchedCall true])).
Proof.
  apply (modified_file_read_again [touchedCall false] (touchedCall true) (Fs.Stats true 21)).
  - reflexivity.
  - intros c' stats' Hc'. apply list_elem_of_singleton in Hc' as ->.
    vm_compute. intros [= <-]. discriminate.
  - simpl. lia.
Defined.

(** ** The resolver for SASS index files *)

Lemma split_nonempty p : Path.split p <> [].
Proof.
  destruct p as [|c p]; simpl; [done|].
  destruct (Ascii.eqb c Path.slash); [done|]. by destruct (Path.split p).
Qed.

Lemma split_app_slash a b :
  Path.split (a ++ Path.slash :: b) = Path.split a ++ Path.split b.
Proof.
  induction a as [|c a IH]; [done|]. cbn [app Path.split].
  destruct (Ascii.eqb c Path.slash); [by rewrite IH|].
  rewrite IH. pose proof (split_nonempty a). by destruct (Path.split a).
Qed.

Lemma split_noslash seg :
  Forall (fun c => c <> Path.slash) seg -> Path.split seg = [seg].
Proof.
  induction 1 as [|c seg Hc _ IH]; [done|]. cbn [Path.split]. rewrite IH.
  by destruct (Ascii.eqb_spec c Path.slash).
Qed.

Lemma split_segments p : Forall (Forall (fun c => c <> Path.slash)) (Path.split p).
Proof.
  induction p as [|c p IH]; cbn [Path.split]; [by repeat constructor|].
  destruct (Ascii.eqb_spec c Path.slash) as [->|Hc]; [by constructor|].
  destruct (Path.split p) as [|seg segs]; [by repeat constructor|].
  apply Forall_cons in IH as [Hseg Hsegs]. by repeat constructor.
Qed.

Lemma split_unsplit segs :
  segs <> [] -> Forall (Forall (fun c => c <> Path.slash)) segs ->
  Path.split (Path.unsplit segs) = segs.
Proof.
  induction segs as [|seg segs IH]; [done|]. intros _ [Hseg Hsegs]%Forall_cons.
  destruct segs as [|seg' segs]; [by apply split_noslash|].
  change (Path.unsplit (seg :: seg' :: segs))
    with (seg ++ Path.slash :: Path.unsplit (seg' :: segs)).
  rewrite split_app_slash, split_noslash, IH by done. done.
Qed.

Lemma unsplit_snoc segs seg :
  segs <> [] -> Path.unsplit (segs ++ [seg]) = Path.unsplit segs ++ Path.slash :: seg.
Proof.
  induction segs as [|s segs IH]; [done|]. intros _.
  destruct segs as [|s' segs]; [done|].
  change (Path.unsplit ((s :: s' :: segs) ++ [seg]))
    with (s ++ Path.slash :: Path.unsplit ((s' :: segs) ++ [seg])).
  rewrite IH by done.
  change (Path.unsplit (s :: s' :: segs)) with (s ++ Path.slash :: Path.unsplit (s' :: segs)).
  by rewrite <- app_assoc.
Qed.

Lemma push_plain stack seg : plain seg -> Path.push_segment false stack seg = seg :: stack.
Proof.
  intros (H1 & H2 & H3 & _). unfold Path.push_segment.
  by rewrite !bool_decide_eq_false_2.
Qed.

Lemma push_keeps_plain stack seg :
  Forall plain stack -> Forall (fun c => c <> Path.slash) seg ->
  Forall plain (Path.push_segment false stack seg).
Proof.
  intros Hstack Hseg. unfold Path.push_segment.
  destruct (decide (seg = [])) as [->|H1]; [done|].
  destruct (decide (seg = [Path.dot])) as [->|H2]; [done|].
  rewrite !bool_decide_eq_false_2 by done. cbn [orb].
  destruct (decide (seg = Path.dotdot)) as [->|H3].
  - rewrite bool_decide_eq_true_2 by done.
    destruct stack as [|top below]; [done|].
    apply Forall_cons in Hstack as [Htop Hbelow].
    case_bool_decide; [by constructor|done].
  - rewrite bool_decide_eq_false_2 by done. by repeat constructor.
Qed.

Lemma fold_push_keeps_plain segs : forall stack,
  Forall plain stack -> Forall (Forall (fun c => c <> Path.slash)) segs ->
  Forall plain (fold_left (Path.push_segment false) segs stack).
Proof.
  induction segs as [|seg segs IH]; intros stack Hstack Hsegs; [done|].
  apply Forall_cons in Hsegs as [Hseg Hsegs]. simpl.
  apply IH; [by apply push_keeps_plain|done].
Qed.

Lemma fold_push_plain segs : forall stack,
  Forall plain segs ->
  fold_left (Path.push_segment false) segs stack = rev segs ++ stack.
Proof.
  induction segs as [|seg segs IH]; intros stack Hsegs; [done|].
  apply Forall_cons in Hsegs as [Hseg Hsegs]. simpl.
  rewrite push_plain, IH by done. by rewrite <- app_assoc.
Qed.

(** An absolute path that [path.resolve] answers is the root followed by
    plain segments. *)
Lemma resolve_segments cwd args :
  Path.is_absolute cwd = true ->
  exists segs, Forall plain segs
    /\ list_ascii_of_string (Path.resolve cwd args) = Path.slash :: Path.unsplit segs.
Proof.
  intros Hcwd. unfold Path.resolve. rewrite fold_left_app. simpl.
  destruct (fold_left Path.resolve_step (rev args) ("", false)) as [rp ra].
  assert (Hshape : forall p,
    exists segs, Forall plain segs
      /\ list_ascii_of_string
           ("/" +:+ string_of_list_ascii (Path.normalizeString (list_ascii_of_string p) false))
         = Path.slash :: Path.unsplit segs).
  { intros p. exists (rev (fold_left (Path.push_segment false)
                              (Path.split (list_ascii_of_string p)) [])).
    split.
    - apply Forall_rev, fold_push_keeps_plain; [done|apply split_segments].
    - rewrite list_ascii_of_string_app, list_ascii_of_string_of_list_ascii. done. }
  unfold Path.resolve_step at 1. destruct ra; [apply Hshape|].
  rewrite bool_decide_eq_false_2; [|by apply is_absolute_nonempty].
  rewrite Hcwd. apply Hshape.
Qed.

Lemma ends_with_slash_index k :
  Path.ends_with_slash (k +:+ "/" +:+ "_index.scss") = false.
Proof.
  unfold Path.ends_with_slash. rewrite !list_ascii_of_string_app, !rev_app_distr. done.
Qed.

Lemma string_chars_inj s t : list_ascii_of_string s = list_ascii_of_string t -> s = t.
Proof.
  intros H. by rewrite <- (string_of_list_ascii_of_string s), H,
    string_of_list_ascii_of_string.
Qed.

(** [path.join] of such a path and the name of the index file. *)
Lemma join_index k segs :
  Forall plain segs ->
  list_ascii_of_string k = Path.slash :: Path.unsplit segs ->
  Path.join [k; "_index.scss"] = indexPath k.
Proof.
  intros Hsegs Hk.
  assert (Hne : k <> "") by (intros ->; done).
  assert (Habs : Path.is_absolute k = true) by (destruct k; [done|by injection Hk as -> _]).
  assert (Hidx : plain (list_ascii_of_string "_index.scss")).
  { repeat split; try done. simpl. repeat (constructor; [discriminate|]). constructor. }
  unfold Path.join. simpl. unfold Path.join_step.
  rewrite (bool_decide_eq_false_2 (k = "")), (bool_decide_eq_false_2 ("_index.scss" = ""))
    by done.
  unfold Path.normalize.
  rewrite bool_decide_eq_false_2 by (by destruct k).
  rewrite ends_with_slash_index, is_absolute_app by done. cbn [negb].
  unfold Path.normalizeString.
  rewrite !list_ascii_of_string_app, Hk.
  change (list_ascii_of_string "/") with [Path.slash]. cbn [app].
  change (Path.split (Path.slash :: ?p)) with ([] :: Path.split p).
  cbn [fold_left]. change (Path.push_segment false [] []) with (@nil (list ascii)).
  rewrite split_app_slash. unfold indexPath.
  destruct segs as [|seg segs].
  - assert (k = "/") as -> by (by apply string_chars_inj).
    vm_compute. reflexivity.
  - rewrite (bool_decide_eq_false_2 (k = "/")).
    2:{ intros ->. simpl in Hk. injection Hk as Hk.
        apply Forall_cons in Hsegs as [(Hs & _) _].
        destruct segs; destruct seg; done. }
    rewrite split_unsplit.
    2:{ done. }
    2:{ eapply Forall_impl; [exact Hsegs|]. by intros ? (_ & _ & _ & ?). }
    rewrite (split_noslash (list_ascii_of_string "_index.scss")) by (by destruct Hidx as (_ & _ & _ & ?)).
    rewrite fold_push_plain.
    2:{ apply Forall_app. split; [done|by constructor]. }
    rewrite app_nil_r, rev_involutive, unsplit_snoc by done.
    rewrite bool_decide_eq_false_2.
    2:{ intros H. apply (f_equal list_ascii_of_string) in H.
        rewrite list_ascii_of_string_of_list_ascii in H.
        apply (f_equal length) in H. rewrite length_app in H. simpl in H. lia. }
    apply string_chars_inj.
    rewrite !list_ascii_of_string_app, list_ascii_of_string_of_list_ascii, Hk.
    reflexivity.
Qed.

(** For the candidate of a reference in a stylesheet, when no regular file
    is at the candidate, at the candidate with [.scss] nor at the name of
    the partial, and the directory of that name holds a regular file
    [_index.scss], the resolver of the stylesheet entry answers with that
    index file. *)
Theorem index_file_resolved e f dep :
  Path.is_absolute (Fs.cwd e) = true ->
  let k := candidate e f dep in
  isRegularFile e k = false ->
  isRegularFile e (k +:+ ".scss") = false ->
  isRegularFile e (Regex.replace partialPattern [RLit "_"; RGroup 1; RLit ".scss"] k)
  = false ->
  isRegularFile e (indexPath k) = true ->
  resolveDependencyReference e k (resolvers scssSearchConfig) = Some (indexPath k).
Proof.
  intros Hcwd k H1 H2 H3 H4.
  destruct (resolve_segments (Fs.cwd e) [Path.dirname f; dep] Hcwd) as (segs & Hsegs & Hk).
  fold (candidate e f dep) in Hk. fold k in Hk.
  unfold resolveDependencyReference. rewrite H1. cbn [resolvers scssSearchConfig tryResolvers].
  rewrite H2, H3, (join_index k segs Hsegs Hk), H4. reflexivity.
Qed.

Lemma index_file_resolved_witness :
  resolveDependencyReference indexEnv (candidate indexEnv "/p/theme.scss" "lib")
    (resolvers scssSearchConfig)
  = Some (indexPath (candidate indexEnv "/p/theme.scss" "lib"))
  /\ indexPath (candidate indexEnv "/p/theme.scss" "lib") = "/p/lib/_index.scss".
Proof.
  split; [|vm_compute; reflexivity].
  apply (index_file_resolved indexEnv "/p/theme.scss" "lib"); vm_compute; reflexivity.
Defined.

(** ** A call on empty tables *)

Lemma resolvedFor_mono cfg e (G G' : string -> Prop) k v :
  (forall g, G g -> G' g) -> resolvedFor cfg e G k v -> resolvedFor cfg e G' k v.
Proof. intros HG (g & dep & Hg & H). exists g, dep. auto. Qed.

(** The new entries of the resolution table are answers to references of
    the root and of the members. *)
Lemma forEachDependency_origins cfg e depth f deps :
  (forall g st X st',
      getDependencies cfg e depth g st = (Returns X, st') ->
      forall k v, resolverCache st' !! k = Some v ->
        resolverCache st !! k = Some v \/ resolvedFor cfg e (fun h => h = g \/ h ∈ X) k v) ->
  forall results st X st',
    forEachDependency (getDependencies cfg e depth) e (Path.dirname f)
      (resolvers (configFor cfg f)) deps results st = (Returns X, st') ->
    results ⊆ X
    /\ forall k v, resolverCache st' !! k = Some v ->
         resolverCache st !! k = Some v \/ resolvedFor cfg e (fun h => h = f \/ h ∈ X) k v.
Proof.
  intros Hrec. induction deps as [|dep deps IH]; intros results st X st'; simpl.
  - intros [= <- <-]. split; [done|auto].
  - fold (candidate e f dep).
    destruct (dependencyOf e _ (candidate e f dep) st) as [o st1] eqn:Hdep.
    apply dependencyOf_state in Hdep as (_ & _ & _ & Hdep).
    destruct o as [g|].
    + destruct Hdep as (_ & _ & Hrc).
      destruct (getDependencies cfg e depth g st1) as [[children| |] st2] eqn:Hcall;
        try done.
      intros Hrest. destruct (IH _ _ _ _ Hrest) as [Hsub Hnew].
      split; [set_solver|]. intros k v Hk.
      destruct (Hnew k v Hk) as [Hk2|]; [|by right].
      destruct (Hrec g st1 children st2 Hcall k v Hk2) as [Hk1|Hfor].
      * destruct Hrc as [[Hsame _]|(Hres & Hins & _)].
        -- left. by rewrite <- Hsame.
        -- rewrite Hins in Hk1.
           destruct (decide (candidate e f dep = k)) as [<-|Hne].
           ++ rewrite lookup_insert_eq in Hk1. injection Hk1 as <-.
              right. exists f, dep. auto.
           ++ rewrite lookup_insert_ne in Hk1 by done. by left.
      * right. eapply resolvedFor_mono; [|exact Hfor]. set_solver.
    + destruct Hdep as (Hsame & _). intros Hrest.
      destruct (IH _ _ _ _ Hrest) as [Hsub Hnew]. split; [done|].
      intros k v Hk. destruct (Hnew k v Hk) as [Hk1|]; [|by right].
      left. by rewrite <- Hsame.
Qed.

Lemma call_origins cfg e depth : forall f st X st',
  getDependencies cfg e depth f st = (Returns X, st') ->
  forall k v, resolverCache st' !! k = Some v ->
    resolverCache st !! k = Some v \/ resolvedFor cfg e (fun h => h = f \/ h ∈ X) k v.
Proof.
  induction depth as [|depth IH]; intros f st X st'; [done|].
  rewrite getDependencies_S.
  destruct (references e _ f (logCall f st)) as [[deps| |] st1] eqn:Href; try done.
  apply references_state in Href as (_ & Hrc & _).
  intros Hloop k v Hk.
  destruct (forEachDependency_origins cfg e depth f deps IH _ _ _ _ Hloop) as [_ Hnew].
  destruct (Hnew k v Hk) as [Hk1|]; [|by right]. left. by rewrite Hrc in Hk1.
Qed.

(** From empty tables, and when the root and the members share their
    resolvers, as the files of one language do, the set that a call
    returns is the set of the transitive dependencies of the root in the
    file system: the files that the references in the contents stand
    for, by the resolvers of the file that holds each reference. *)
Theorem cold_call_returns_closure cfg e depth f X rs :
  fst (getDependencies cfg e depth f initial) = Returns X ->
  (forall g, g = f \/ g ∈ X -> resolvers (configFor cfg g) = rs) ->
  forall w, w ∈ X <-> fsReaches cfg e f w.
Proof.
  intros Hret Hrs.
  set (c := Call cfg e depth f).
  destruct (getDependencies cfg e depth f initial) as [o st1] eqn:Hcall.
  simpl in Hret. subst o.
  assert (Hst1 : st1 = after [c]).
  { unfold after, perform. simpl. by rewrite Hcall. }
  destruct (returned_tables _ _ _ _ _ _ _ (truthyTable_after []) Hcall)
    as (_ & Hsat & Hclosed & _ & Hreach).
  assert (Hdc : forall g deps, cachedReferences e st1 g deps ->
                               referencesOf cfg e g initial = Some deps).
  { intros g deps (s & Hs & Hd). rewrite Hst1 in Hd.
    apply extractedIn_after in Hd as (c' & f' & s' & content & Hc' & Hs' & Hk & Hr & He).
    apply list_elem_of_singleton in Hc' as ->. simpl in *.
    apply cacheKey_inj in Hk as [<- _].
    unfold referencesOf. rewrite Hs. simpl. rewrite lookup_empty, Hr. exact He. }
  assert (Hrc : forall g dep v, g = f \/ g ∈ X ->
                  resolverCache st1 !! candidate e g dep = Some v ->
                  resolveDependencyReference e (candidate e g dep) rs = Some v).
  { intros g dep v Hg Hk.
    destruct (call_origins cfg e depth f initial X st1 Hcall _ _ Hk)
      as [Hk0|(g' & dep' & Hg' & Heq & Hres)].
    - simpl in Hk0. by rewrite lookup_empty in Hk0.
    - rewrite (Hrs g' Hg') in Hres. exact Hres. }
  assert (Hedge : forall g v, g = f \/ g ∈ X ->
                    (exists dep, edgeVia e st1 g dep v) <-> fsEdge cfg e g v).
  { intros g v Hg. split.
    - intros (dep & deps & Hd & Hin & Hk). exists deps, dep.
      split; [by apply Hdc|]. split; [done|]. rewrite (Hrs g Hg). by apply Hrc.
    - intros (deps & dep & Hd & Hin & Hres).
      destruct (Hsat g Hg) as (deps' & Hd' & Hmiss).
      assert (deps' = deps) as -> by (apply Hdc in Hd'; congruence).
      exists dep, deps. split; [done|]. split; [done|].
      destruct (resolverCache st1 !! candidate e g dep) as [v'|] eqn:Hk.
      + pose proof (Hrc g dep v' Hg Hk) as Hres'. rewrite (Hrs g Hg) in Hres. congruence.
      + rewrite (Hmiss dep Hin Hk) in Hres. discriminate. }
  assert (Hto : forall g w, reaches e st1 g w -> g = f \/ g ∈ X -> fsReaches cfg e g w).
  { intros g w. induction 1 as [g dep v H|g dep v w H _ IH]; intros Hg.
    - apply fsReaches_edge, Hedge; eauto.
    - eapply fsReaches_step; [apply Hedge; eauto|]. apply IH. right.
      eapply Hclosed; eauto. }
  assert (Hfrom : forall g w, fsReaches cfg e g w -> g = f \/ g ∈ X -> reaches e st1 g w).
  { intros g w. induction 1 as [g v H|g v w H _ IH]; intros Hg;
      apply Hedge in H as [dep H]; try done.
    - eapply reaches_edge; eauto.
    - eapply reaches_step; [exact H|]. apply IH. right. eapply Hclosed; eauto. }
  intros w. split.
  - intros Hw. apply Hto; [by apply Hreach|by left].
  - intros Hw. eapply (reaches_closed e st1 f X Hclosed); [|by left]. apply Hfrom; auto.
Qed.

Lemma cold_call_returns_closure_witness :
  "/p/helpers.mjs" ∈ ({["/p/util.js"; "/p/helpers.mjs"]} : gset string)
  <-> fsReaches defaultSearchConfig projectEnv "/p/main.js" "/p/helpers.mjs".
Proof.
  apply (cold_call_returns_closure defaultSearchConfig projectEnv 5 "/p/main.js"
           {["/p/util.js"; "/p/helpers.mjs"]} (resolvers jsSearchConfig)).
  - vm_compute. reflexivity.
  - intros g [->|Hg]; [reflexivity|].
    apply elem_of_union in Hg as [Hg|Hg]; apply elem_of_singleton in Hg as ->; reflexivity.
Defined.

(** ** A call on a project without cycles *)

Lemma fsReaches_snoc cfg e f g v :
  under cfg e f g -> fsEdge cfg e g v -> under cfg e f v.
Proof.
  intros [->|Hg] Hv; right; [by apply fsReaches_edge|].
  induction Hg as [g0 g Hg|g0 g1 g Hg _ IH].
  - eapply fsReaches_step; [exact Hg|by apply fsReaches_edge].
  - eapply fsReaches_step; [exact Hg|by apply IH].
Qed.

Lemma agreesWith_references cfg e rs g st :
  agreesWith cfg e rs st ->
  is_Some (referencesOf cfg e g initial) ->
  exists deps st1,
    references e (parsers (configFor cfg g)) g st = (Returns deps, st1)
    /\ referencesOf cfg e g initial = Some deps
    /\ agreesWith cfg e rs st1.
Proof.
  intros [Hdc Hrc] [deps Hdeps]. unfold references.
  pose proof Hdeps as Hfs. unfold referencesOf in Hfs.
  destruct (Fs.statSync e g) as [err|s] eqn:Hstat; [done|].
  simpl in Hfs. rewrite lookup_empty in Hfs.
  destruct (dependencyCache st !! cacheKey g s) as [deps'|] eqn:Hhit.
  - exists deps', st. split; [done|]. split; [by eapply Hdc|done].
  - destruct (Fs.readFileSync e g) as [err|content] eqn:Hread; [done|].
    rewrite Hfs. eexists _, _. split; [reflexivity|]. split; [done|]. split; [|done].
    intros g' s' deps' Hs' Hl. unfold setDependencies in Hl. cbn [dependencyCache] in Hl.
    apply lookup_insert_Some in Hl as [[Heq <-]|[_ Hl]]; [|by eapply Hdc].
    apply cacheKey_inj in Heq as [<- _]. done.
Qed.

Lemma agreesWith_dependencyOf cfg e rs k st :
  agreesWith cfg e rs st ->
  let r := dependencyOf e rs k st in
  agreesWith cfg e rs (snd r)
  /\ forall v, fst r = Some v -> resolveDependencyReference e k rs = Some v.
Proof.
  intros [Hdc Hrc]. unfold dependencyOf.
  destruct (resolverCache st !! k) as [v|] eqn:Hk.
  - destruct (Hrc k v Hk) as [-> Hres]. simpl. split; [done|]. by intros ? [= <-].
  - destruct (resolveDependencyReference e k rs) as [v|] eqn:Hres; simpl.
    + rewrite (resolveDependencyReference_truthy _ _ _ _ Hres). simpl. split.
      * split; [done|]. intros k' v' Hl. unfold setResolved in Hl.
        cbn [resolverCache] in Hl. apply lookup_insert_Some in Hl as [[<- <-]|[_ Hl]]; [|by apply Hrc].
        split; [|done]. by eapply resolveDependencyReference_truthy.
      * by intros ? [= <-].
    + split; [done|]. by intros ? [=].
Qed.

Lemma acyclic_forEach cfg e rs rank f depth g deps0 :
  acyclicProject cfg e rs rank f ->
  under cfg e f g ->
  referencesOf cfg e g initial = Some deps0 ->
  (forall v st, under cfg e f v -> rank v < rank g -> agreesWith cfg e rs st ->
     exists X st', getDependencies cfg e depth v st = (Returns X, st')
                   /\ agreesWith cfg e rs st') ->
  forall deps results st,
    (forall dep, dep ∈ deps -> dep ∈ deps0) ->
    agreesWith cfg e rs st ->
    exists X st',
      forEachDependency (getDependencies cfg e depth) e (Path.dirname g) rs deps results st
      = (Returns X, st')
      /\ agreesWith cfg e rs st'.
Proof.
  intros Hproj Hg Hdeps0 Hrec.
  destruct (Hproj g Hg) as (Hrs & _ & Hrank).
  induction deps as [|dep deps IH]; intros results st Hsub Hst; simpl; [eauto|].
  fold (candidate e g dep).
  destruct (agreesWith_dependencyOf cfg e rs (candidate e g dep) st Hst) as [Hst1 Hv].
  destruct (dependencyOf e rs (candidate e g dep) st) as [[v|] st1]; simpl in *.
  - assert (Hedge : fsEdge cfg e g v).
    { exists deps0, dep. split; [done|]. split; [apply Hsub; by left|].
      rewrite Hrs. by apply Hv. }
    destruct (Hrec v st1) as (children & st2 & -> & Hst2);
      [by eapply fsReaches_snoc|by apply Hrank|done|].
    apply IH; [|done]. intros d Hd. apply Hsub. by right.
  - apply IH; [|done]. intros d Hd. apply Hsub. by right.
Qed.

Lemma acyclic_call cfg e rs rank f :
  acyclicProject cfg e rs rank f ->
  forall depth g st,
    under cfg e f g -> rank g < depth -> agreesWith cfg e rs st ->
    exists X st', getDependencies cfg e depth g st = (Returns X, st')
                  /\ agreesWith cfg e rs st'.
Proof.
  intros Hproj. induction depth as [|depth IH]; intros g st Hg Hrank Hst; [lia|].
  rewrite getDependencies_S.
  destruct (Hproj g Hg) as (Hrs & Href & _).
  destruct (agreesWith_references cfg e rs g (logCall g st) Hst Href)
    as (deps & st1 & -> & Hdeps & Hst1).
  rewrite Hrs.
  eapply (acyclic_forEach cfg e rs rank f depth g deps); eauto.
  intros v st' Hv Hlt. apply IH; [done|lia].
Qed.

(** On a project of one language whose files can be read and parsed and
    whose dependencies form no cycle, a call on empty tables returns, as
    soon as the stack has room for the longest chain of dependencies. *)
Theorem acyclic_cold_call_returns cfg e rs rank f depth :
  acyclicProject cfg e rs rank f ->
  rank f < depth ->
  exists X, fst (getDependencies cfg e depth f initial) = Returns X.
Proof.
  intros Hproj Hdepth.
  destruct (acyclic_call cfg e rs rank f Hproj depth f initial) as (X & st' & -> & _);
    [by left|done| |by eauto].
  split; intros *; simpl; by rewrite lookup_empty.
Qed.

Lemma pairEnv_edges v :
  (fsEdge defaultSearchConfig pairEnv "/p/a.js" v -> v = "/p/b.js")
  /\ ~ fsEdge defaultSearchConfig pairEnv "/p/b.js" v.
Proof.
  split.
  - intros (deps & dep & Hd & Hin & Hres). vm_compute in Hd. injection Hd as <-.
    apply list_elem_of_singleton in Hin as ->. vm_compute in Hres. congruence.
  - intros (deps & dep & Hd & Hin & _). vm_compute in Hd. injection Hd as <-.
    by apply elem_of_nil in Hin.
Qed.

Lemma pairEnv_acyclic :
  acyclicProject defaultSearchConfig pairEnv (resolvers jsSearchConfig) pairRank "/p/a.js".
Proof.
  assert (Ha : resolvers (configFor defaultSearchConfig "/p/a.js") = resolvers jsSearchConfig
               /\ is_Some (referencesOf defaultSearchConfig pairEnv "/p/a.js" initial)
               /\ forall v, fsEdge defaultSearchConfig pairEnv "/p/a.js" v ->
                            pairRank v < pairRank "/p/a.js").
  { split; [reflexivity|]. split; [vm_compute; eauto|].
    intros v Hv. apply pairEnv_edges in Hv as ->. vm_compute. lia. }
  assert (Hb : resolvers (configFor defaultSearchConfig "/p/b.js") = resolvers jsSearchConfig
               /\ is_Some (referencesOf defaultSearchConfig pairEnv "/p/b.js" initial)
               /\ forall v, fsEdge defaultSearchConfig pairEnv "/p/b.js" v ->
                            pairRank v < pairRank "/p/b.js").
  { split; [reflexivity|]. split; [vm_compute; eauto|].
    intros v Hv. by apply pairEnv_edges in Hv. }
  intros g [->|Hg]; [exact Ha|].
  inversion Hg as [g0 v Hedge|g0 v w Hedge Hrest]; subst.
  - apply pairEnv_edges in Hedge as ->. exact Hb.
  - apply pairEnv_edges in Hedge as ->.
    inversion Hrest as [g0 v Hedge|g0 v w Hedge _]; subst;
      by apply pairEnv_edges in Hedge.
Qed.

Lemma acyclic_cold_call_returns_witness :
  exists X, fst (getDependencies defaultSearchConfig pairEnv 2 "/p/a.js" initial) = Returns X.
Proof.
  apply (acyclic_cold_call_returns defaultSearchConfig pairEnv (resolvers jsSearchConfig)
           pairRank "/p/a.js" 2).
  - apply pairEnv_acyclic.
  - vm_compute. lia.
Defined.

(** ** The filter of the compile tasks *)

Lemma checkEach_spec getTime since e file deps : forall hasChanges console,
  Forall (fun dep => is_Some (match Fs.statSync e dep with
                              | inr s => Some s | inl _ => None end)) deps ->
  exists b, fst (checkEach getTime since e file deps hasChanges console) = Returns b
    /\ (b = true <->
        hasChanges = true \/ exists dep, dep ∈ deps /\ modifiedSince getTime e since dep).
Proof.
  induction deps as [|dep deps IH]; intros hasChanges console Hall; simpl.
  - exists hasChanges. split; [done|]. split; [auto|].
    intros [H|(dep & Hdep & _)]; [done|]. by apply elem_of_nil in Hdep.
  - apply Forall_cons in Hall as [Hdep Hall].
    destruct (Fs.statSync e dep) as [err|stats] eqn:Hstat; [by destruct Hdep|].
    destruct (N.ltb_spec since (getTime stats)) as [Hlt|Hge].
    + destruct (IH true ({[+ changeMessage file dep +]} ⊎ console) Hall) as (b & Hb & Hiff).
      exists b. split; [done|]. rewrite Hiff. split; [|auto].
      intros _. right. exists dep. split; [left|]. exists stats. done.
    + destruct (IH hasChanges console Hall) as (b & Hb & Hiff).
      exists b. split; [done|]. rewrite Hiff. split.
      * intros [H|(d & Hd & Hm)]; [auto|]. right. exists d. split; [by right|done].
      * intros [H|(d & Hd & Hm)]; [auto|]. right.
        apply elem_of_cons in Hd as [->|Hd]; [|eauto].
        destruct Hm as (stats' & Hs' & Hlt). rewrite Hstat in Hs'. injection Hs' as <-.
        lia.
Qed.

(** When the task has run before or a watcher has started, and the
    [Date] of the last modification of the file itself is not later than
    [since], the filter keeps the file exactly when, for a member of the
    set that [getDependencies] returns for it, that [Date] is later than
    [since]; the look at the members throws no error, as each of them
    exists. The [Date] is in whole milliseconds, whatever the number
    [stats.mtimeMs] is: the statement holds for every [getTime]. *)
Theorem kept_iff_dependency_modified getTime lastRun sinceWatching e depth file history
    console stats X :
  let since := sinceLastTask lastRun sinceWatching in
  since <> 0%N ->
  Fs.statSync e (v_path file) = inr stats ->
  (getTime stats <= since)%N ->
  fst (module_exports None e depth (v_path file) (after history)) = Returns X ->
  exists b,
    fst (fst (checkDependencies getTime lastRun sinceWatching e depth file (after history)
                console))
    = Returns b
    /\ (b = true <-> exists dep, dep ∈ X /\ modifiedSince getTime e since dep).
Proof.
  intros since Hsince Hstat Hold Hret.
  unfold checkDependencies, dependenciesChanged. fold since.
  destruct (N.eqb_spec since 0) as [|_]; [done|]. rewrite Hstat.
  destruct (N.ltb_spec since (getTime stats)) as [|_]; [lia|].
  destruct (module_exports None e depth (v_path file) (after history)) as [o st1] eqn:Hcall.
  simpl in Hret. subst o.
  assert (Hall : Forall (fun dep => is_Some (match Fs.statSync e dep with
                                             | inr s => Some s | inl _ => None end))
                   (elements X)).
  { apply Forall_forall. intros dep Hdep%elem_of_elements.
    destruct (returned_tables _ _ _ _ _ _ _ (truthyTable_after history) Hcall)
      as (_ & Hsat & _).
    destruct (Hsat dep (or_intror Hdep)) as (deps & (s & -> & _) & _). eauto. }
  destruct (checkEach_spec getTime since e file (elements X) false console Hall)
    as (b & Hb & Hiff).
  destruct (checkEach getTime since e file (elements X) false console) as [o console1].
  simpl in Hb. subst o. exists b. split; [done|]. rewrite Hiff. split.
  - intros [H|(dep & Hdep & Hm)]; [done|]. exists dep. by rewrite <- elem_of_elements.
  - intros (dep & Hdep & Hm). right. exists dep. by rewrite elem_of_elements.
Qed.

Lemma kept_iff_dependency_modified_witness :
  exists b,
    fst (fst (checkDependencies wholeMilliseconds (Some 11%N) 0 projectEnv 5
                (Vinyl "/p/main.js" "/p") (after []) ∅))
    = Returns b
    /\ (b = true <-> exists dep,
          dep ∈ ({["/p/util.js"; "/p/helpers.mjs"]} : gset string)
          /\ modifiedSince wholeMilliseconds projectEnv (sinceLastTask (Some 11%N) 0) dep).
Proof.
  apply (kept_iff_dependency_modified wholeMilliseconds (Some 11%N) 0%N projectEnv 5
           (Vinyl "/p/main.js" "/p") [] ∅ (Fs.Stats true 10)).
  - discriminate.
  - reflexivity.
  - vm_compute. discriminate.
  - vm_compute. reflexivity.
Defined.

Lemma checkEach_monotone getTime since since' e file deps :
  (since' <= since)%N ->
  forall h h' console console',
    (h = true -> h' = true) ->
    fst (checkEach getTime since e file deps h console) = Returns true ->
    fst (checkEach getTime since' e file deps h' console') = Returns true.
Proof.
  intros Hle. induction deps as [|dep deps IH]; intros h h' console console' Hh; simpl.
  - intros [= ->]. by rewrite Hh.
  - destruct (Fs.statSync e dep) as [err|stats]; [done|].
    destruct (N.ltb_spec since (getTime stats)) as [Hlt|Hge];
      destruct (N.ltb_spec since' (getTime stats)) as [Hlt'|Hge']; try lia;
      apply IH; auto.
Qed.

(** A file that the filter keeps for a time [since] it keeps for every
    earlier time, from the same tables. *)
Theorem kept_for_earlier_since getTime since since' e depth file st console console' :
  (since' <= since)%N ->
  fst (fst (dependenciesChanged getTime since e depth file st console)) = Returns true ->
  fst (fst (dependenciesChanged getTime since' e depth file st console')) = Returns true.
Proof.
  intros Hle. unfold dependenciesChanged.
  destruct (N.eqb_spec since' 0) as [|Hne']; [done|].
  destruct (N.eqb_spec since 0) as [|Hne]; [lia|].
  destruct (Fs.statSync e (v_path file)) as [err|stats]; [done|].
  destruct (N.ltb_spec since' (getTime stats)) as [|Hge']; [done|].
  destruct (N.ltb_spec since (getTime stats)) as [|Hge]; [lia|].
  destruct (module_exports None e depth (v_path file) st) as [[X| |] st1]; try done.
  pose proof (checkEach_monotone getTime since since' e file (elements X) Hle false false
                console console' (fun H => H)) as Hmono.
  destruct (checkEach getTime since e file (elements X) false console) as [o c1].
  destruct (checkEach getTime since' e file (elements X) false console') as [o' c1'].
  simpl in *. exact Hmono.
Qed.

Lemma kept_for_earlier_since_witness :
  fst (fst (dependenciesChanged wholeMilliseconds 5 projectEnv 5 (Vinyl "/p/main.js" "/p")
              initial ∅))
  = Returns true.
Proof.
  apply (kept_for_earlier_since wholeMilliseconds 11 5 projectEnv 5
           (Vinyl "/p/main.js" "/p") initial ∅ ∅).
  - vm_compute. discriminate.
  - vm_compute. reflexivity.
Defined.

(** ** The script *)

(** Run in a new process whose working directory is absolute, the script
    prints absolute paths of regular files only, whatever its argument,
    and it is never caught in a loop of the parsers. *)
Theorem script_prints_absolute_files argv2 e depth :
  Path.is_absolute (Fs.cwd e) = true ->
  dependency_test argv2 e depth <> Diverges
  /\ forall X p, dependency_test argv2 e depth = Returns (Log X) -> p ∈ X ->
       Path.is_absolute p = true /\ isRegularFile e p = true.
Proof.
  intros Hcwd. unfold dependency_test, module_exports. simpl.
  destruct argv2 as [file|]; [|split; done].
  destruct (truthy file); [|split; done].
  set (f := Path.resolve (Fs.cwd e) [file]).
  split.
  - pose proof (productive_not_Diverges defaultSearchConfig e depth
                  productiveConfig_default f initial) as Hnd.
    by destruct (fst (getDependencies defaultSearchConfig e depth f initial)).
  - intros X p HX Hp.
    destruct (fst (getDependencies defaultSearchConfig e depth f initial))
      as [X'| |] eqn:Hret; try done.
    injection HX as ->.
    set (P := fun v : string => Path.is_absolute v = true /\ isRegularFile e v = true).
    change (P p).
    refine (proj2 (getDependencies_inv defaultSearchConfig e
              (fun st => forall k v, resolverCache st !! k = Some v -> P v) P
              _ _ _ _ _ _ depth f initial _) X Hret p Hp); try done.
    + intros g dep v st HI _ Hres.
      assert (HP : P v).
      { split; [|by eapply resolveDependencyReference_regular].
        eapply resolved_absolute; eauto. apply preservesAbsolute_default. }
      split; [|done]. intros k' v'. simpl.
      destruct (decide (candidate e g dep = k')) as [<-|Hne].
      * rewrite lookup_insert_eq. by intros [= <-].
      * rewrite lookup_insert_ne; [|done]. apply HI.
    + intros k v st HI Hk _. eapply HI, Hk.
Qed.

Lemma script_prints_absolute_files_witness :
  dependency_test (Some "p/main.js") projectEnv 5 <> Diverges
  /\ forall X p, dependency_test (Some "p/main.js") projectEnv 5 = Returns (Log X) ->
       p ∈ X -> Path.is_absolute p = true /\ isRegularFile projectEnv p = true.
Proof.
  apply (script_prints_absolute_files (Some "p/main.js") projectEnv 5). reflexivity.
Defined.

(** ** Parsed configurations *)

(** A parsed configuration always has globs to work with, a property that
    [config] has it has with the value of [config], and parsing it again
    with the same defaults changes nothing. *)
Theorem parseDefaults_idempotent config defaults :
  truthyValue (prop (parseDefaults config defaults) "paths") = true
  /\ (forall key v, key <> "paths" -> config !! key = Some v ->
        parseDefaults config defaults !! key = Some v)
  /\ parseDefaults (parseDefaults config defaults) defaults = parseDefaults config defaults.
Proof.
  assert (Hpaths : truthyValue (prop (parseDefaults config defaults) "paths") = true).
  { unfold parseDefaults.
    destruct (truthyValue (prop (config ∪ defaults) "paths")) eqn:Ht; [exact Ht|].
    unfold prop. rewrite lookup_insert_eq. reflexivity. }
  assert (Hunion : parseDefaults config defaults ∪ defaults = parseDefaults config defaults).
  { unfold parseDefaults.
    destruct (truthyValue (prop (config ∪ defaults) "paths")).
    - by rewrite <- (assoc_L (∪)), (idemp_L (∪)).
    - rewrite <- insert_union_l. by rewrite <- (assoc_L (∪)), (idemp_L (∪)). }
  split; [done|]. split.
  - intros key v Hkey Hv. unfold parseDefaults.
    assert (Hu : (config ∪ defaults) !! key = Some v) by (by apply lookup_union_Some_l).
    destruct (truthyValue (prop (config ∪ defaults) "paths")); [exact Hu|].
    rewrite lookup_insert_ne; [exact Hu|congruence].
  - unfold parseDefaults at 1. by rewrite Hunion, Hpaths.
Qed.
